(** * Player Chooser: the touch session of [script.js]

    A shallow embedding of the touch handlers, the animation-frame loop,
    the lock routine and the reset routine of [script.js], followed by the
    properties of the touch session that the specification states.  The
    script is taken in its later revision, the one with the result overlay,
    the stored teams and the reset timer.

    Conventions of the embedding.
    - The script's globals and the few DOM properties it writes are the
      fields of one record, [State]; every function of the script is a
      function on [State].
    - [Date.now()] is an argument [now] (milliseconds, an integer).
    - [Math.random()] reads an entropy source [rand]: the [i]-th call made
      during one run of the lock routine returns [Math_random rand i], the
      binary64 value of the interval [0, 1) whose bit pattern the source
      gives.  Its products with the lengths of the script are rounded as
      binary64 arithmetic rounds them, to nearest with ties to even.
    - [setTimeout] and [clearTimeout] act on the list [timeouts] of pending
      tasks, each with its handle and the time it is due; a task scheduled
      during a frame is due [delay] after the [now] of that frame.
    - An exception leaves the routine at once; the state reached so far is
      kept in [Throw]. *)

From Stdlib Require Import ZArith List Ascii String DecimalString Lia.
From Stdlib Require PrimFloat FloatOps Uint63.
From stdpp Require Import base tactics option list.

Local Open Scope string_scope.

(** ** JavaScript values used by the script *)

(** A number that is an integer or [NaN] (what [parseInt] returns). *)
Inductive Num :=
| NaN
| Int (z : Z).

(** [a < b] and [a > b] of JavaScript: false as soon as one side is NaN. *)
Definition num_ltb (a : Num) (b : Z) : bool :=
  match a with NaN => false | Int z => (z <? b)%Z end.

Definition num_gtb (a : Num) (b : Z) : bool :=
  match a with NaN => false | Int z => (b <? z)%Z end.

(** [a % b] on integers (truncated, sign of the dividend); NaN for NaN or
    a zero divisor. *)
Definition num_rem (a b : Num) : Num :=
  match a, b with
  | Int x, Int y => if (y =? 0)%Z then NaN else Int (Z.rem x y)
  | _, _ => NaN
  end.

(** Result of a routine that may throw. *)
Inductive Completion (A : Type) :=
| Normal (a : A)
| Throw (a : A).
Arguments Normal {A} a.
Arguments Throw {A} a.

Definition result_of {A} (c : Completion A) : A :=
  match c with Normal a | Throw a => a end.

(** The character [U+0022], for the attribute values of the result text. *)
Definition dquote : string := String (ascii_of_nat 34) EmptyString.

(** A value interpolated in a template literal; [undefined] prints as such. *)
Definition template (v : option string) : string :=
  match v with Some s => s | None => "undefined" end.

Definition decimal (n : nat) : string := NilEmpty.string_of_uint (Nat.to_uint n).

(** ** Objects used as maps

    [touchesData] is a plain object keyed by the touch identifier.  Its own
    properties are kept in creation order; [Object_keys] lists them in the
    order of the language: array indices in ascending order, then the
    remaining keys in creation order. *)
Section Objects.
Context {V : Type}.

Definition Obj := list (Z * V).

Definition obj_get (k : Z) (o : Obj) : option V :=
  snd <$> List.find (fun e => (fst e =? k)%Z) o.

(** [o[k] = v]: overwrite in place, or create the property last. *)
Fixpoint obj_set (k : Z) (v : V) (o : Obj) : Obj :=
  match o with
  | [] => [(k, v)]
  | e :: o' => if (fst e =? k)%Z then (k, v) :: o' else e :: obj_set k v o'
  end.

(** [delete o[k]]. *)
Definition obj_delete (k : Z) (o : Obj) : Obj :=
  List.filter (fun e => negb (fst e =? k)%Z) o.

(** [o[k].field = ...]: the object stored under [k] is changed by [f]. *)
Definition obj_modify (k : Z) (f : V -> V) (o : Obj) : Obj :=
  List.map (fun e => if (fst e =? k)%Z then (fst e, f (snd e)) else e) o.

Definition isArrayIndex (k : Z) : bool := ((0 <=? k) && (k <? 2 ^ 32 - 1))%Z.

Fixpoint insert_key (k : Z) (l : list Z) : list Z :=
  match l with
  | [] => [k]
  | h :: t => if (k <=? h)%Z then k :: l else h :: insert_key k t
  end.

Definition sort_keys (l : list Z) : list Z := List.fold_right insert_key [] l.

Definition Object_keys (o : Obj) : list Z :=
  let ks := List.map fst o in
  sort_keys (List.filter isArrayIndex ks)
    ++ List.filter (fun k => negb (isArrayIndex k)) ks.
End Objects.
Arguments Obj V : clear implicits.

(** ** Data of the script *)

(** One entry of [ev.changedTouches].  The identifier is an integer; as a
    property key it is an array index when it lies in [0, 2^32 - 2].  The
    coordinates are only copied by the script and are taken as integers. *)
Record Touch := { identifier : Z; clientX : Z; clientY : Z }.

(** [data.radius]: the literal 100 of a new touch, or the value
    [80 + 40 * Math.abs(Math.sin(angle))] computed from an angle. *)
Inductive Radius :=
| Radius100
| RadiusPulse (angle_steps : nat).

(** The object stored in [touchesData] for one finger.  [angle] counts the
    additions of 0.05 made to the initial 0. *)
Module TouchData.
Record t := {
  x : Z;
  y : Z;
  color : option string;
  angle : nat;
  radius : Radius;
  active : bool
}.

Definition set_x v d :=
  {| x := v; y := y d; color := color d; angle := angle d;
     radius := radius d; active := active d |}.
Definition set_y v d :=
  {| x := x d; y := v; color := color d; angle := angle d;
     radius := radius d; active := active d |}.
Definition set_angle v d :=
  {| x := x d; y := y d; color := color d; angle := v;
     radius := radius d; active := active d |}.
Definition set_radius v d :=
  {| x := x d; y := y d; color := color d; angle := angle d;
     radius := v; active := active d |}.
Definition set_active v d :=
  {| x := x d; y := y d; color := color d; angle := angle d;
     radius := radius d; active := v |}.
End TouchData.

(** A member of a team: [{ id, color }]. *)
Record Member := { member_id : Z; member_color : option string }.

(** [element.style.display]. *)
Inductive Display :=
| DisplayUnset
| DisplayBlock
| DisplayNone.

(** A radio button of the group [mode]. *)
Record Radio := { checked : bool; value : string }.

Definition COLORS : list string :=
  [ "#e6194b"; "#3cb44b"; "#ffe119"; "#0082c8"; "#f58231";
    "#911eb4"; "#46f0f0"; "#f032e6"; "#d2f53c"; "#fabebe" ].

Definition COLOR_NAMES : list (string * string) :=
  [ ("#e6194b", "Red"); ("#3cb44b", "Green"); ("#ffe119", "Yellow");
    ("#0082c8", "Blue"); ("#f58231", "Orange"); ("#911eb4", "Purple");
    ("#46f0f0", "Cyan"); ("#f032e6", "Magenta"); ("#d2f53c", "Lime");
    ("#fabebe", "Pink") ].

Definition INACTIVITY_TIMEOUT : Z := 5000.

(** [COLORS[id % COLORS.length]]: [undefined] for a negative remainder. *)
Definition color_of (id : Z) : option string :=
  let r := Z.rem id (Z.of_nat (length COLORS)) in
  if (r <? 0)%Z then None else COLORS !! Z.to_nat r.

(** The globals of the script, the DOM properties it writes, and the
    pending work the browser holds for it. *)
Record State := {
  touchesData : Obj TouchData.t;
  lastTouchTime : Z;
  showingResult : bool;
  locked : bool;
  resultTimer : option positive;
  teams : list (list Member);
  hintDiv_display : Display;
  resultOverlay_display : Display;
  resultOverlay_innerHTML : string;
  modeRadios : list Radio;
  (** the number [parseInt(countInput.value, 10)] evaluates to *)
  countInput_value : Num;
  (** tasks scheduled with [setTimeout]: handle and due time *)
  timeouts : list (positive * Z);
  nextHandle : positive;
  (** a [requestAnimationFrame(drawLoop)] is outstanding *)
  frameRequested : bool
}.

Definition set_touchesData v (s : State) : State :=
  {| touchesData := v;
     lastTouchTime := lastTouchTime s;
     showingResult := showingResult s;
     locked := locked s;
     resultTimer := resultTimer s;
     teams := teams s;
     hintDiv_display := hintDiv_display s;
     resultOverlay_display := resultOverlay_display s;
     resultOverlay_innerHTML := resultOverlay_innerHTML s;
     modeRadios := modeRadios s;
     countInput_value := countInput_value s;
     timeouts := timeouts s;
     nextHandle := nextHandle s;
     frameRequested := frameRequested s |}.

Definition set_lastTouchTime v (s : State) : State :=
  {| touchesData := touchesData s;
     lastTouchTime := v;
     showingResult := showingResult s;
     locked := locked s;
     resultTimer := resultTimer s;
     teams := teams s;
     hintDiv_display := hintDiv_display s;
     resultOverlay_display := resultOverlay_display s;
     resultOverlay_innerHTML := resultOverlay_innerHTML s;
     modeRadios := modeRadios s;
     countInput_value := countInput_value s;
     timeouts := timeouts s;
     nextHandle := nextHandle s;
     frameRequested := frameRequested s |}.

Definition set_showingResult v (s : State) : State :=
  {| touchesData := touchesData s;
     lastTouchTime := lastTouchTime s;
     showingResult := v;
     locked := locked s;
     resultTimer := resultTimer s;
     teams := teams s;
     hintDiv_display := hintDiv_display s;
     resultOverlay_display := resultOverlay_display s;
     resultOverlay_innerHTML := resultOverlay_innerHTML s;
     modeRadios := modeRadios s;
     countInput_value := countInput_value s;
     timeouts := timeouts s;
     nextHandle := nextHandle s;
     frameRequested := frameRequested s |}.

Definition set_locked v (s : State) : State :=
  {| touchesData := touchesData s;
     lastTouchTime := lastTouchTime s;
     showingResult := showingResult s;
     locked := v;
     resultTimer := resultTimer s;
     teams := teams s;
     hintDiv_display := hintDiv_display s;
     resultOverlay_display := resultOverlay_display s;
     resultOverlay_innerHTML := resultOverlay_innerHTML s;
     modeRadios := modeRadios s;
     countInput_value := countInput_value s;
     timeouts := timeouts s;
     nextHandle := nextHandle s;
     frameRequested := frameRequested s |}.

Definition set_resultTimer v (s : State) : State :=
  {| touchesData := touchesData s;
     lastTouchTime := lastTouchTime s;
     showingResult := showingResult s;
     locked := locked s;
     resultTimer := v;
     teams := teams s;
     hintDiv_display := hintDiv_display s;
     resultOverlay_display := resultOverlay_display s;
     resultOverlay_innerHTML := resultOverlay_innerHTML s;
     modeRadios := modeRadios s;
     countInput_value := countInput_value s;
     timeouts := timeouts s;
     nextHandle := nextHandle s;
     frameRequested := frameRequested s |}.

Definition set_teams v (s : State) : State :=
  {| touchesData := touchesData s;
     lastTouchTime := lastTouchTime s;
     showingResult := showingResult s;
     locked := locked s;
     resultTimer := resultTimer s;
     teams := v;
     hintDiv_display := hintDiv_display s;
     resultOverlay_display := resultOverlay_display s;
     resultOverlay_innerHTML := resultOverlay_innerHTML s;
     modeRadios := modeRadios s;
     countInput_value := countInput_value s;
     timeouts := timeouts s;
     nextHandle := nextHandle s;
     frameRequested := frameRequested s |}.

Definition set_hintDiv_display v (s : State) : State :=
  {| touchesData := touchesData s;
     lastTouchTime := lastTouchTime s;
     showingResult := showingResult s;
     locked := locked s;
     resultTimer := resultTimer s;
     teams := teams s;
     hintDiv_display := v;
     resultOverlay_display := resultOverlay_display s;
     resultOverlay_innerHTML := resultOverlay_innerHTML s;
     modeRadios := modeRadios s;
     countInput_value := countInput_value s;
     timeouts := timeouts s;
     nextHandle := nextHandle s;
     frameRequested := frameRequested s |}.

Definition set_resultOverlay_display v (s : State) : State :=
  {| touchesData := touchesData s;
     lastTouchTime := lastTouchTime s;
     showingResult := showingResult s;
     locked := locked s;
     resultTimer := resultTimer s;
     teams := teams s;
     hintDiv_display := hintDiv_display s;
     resultOverlay_display := v;
     resultOverlay_innerHTML := resultOverlay_innerHTML s;
     modeRadios := modeRadios s;
     countInput_value := countInput_value s;
     timeouts := timeouts s;
     nextHandle := nextHandle s;
     frameRequested := frameRequested s |}.

Definition set_resultOverlay_innerHTML v (s : State) : State :=
  {| touchesData := touchesData s;
     lastTouchTime := lastTouchTime s;
     showingResult := showingResult s;
     locked := locked s;
     resultTimer := resultTimer s;
     teams := teams s;
     hintDiv_display := hintDiv_display s;
     resultOverlay_display := resultOverlay_display s;
     resultOverlay_innerHTML := v;
     modeRadios := modeRadios s;
     countInput_value := countInput_value s;
     timeouts := timeouts s;
     nextHandle := nextHandle s;
     frameRequested := frameRequested s |}.

Definition set_modeRadios v (s : State) : State :=
  {| touchesData := touchesData s;
     lastTouchTime := lastTouchTime s;
     showingResult := showingResult s;
     locked := locked s;
     resultTimer := resultTimer s;
     teams := teams s;
     hintDiv_display := hintDiv_display s;
     resultOverlay_display := resultOverlay_display s;
     resultOverlay_innerHTML := resultOverlay_innerHTML s;
     modeRadios := v;
     countInput_value := countInput_value s;
     timeouts := timeouts s;
     nextHandle := nextHandle s;
     frameRequested := frameRequested s |}.

Definition set_countInput_value v (s : State) : State :=
  {| touchesData := touchesData s;
     lastTouchTime := lastTouchTime s;
     showingResult := showingResult s;
     locked := locked s;
     resultTimer := resultTimer s;
     teams := teams s;
     hintDiv_display := hintDiv_display s;
     resultOverlay_display := resultOverlay_display s;
     resultOverlay_innerHTML := resultOverlay_innerHTML s;
     modeRadios := modeRadios s;
     countInput_value := v;
     timeouts := timeouts s;
     nextHandle := nextHandle s;
     frameRequested := frameRequested s |}.

Definition set_timeouts v (s : State) : State :=
  {| touchesData := touchesData s;
     lastTouchTime := lastTouchTime s;
     showingResult := showingResult s;
     locked := locked s;
     resultTimer := resultTimer s;
     teams := teams s;
     hintDiv_display := hintDiv_display s;
     resultOverlay_display := resultOverlay_display s;
     resultOverlay_innerHTML := resultOverlay_innerHTML s;
     modeRadios := modeRadios s;
     countInput_value := countInput_value s;
     timeouts := v;
     nextHandle := nextHandle s;
     frameRequested := frameRequested s |}.

Definition set_nextHandle v (s : State) : State :=
  {| touchesData := touchesData s;
     lastTouchTime := lastTouchTime s;
     showingResult := showingResult s;
     locked := locked s;
     resultTimer := resultTimer s;
     teams := teams s;
     hintDiv_display := hintDiv_display s;
     resultOverlay_display := resultOverlay_display s;
     resultOverlay_innerHTML := resultOverlay_innerHTML s;
     modeRadios := modeRadios s;
     countInput_value := countInput_value s;
     timeouts := timeouts s;
     nextHandle := v;
     frameRequested := frameRequested s |}.

Definition set_frameRequested v (s : State) : State :=
  {| touchesData := touchesData s;
     lastTouchTime := lastTouchTime s;
     showingResult := showingResult s;
     locked := locked s;
     resultTimer := resultTimer s;
     teams := teams s;
     hintDiv_display := hintDiv_display s;
     resultOverlay_display := resultOverlay_display s;
     resultOverlay_innerHTML := resultOverlay_innerHTML s;
     modeRadios := modeRadios s;
     countInput_value := countInput_value s;
     timeouts := timeouts s;
     nextHandle := nextHandle s;
     frameRequested := v |}.


(** ** Event handlers *)

Definition updateLastTouchTime (now : Z) (s : State) : State :=
  set_lastTouchTime now s.

(** The object literal [handleTouchStart] stores for a new touch. *)
Definition newTouchData (t : Touch) : TouchData.t :=
  {| TouchData.x := clientX t;
     TouchData.y := clientY t;
     TouchData.color := color_of (identifier t);
     TouchData.angle := 0;
     TouchData.radius := Radius100;
     TouchData.active := true |}.

Definition touchStart_one (s : State) (t : Touch) : State :=
  let id := identifier t in
  if (length (Object_keys (touchesData s)) <? 10)%nat
  then set_touchesData (obj_set id (newTouchData t) (touchesData s)) s
  else s.

Definition handleTouchStart (changedTouches : list Touch) (now : Z)
  (s : State) : State :=
  if locked s then s else
  let s := set_hintDiv_display DisplayNone s in
  let s := set_showingResult false s in
  let s := fold_left touchStart_one changedTouches s in
  updateLastTouchTime now s.

Definition touchMove_one (s : State) (t : Touch) : State :=
  let id := identifier t in
  match obj_get id (touchesData s) with
  | Some _ =>
      let s := set_touchesData
                 (obj_modify id (TouchData.set_x (clientX t)) (touchesData s)) s in
      set_touchesData
        (obj_modify id (TouchData.set_y (clientY t)) (touchesData s)) s
  | None => s
  end.

Definition handleTouchMove (changedTouches : list Touch) (s : State) : State :=
  if locked s then s else
  fold_left touchMove_one changedTouches s.

Definition touchEnd_one (s : State) (t : Touch) : State :=
  let id := identifier t in
  match obj_get id (touchesData s) with
  | Some _ => set_touchesData (obj_delete id (touchesData s)) s
  | None => s
  end.

Definition handleTouchEnd (changedTouches : list Touch) (now : Z)
  (s : State) : State :=
  if locked s then s else
  let s := set_showingResult false s in
  let s := fold_left touchEnd_one changedTouches s in
  updateLastTouchTime now s.

(** ** Helpers of the result *)

Definition getCurrentMode (s : State) : string :=
  match List.find checked (modeRadios s) with
  | Some radio => value radio
  | None => "choose"
  end.

(** [COLOR_NAMES[colorCode] || colorCode]; every name is a non-empty string. *)
Definition getColorName (colorCode : option string) : option string :=
  match snd <$> List.find (fun e => String.eqb (fst e) (template colorCode)) COLOR_NAMES with
  | Some name => Some name
  | None => colorCode
  end.

Definition clearTimeout (h : positive) (s : State) : State :=
  set_timeouts (List.filter (fun e => negb (Pos.eqb (fst e) h)) (timeouts s)) s.

(** [resultTimer = setTimeout(() => resetAll(), delay)] at time [now]. *)
Definition setTimeout_resultTimer (delay now : Z) (s : State) : State :=
  let h := nextHandle s in
  let s := set_timeouts (timeouts s ++ [(h, (now + delay)%Z)])%list s in
  let s := set_nextHandle (Pos.succ h) s in
  set_resultTimer (Some h) s.

Definition resetAll (s : State) : State :=
  let s := set_touchesData [] s in
  let s := set_showingResult false s in
  let s := set_locked false s in
  let s := set_lastTouchTime 0%Z s in
  let s := set_teams [] s in
  let s := set_hintDiv_display DisplayBlock s in
  let s := set_resultOverlay_display DisplayNone s in
  let s := set_resultOverlay_innerHTML EmptyString s in
  match resultTimer s with
  | Some h => set_resultTimer None (clearTimeout h s)
  | None => s
  end.

(** ** Numbers of binary64

    A finite binary64 value that is not negative: [mant * 2^expo]. *)
Record Float64 := { mant : Z; expo : Z }.

(** The bit pattern of 1.0, [0x3FF0000000000000].  The values of the
    interval [0, 1) are those with a pattern below it. *)
Definition ONE_BITS : N := 4607182418800017408.

(** The value with the bit pattern [bits], for a pattern with the sign bit
    clear: the exponent field is in the bits 52 to 62, the fraction below;
    the exponent field 0 is that of zero and of the subnormal values. *)
Definition from_bits (bits : Z) : Float64 :=
  let e := (bits / 2 ^ 52)%Z in
  let f := (bits mod 2 ^ 52)%Z in
  if (e =? 0)%Z then {| mant := f; expo := -1074 |}
  else {| mant := 2 ^ 52 + f; expo := e - 1075 |}.

(** Rounding to the 53 significant bits of binary64, to nearest and ties
    to even: of a mantissa of [53 + k] bits the last [k] are dropped, and
    the rest goes up when the dropped part is over half a unit, or is
    half a unit with an odd rest.  The exponents of the script stay far
    from overflow, and a value with exponent -1074 or more and a mantissa
    below 2^53 is a binary64 value as it is. *)
Definition round53 (x : Float64) : Float64 :=
  let k := (Z.log2 (mant x) - 52)%Z in
  if (k <=? 0)%Z then x else
  let q := (mant x / 2 ^ k)%Z in
  let r := (mant x mod 2 ^ k)%Z in
  let half := (2 ^ (k - 1))%Z in
  let up := (half <? r)%Z || ((r =? half)%Z && Z.odd q) in
  {| mant := if up then (q + 1)%Z else q; expo := (expo x + k)%Z |}.

(** [x * n] for an integer [n] of the script, the length of an array or
    an index plus one: an integer below 2^32, which is a binary64 value as
    it is.  The exact product is rounded. *)
Definition times (x : Float64) (n : nat) : Float64 :=
  round53 {| mant := mant x * Z.of_nat n; expo := expo x |}.

(** [Math.floor(x)], an integer. *)
Definition Math_floor (x : Float64) : Z := Z.shiftr (mant x) (- expo x).

(** ** Randomness *)

Definition Math_random (rand : nat -> N) (i : nat) : Float64 :=
  from_bits (Z.of_N (rand i mod ONE_BITS)).

(** [Math.floor(Math.random() * n)] at the [i]-th call of [Math.random]. *)
Definition random_index (rand : nat -> N) (i n : nat) : Z :=
  Math_floor (times (Math_random rand i) n).

(** [arr[j]] for an integer [j]. *)
Definition at_index {A} (arr : list A) (j : Z) : option A :=
  if (j <? 0)%Z then None else arr !! Z.to_nat j.

(** ** The lock routine *)

Definition deactivate_others (chosenKey : option Z) (s : State) (id : Z) : State :=
  if decide (Some id = chosenKey) then s
  else set_touchesData
         (obj_modify id (TouchData.set_active false) (touchesData s)) s.

Definition winnerText (chosenColor : option string) : string :=
  "Winner: <span style=" ++ dquote ++ "color:" ++ template chosenColor
    ++ dquote ++ ">" ++ template (getColorName chosenColor) ++ "</span>".

(** The branch [mode === 'choose'].  An index outside [activeKeys] gives
    the key [undefined], and reading [touchesData[undefined].color] throws. *)
Definition lock_choose (rand : nat -> N) (activeKeys : list Z) (s : State)
  : Completion State :=
  let chosenKey :=
    at_index activeKeys (random_index rand 0 (length activeKeys)) in
  let s := fold_left (deactivate_others chosenKey) activeKeys s in
  match chosenKey ≫= (fun k => obj_get k (touchesData s)) with
  | None => Throw s
  | Some chosen =>
      let chosenColor := TouchData.color chosen in
      let s := set_resultOverlay_innerHTML (winnerText chosenColor) s in
      Normal (set_resultOverlay_display DisplayBlock s)
  end.

(** The two clamps applied to [teamCount]; NaN passes both comparisons. *)
Definition clampTeamCount (teamCount : Num) (n : nat) : Num :=
  let teamCount := if num_ltb teamCount 1 then Int 1 else teamCount in
  if num_gtb teamCount (Z.of_nat n) then Int (Z.of_nat n) else teamCount.

Definition touchObject (s : State) (id : Z) : Member :=
  {| member_id := id;
     member_color := obj_get id (touchesData s) ≫= TouchData.color |}.

(** [[arr[i], arr[j]] = [arr[j], arr[i]]].  Both indices lie inside the
    array whenever the shuffle runs (lemmas [swap_defined] and
    [swap_length]); outside, the array is returned as it is. *)
Definition swap {A} (i : nat) (j : Z) (arr : list A) : list A :=
  match arr !! i, at_index arr j with
  | Some ai, Some aj => <[Z.to_nat j := ai]> (<[i := aj]> arr)
  | _, _ => arr
  end.

(** The loop [for (let i = ...; i > 0; i--)], entered at [i] with [call]
    calls of [Math.random] already made. *)
Fixpoint shuffle_from {A} (rand : nat -> N) (call i : nat) (arr : list A)
  : list A :=
  match i with
  | O => arr
  | S i' =>
      let j := random_index rand call (i + 1) in
      shuffle_from rand (S call) i' (swap i j arr)
  end.

Definition shuffle {A} (rand : nat -> N) (arr : list A) : list A :=
  shuffle_from rand 0 (length arr - 1) arr.

(** [for (let i = 0; i < teamCount; i++) teams.push([])]. *)
Definition emptyTeams (teamCount : Num) : list (list Member) :=
  match teamCount with
  | Int k => replicate (Z.to_nat k) []
  | NaN => []
  end.

(** [teams[index]]. *)
Definition team_at (teams : list (list Member)) (index : Num)
  : option (list Member) :=
  match index with
  | Int z => at_index teams z
  | NaN => None
  end.

Definition num_succ (a : Num) : Num :=
  match a with Int z => Int (z + 1) | NaN => NaN end.

(** The loop [for (let touchObj of touchArray)]; pushing to a team that
    does not exist throws. *)
Fixpoint distribute (teamCount : Num) (touchArray : list Member)
  (teams : list (list Member)) (index : Num)
  : Completion (list (list Member)) :=
  match touchArray with
  | [] => Normal teams
  | touchObj :: rest =>
      match team_at teams index, index with
      | Some team, Int z =>
          distribute teamCount rest
            (<[Z.to_nat z := (team ++ [touchObj])%list]> teams)
            (num_rem (num_succ index) teamCount)
      | _, _ => Throw teams
      end
  end.

Definition memberText (m : Member) : string :=
  "<span style=" ++ dquote ++ "color:" ++ template (member_color m)
    ++ dquote ++ ">" ++ template (getColorName (member_color m)) ++ "</span>".

Definition teamText (i : nat) (team : list Member) : string :=
  "Team " ++ decimal (i + 1) ++ ": "
    ++ String.concat ", " (List.map memberText team) ++ "<br>".

Definition resultText (teams : list (list Member)) : string :=
  String.concat EmptyString (imap teamText teams).

(** The branch [mode === 'team']. *)
Definition lock_team (rand : nat -> N) (activeKeys : list Z) (s : State)
  : Completion State :=
  let teamCount :=
    clampTeamCount (countInput_value s) (length activeKeys) in
  let touchArray := List.map (touchObject s) activeKeys in
  let touchArray := shuffle rand touchArray in
  let s := set_teams (emptyTeams teamCount) s in
  match distribute teamCount touchArray (teams s) (Int 0) with
  | Throw teams' => Throw (set_teams teams' s)
  | Normal teams' =>
      let s := set_teams teams' s in
      let s := set_resultOverlay_innerHTML (resultText (teams s)) s in
      Normal (set_resultOverlay_display DisplayBlock s)
  end.

(** [if (resultTimer) clearTimeout(resultTimer); resultTimer = setTimeout(..., 10000)]. *)
Definition scheduleReset (now : Z) (s : State) : State :=
  let s := match resultTimer s with
           | Some h => clearTimeout h s
           | None => s
           end in
  setTimeout_resultTimer 10000 now s.

Definition lockAndShowResult (now : Z) (rand : nat -> N) (s : State)
  : Completion State :=
  let s := set_locked true s in
  let s := set_showingResult true s in
  let mode := getCurrentMode s in
  let activeKeys := Object_keys (touchesData s) in
  if (length activeKeys =? 0)%nat then Normal s else
  let c :=
    if String.eqb mode "choose" then lock_choose rand activeKeys s
    else if String.eqb mode "team" then lock_team rand activeKeys s
    else Normal s in
  match c with
  | Normal s => Normal (scheduleReset now s)
  | Throw s => Throw s
  end.

(** ** The animation-frame loop *)

Definition animate (data : TouchData.t) : TouchData.t :=
  if negb (TouchData.active data) then data else
  let data := TouchData.set_angle (S (TouchData.angle data)) data in
  TouchData.set_radius (RadiusPulse (TouchData.angle data)) data.

Definition animate_one (s : State) (id : Z) : State :=
  set_touchesData (obj_modify id animate (touchesData s)) s.

(** The condition that guards the call of the lock routine. *)
Definition inactive (now : Z) (s : State) : bool :=
  negb (locked s) && negb (showingResult s)
  && (now - lastTouchTime s >? INACTIVITY_TIMEOUT)%Z
  && (0 <? length (Object_keys (touchesData s)))%nat.

(** *** Drawing

    The canvas is written, never read; what a frame draws is the list of
    its drawing commands.  [Aim touchInfo] stands for the strokes of
    [drawAim(touchInfo)]: the circle and the crosshair at the position of
    the contact, turned by its angle, in its colour (a colour that does
    not parse leaves the stroke style as it was).  [Line t1 t2] stands for
    the stroke of [drawLineBetween(t1, t2)]: the segment between the two
    positions, shaded from the colour of [t1] to that of [t2]. *)
Inductive DrawCmd :=
| ClearRect
| Aim (touchInfo : TouchData.t)
| Line (t1 t2 : TouchData.t).

Definition drawAim (touchInfo : TouchData.t) : list DrawCmd := [Aim touchInfo].

(** [grad.addColorStop(offset, color)] throws a [SyntaxError] for a colour
    that does not parse.  The colours of the script are those of [COLORS],
    which parse, and [undefined], which does not.  The stops are added
    before anything is stroked. *)
Definition drawLineBetween (t1 t2 : TouchData.t) : Completion (list DrawCmd) :=
  match TouchData.color t1, TouchData.color t2 with
  | Some _, Some _ => Normal [Line t1 t2]
  | _, _ => Throw []
  end.

(** What [c] draws, then what [d] draws unless [c] has thrown. *)
Definition and_then (c d : Completion (list DrawCmd))
  : Completion (list DrawCmd) :=
  match c, d with
  | Throw a, _ => Throw a
  | Normal a, Normal b => Normal (a ++ b)%list
  | Normal a, Throw b => Throw (a ++ b)%list
  end.

(** A loop whose body draws: it ends at the first turn that throws. *)
Fixpoint draw_each {A} (body : A -> Completion (list DrawCmd)) (l : list A)
  : Completion (list DrawCmd) :=
  match l with
  | [] => Normal []
  | a :: rest => and_then (body a) (draw_each body rest)
  end.

(** [team.map((member) => touchesData[member.id]).filter((td) => td && td.active)]. *)
Definition teamTouches (s : State) (team : list Member) : list TouchData.t :=
  omap (fun member =>
          match obj_get (member_id member) (touchesData s) with
          | Some td => if TouchData.active td then Some td else None
          | None => None
          end) team.

(** The double loop over [i < j]. *)
Fixpoint linesAmong (teamTouches : list TouchData.t)
  : Completion (list DrawCmd) :=
  match teamTouches with
  | [] => Normal []
  | t1 :: rest =>
      and_then (draw_each (drawLineBetween t1) rest) (linesAmong rest)
  end.

Definition drawTeamLines (s : State) : Completion (list DrawCmd) :=
  draw_each (fun team => linesAmong (teamTouches s team)) (teams s).

(** [if (showingResult && mode === 'team') drawTeamLines();] *)
Definition drawResultLines (mode : string) (s : State)
  : Completion (list DrawCmd) :=
  if showingResult s && String.eqb mode "team" then drawTeamLines s
  else Normal [].

(** One run of [drawLoop], as to the state.  The aims are drawn while the
    contacts are animated and change no state; the lines of the teams
    change none either, but an exception thrown while they are drawn ends
    the frame.  The next frame is requested at the very end, so not after
    an exception. *)
Definition drawLoop (now : Z) (rand : nat -> N) (s : State)
  : Completion State :=
  let s := if (length (Object_keys (touchesData s)) =? 0)%nat
              && negb (showingResult s)
           then set_hintDiv_display DisplayBlock s else s in
  let mode := getCurrentMode s in
  let s := fold_left animate_one (Object_keys (touchesData s)) s in
  match drawResultLines mode s with
  | Throw _ => Throw s
  | Normal _ =>
      let c := if inactive now s then lockAndShowResult now rand s
               else Normal s in
      match c with
      | Normal s => Normal (set_frameRequested true s)
      | Throw s => Throw s
      end
  end.

(** ** The session as a transition system *)

Inductive Event :=
| touchstart (changedTouches : list Touch) (now : Z)
| touchmove (changedTouches : list Touch)
| touchend (changedTouches : list Touch) (now : Z)
| touchcancel (changedTouches : list Touch) (now : Z)
| animationFrame (now : Z) (rand : nat -> N)
| timeout (handle : positive) (now : Z)
| modeChange (radio : nat)
| countChange (parsed : Num).

(** The user checks radio [i]: it becomes the only checked one. *)
Definition checkRadio (i : nat) (radios : list Radio) : list Radio :=
  imap (fun j r => {| checked := Nat.eqb j i; value := value r |}) radios.

Definition step (e : Event) (s : State) : State :=
  match e with
  | touchstart ts now => handleTouchStart ts now s
  | touchmove ts => handleTouchMove ts s
  | touchend ts now | touchcancel ts now => handleTouchEnd ts now s
  | animationFrame now rand =>
      if frameRequested s
      then result_of (drawLoop now rand (set_frameRequested false s))
      else s
  | timeout h now =>
      match List.find (fun e => Pos.eqb (fst e) h) (timeouts s) with
      | Some (_, due) =>
          if (due <=? now)%Z
          then resetAll
                 (set_timeouts
                    (List.filter (fun e => negb (Pos.eqb (fst e) h)) (timeouts s)) s)
          else s
      | None => s
      end
  | modeChange i =>
      if (i <? length (modeRadios s))%nat
      then resetAll (set_modeRadios (checkRadio i (modeRadios s)) s)
      else s
  | countChange v => resetAll (set_countInput_value v s)
  end.

Definition run (evs : list Event) (s : State) : State :=
  fold_left (fun s e => step e s) evs s.

(** The state once the script has been loaded. *)
Definition initial (radios : list Radio) (count : Num) : State :=
  {| touchesData := [];
     lastTouchTime := 0;
     showingResult := false;
     locked := false;
     resultTimer := None;
     teams := [];
     hintDiv_display := DisplayUnset;
     resultOverlay_display := DisplayUnset;
     resultOverlay_innerHTML := EmptyString;
     modeRadios := radios;
     countInput_value := count;
     timeouts := [];
     nextHandle := 1;
     frameRequested := true |}.

Definition reachable (s : State) : Prop :=
  exists radios count evs, s = run evs (initial radios count).


(** * Vocabulary of the properties *)

Local Close Scope string_scope.

(** ** The loops over touches, on the registry alone

    Each handler loops over [ev.changedTouches] and touches no global but
    [touchesData]; these are the loop bodies as functions on the registry. *)

Definition start_reg (o : Obj TouchData.t) (t : Touch) : Obj TouchData.t :=
  if (length (Object_keys o) <? 10)%nat
  then obj_set (identifier t) (newTouchData t) o else o.

Definition move_reg (o : Obj TouchData.t) (t : Touch) : Obj TouchData.t :=
  match obj_get (identifier t) o with
  | Some _ =>
      obj_modify (identifier t) (TouchData.set_y (clientY t))
        (obj_modify (identifier t) (TouchData.set_x (clientX t)) o)
  | None => o
  end.

Definition end_reg (o : Obj TouchData.t) (t : Touch) : Obj TouchData.t :=
  match obj_get (identifier t) o with
  | Some _ => obj_delete (identifier t) o
  | None => o
  end.

Definition animate_reg (o : Obj TouchData.t) (id : Z) : Obj TouchData.t :=
  obj_modify id animate o.

Definition deactivate_reg (chosenKey : option Z) (o : Obj TouchData.t) (id : Z)
  : Obj TouchData.t :=
  if decide (Some id = chosenKey) then o
  else obj_modify id (TouchData.set_active false) o.

(** ** Well-formed registries *)

(** Every contact has its [active] flag set. *)
Definition all_active (o : Obj TouchData.t) : Prop :=
  Forall (fun e => TouchData.active (snd e) = true) o.

(** The number of fingers the script accepts. *)
Definition capacity : nat := 10.

(** Keys are distinct, as in any object, and the capacity is respected. *)
Record reg_ok (o : Obj TouchData.t) : Prop := {
  reg_keys : NoDup (List.map fst o);
  reg_size : length o <= capacity
}.

(** ** The result of a lock *)

(** [teams] holds the elements [dealt] so far, handed out in turn to [k]
    teams: team [t] lists the elements at positions [t], [t + k], ... *)
Record dealt_to (k : nat) (dealt : list Member) (teams : list (list Member))
  : Prop := {
  dealt_count : length teams = k;
  dealt_member : forall t team, teams !! t = Some team ->
                 forall q, team !! q = dealt !! (t + q * k);
  dealt_all : concat teams ≡ₚ dealt
}.

(** [touchesData[id].active = false]. *)
Definition deact : TouchData.t -> TouchData.t := TouchData.set_active false.

(** The entry [e] after the loop of the choose branch over the keys [ks]. *)
Definition deactivated (c : option Z) (ks : list Z) (e : Z * TouchData.t)
  : Z * TouchData.t :=
  if bool_decide (fst e ∈ ks /\ Some (fst e) <> c)
  then (fst e, deact (snd e)) else e.

(** The fields a lock may change, set all at once. *)
Definition show (o : Obj TouchData.t) (tm : list (list Member)) (html : string)
  (disp : Display) (s : State) : State :=
  set_resultOverlay_display disp
    (set_resultOverlay_innerHTML html (set_teams tm (set_touchesData o s))).

(** The first two assignments of the lock routine. *)
Definition lock_flags (s : State) : State :=
  set_showingResult true (set_locked true s).

(** What a run of the lock routine amounts to. *)
Inductive lock_outcome (now : Z) (s : State) : Completion State -> Prop :=
| lock_empty :
    touchesData s = [] -> lock_outcome now s (Normal (lock_flags s))
| lock_scheduled o tm html disp :
    List.map fst o = List.map fst (touchesData s) ->
    lock_outcome now s
      (Normal (scheduleReset now (show o tm html disp (lock_flags s))))
| lock_thrown o tm html disp :
    List.map fst o = List.map fst (touchesData s) ->
    lock_outcome now s (Throw (show o tm html disp (lock_flags s))).

(** The snapshot taken at lock: [Object.keys(touchesData)]. *)
Definition snapshot (s : State) : list Z := Object_keys (touchesData s).

(** The state [drawLoop] has reached when it tests for inactivity. *)
Definition frame_prelude (s : State) : State :=
  set_touchesData
    (fold_left animate_reg (Object_keys (touchesData s)) (touchesData s))
    (set_hintDiv_display
       (if (length (Object_keys (touchesData s)) =? 0)%nat
           && negb (showingResult s)
        then DisplayBlock else hintDiv_display s) s).

(** What [drawLoop] draws between the aims and that test. *)
Definition frame_lines (s : State) : Completion (list DrawCmd) :=
  drawResultLines (getCurrentMode s) (frame_prelude s).

(** The state the lock routine is run on by the frame loop. *)
Definition at_lock (s : State) : State :=
  frame_prelude (set_frameRequested false s).

(** ** The invariant of the session *)

(** The only task ever pending is the one [resultTimer] refers to. *)
Definition timer_ok (s : State) : Prop :=
  match resultTimer s with
  | None => timeouts s = []
  | Some h => exists due, timeouts s = [(h, due)]
  end.

(** What every run keeps: a well-formed registry; while the session is not
    locked, active contacts only and no reset timer. *)
Record Inv (s : State) : Prop := {
  inv_reg : reg_ok (touchesData s);
  inv_active : locked s = false -> all_active (touchesData s);
  inv_idle : locked s = false -> resultTimer s = None;
  inv_timer : timer_ok s
}.

(** After a reset nothing is pending, provided every pending task was the
    one of [resultTimer]. *)
Definition timers_owned (s : State) : Prop :=
  Forall (fun e => resultTimer s = Some (fst e)) (timeouts s).

(** ** Events and positions *)

(** [e'] is the entry [e] after touch move events for the touches [ts]:
    same key, same contact up to its position, and the very same entry
    when no touch of [ts] has its key. *)
Definition moved (ts : list Touch) (e e' : Z * TouchData.t) : Prop :=
  fst e' = fst e
  /\ (exists x' y',
         snd e' = TouchData.set_y y' (TouchData.set_x x' (snd e)))
  /\ (fst e ∉ List.map identifier ts -> e' = e).

(** The events that reset the session from outside. *)
Definition is_reset (e : Event) : bool :=
  match e with
  | modeChange _ | countChange _ => true
  | _ => false
  end.

(** ** Sample sessions *)

(** A touch of [ev.changedTouches]. *)
Definition touch (id x y : Z) : Touch :=
  {| identifier := id; clientX := x; clientY := y |}.

(** The mode radios of the page, in the state where the first is checked. *)
Definition page_radios : list Radio :=
  [ {| checked := true; value := "choose"%string |};
    {| checked := false; value := "team"%string |} ].

(** One finger down; the finger that lifts is another one. *)
Definition one_finger : State :=
  run [touchstart [touch 0 10 10] 1000] (initial page_radios (Int 2)).

(** Two fingers down, session open. *)
Definition two_fingers : State :=
  run [touchstart [touch 0 10 10; touch 1 20 20] 1000]
    (initial page_radios (Int 2)).

(** Ten fingers down. *)
Definition ten_touches : list Touch :=
  List.map (fun i => touch i (10 * i) (10 * i)) [0; 1; 2; 3; 4; 5; 6; 7; 8; 9]%Z.

(** A locked session: three fingers down, then five seconds of rest. *)
Definition locked_session : State :=
  run [ touchstart [touch 0 10 10; touch 1 20 20; touch 2 30 30] 1000;
        animationFrame 6001 (fun _ => 0%N) ]
    (initial page_radios (Int 2)).

(** Five fingers down in team mode, two teams asked for. *)
Definition five_fingers : list Event :=
  [ modeChange 1;
    touchstart [touch 2 10 10; touch 0 5 5] 100;
    touchstart [touch (-1) 7 7; touch 1 1 1; touch 5 5 5] 200 ].


(** An entropy source for the samples: bit patterns of values from 0.25
    up to 1. *)
Definition sample_rand (i : nat) : N :=
  (4598175219545276416
   + (N.of_nat i * 2111111111111111 + 3000000000000000) mod 9007199254740992)%N.

(** The page with the radio [team] checked and the count field emptied. *)
Definition nan_session (rand : nat -> N) : State :=
  run [ modeChange 1; countChange NaN;
        touchstart [touch 0 10 10] 1000;
        animationFrame 6001 rand ]
    (initial page_radios (Int 2)).


(** ** Vocabulary of the further properties *)

(** [e'] is the entry [e] after frames of animation: same key, position,
    colour and [active] flag, and the very same entry when it is not
    active. *)
Definition animated (e e' : Z * TouchData.t) : Prop :=
  fst e' = fst e
  /\ TouchData.x (snd e') = TouchData.x (snd e)
  /\ TouchData.y (snd e') = TouchData.y (snd e)
  /\ TouchData.color (snd e') = TouchData.color (snd e)
  /\ TouchData.active (snd e') = TouchData.active (snd e)
  /\ (TouchData.active (snd e) = false -> e' = e).

(** A result is shown exactly while the session is locked, and none is
    stored while it is not. *)
Record Inv_result (s : State) : Prop := {
  res_flags : showingResult s = locked s;
  res_teams : locked s = false -> teams s = [];
  res_text : locked s = false -> resultOverlay_innerHTML s = EmptyString;
  res_hidden : locked s = false -> resultOverlay_display s <> DisplayBlock
}.

(** ** What a frame draws *)

(** One turn of the loop of [drawLoop] over the registry, with what it
    draws: the aim of the contact, after its step of animation, when the
    contact is active. *)
Definition draw_one (acc : State * list DrawCmd) (id : Z)
  : State * list DrawCmd :=
  let s := fst acc in
  (animate_one s id,
   snd acc ++ match obj_get id (touchesData s) with
              | Some data =>
                  if TouchData.active data then drawAim (animate data) else []
              | None => []
              end).

(** What one run of [drawLoop] draws on the state [s]: the canvas is
    cleared, the aims are drawn, then the lines of the teams when a result
    is shown in team mode, as far as they are drawn.  The lock routine, run
    later in the frame, draws nothing. *)
Definition drawLoop_canvas (s : State) : list DrawCmd :=
  let mode := getCurrentMode s in
  let acc := fold_left draw_one (Object_keys (touchesData s)) (s, []) in
  ClearRect :: snd acc ++ result_of (drawResultLines mode (fst acc)).




(** What a locked session holds, by the mode it was locked in. *)
Record Inv_locked (s : State) : Prop := {
  lk_choose : locked s = true -> getCurrentMode s = "choose"%string ->
              length (List.filter (fun e => TouchData.active (snd e))
                        (touchesData s)) = 1;
  lk_others : locked s = true -> getCurrentMode s <> "choose"%string ->
              all_active (touchesData s);
  lk_teams : locked s = true -> getCurrentMode s = "team"%string ->
             forall k, countInput_value s = Int k ->
             List.map member_id (concat (teams s)) ≡ₚ snapshot s
}.

(** [e'] is the entry [e] after a lock: the same entry, or the same with
    its [active] flag cleared. *)
Definition lock_entry (e e' : Z * TouchData.t) : Prop :=
  e' = e \/ e' = (fst e, TouchData.set_active false (snd e)).

(** ** Values of [Math.random()] that give an index

    The bit pattern of [m / 2^53], for [m] from 0 up to 2^53. *)
Definition bits_of_fraction (m : Z) : N :=
  if (m =? 0)%Z then 0%N else
  let l := Z.log2 m in
  Z.to_N ((l + 970) * 2 ^ 52 + (m * 2 ^ (52 - l) - 2 ^ 52)).

(** The least multiple of 2^-53 that is [j / n] or more. *)
Definition draw_for (n j : nat) : N :=
  bits_of_fraction ((Z.of_nat j * 2 ^ 53 + Z.of_nat n - 1) / Z.of_nat n).

(** ** The index on the binary64 numbers of the kernel

    The expression [Math.floor(Math.random() * n)] once more, computed by
    the floating-point unit: the number with the bit pattern [bits], by
    its mantissa and exponent; the product; and its integer part, for a
    number from 0 up to 2^53. *)
Definition float_of_bits (bits : Z) : PrimFloat.float :=
  let x := from_bits bits in
  FloatOps.Z.ldexp (PrimFloat.of_uint63 (Uint63.of_Z (mant x))) (expo x).

Definition float_floor (x : PrimFloat.float) : Z :=
  let (m, e) := FloatOps.Z.frexp x in
  Z.shiftr (Uint63.to_Z (PrimFloat.normfr_mantissa m)) (53 - e).

Definition float_index (rand : nat -> N) (i n : nat) : Z :=
  float_floor
    (PrimFloat.mul (float_of_bits (Z.of_N (rand i mod ONE_BITS)))
       (PrimFloat.of_uint63 (Uint63.of_Z (Z.of_nat n)))).

(** The quotient [a / b] of two small integers, as the unit rounds it. *)
Definition float_quotient (a b : Z) : PrimFloat.float :=
  PrimFloat.div (PrimFloat.of_uint63 (Uint63.of_Z a))
    (PrimFloat.of_uint63 (Uint63.of_Z b)).

(** Bit patterns to compare the two on: values whose product with 7 and
    with 3 is rounded up to an integer, the least and the greatest values
    of the interval, and three pseudo-random series, one over all
    patterns, one just below 1.0 and one of multiples of 2^-53. *)
Fixpoint congruential (k : nat) (x : N) : list N :=
  match k with
  | O => []
  | S k =>
      x :: congruential k
             ((x * 6364136223846793005 + 1442695040888963407) mod 2 ^ 64)%N
  end.

Definition sample_draws : list N :=
  ([bits_of_fraction 5146971002709138; bits_of_fraction 6004799503160661;
    0; 1; 4503599627370495; 4503599627370496; ONE_BITS - 1; ONE_BITS - 2]
   ++ congruential 200 12345
   ++ List.map (fun x => ONE_BITS - 1 - x mod 4096) (congruential 60 99)
   ++ List.map (fun x => bits_of_fraction (Z.of_N (x mod 2 ^ 53)))
        (congruential 140 7))%N.


(** * Properties *)


(** ** Objects *)
Section ObjectFacts.
Context {V : Type}.
Implicit Types (o : Obj V) (k : Z).

Lemma insert_key_perm k (l : list Z) : insert_key k l ≡ₚ k :: l.
Proof.
  induction l as [|h t IH]; simpl; [done|].
  destruct (k <=? h)%Z; [done|].
  rewrite IH. apply Permutation_swap.
Qed.

Lemma sort_keys_perm (l : list Z) : sort_keys l ≡ₚ l.
Proof.
  induction l as [|h t IH]; simpl; [done|].
  by rewrite insert_key_perm, IH.
Qed.

Lemma filter_split_perm {A} (p : A -> bool) (l : list A) :
  List.filter p l ++ List.filter (fun a => negb (p a)) l ≡ₚ l.
Proof.
  induction l as [|a l IH]; simpl; [done|].
  destruct (p a); simpl.
  - by rewrite IH.
  - by rewrite <- Permutation_middle, IH.
Qed.

Lemma Object_keys_perm o : Object_keys o ≡ₚ List.map fst o.
Proof.
  unfold Object_keys. rewrite sort_keys_perm. apply filter_split_perm.
Qed.

Lemma Object_keys_length o : length (Object_keys o) = length o.
Proof. by rewrite Object_keys_perm, length_map. Qed.

Lemma Object_keys_nil : Object_keys (@nil (Z * V)) = [].
Proof. reflexivity. Qed.

Lemma Object_keys_NoDup o :
  NoDup (List.map fst o) -> NoDup (Object_keys o).
Proof. intros H. by rewrite Object_keys_perm. Qed.

Lemma Object_keys_elem k o : k ∈ Object_keys o <-> k ∈ List.map fst o.
Proof. by rewrite Object_keys_perm. Qed.

Lemma obj_modify_keys k f o : List.map fst (obj_modify k f o) = List.map fst o.
Proof.
  unfold obj_modify. rewrite List.map_map. apply List.map_ext.
  intros e. by destruct (fst e =? k)%Z.
Qed.

Lemma obj_modify_length k f o : length (obj_modify k f o) = length o.
Proof. apply length_map. Qed.

Lemma Object_keys_modify k f o : Object_keys (obj_modify k f o) = Object_keys o.
Proof. unfold Object_keys. by rewrite obj_modify_keys. Qed.

Lemma obj_get_None k o : obj_get k o = None <-> k ∉ List.map fst o.
Proof.
  unfold obj_get. induction o as [|e o IH]; simpl.
  - split; [intros _; apply not_elem_of_nil | done].
  - rewrite not_elem_of_cons.
    destruct (Z.eqb_spec (fst e) k) as [->|Hne]; simpl.
    + split; [done | intros [? _]; done].
    + rewrite IH. split; [intros ?; split; congruence | tauto].
Qed.

Lemma obj_get_Some k o v :
  obj_get k o = Some v -> (k, v) ∈ o.
Proof.
  unfold obj_get. induction o as [|[k' v'] o IH]; simpl; [done|].
  destruct (Z.eqb_spec k' k) as [->|Hne]; simpl.
  - intros [= ->]. left.
  - intros H. right. auto.
Qed.

Lemma obj_get_elem k o v :
  NoDup (List.map fst o) -> (k, v) ∈ o -> obj_get k o = Some v.
Proof.
  unfold obj_get. induction o as [|[k' v'] o IH]; simpl.
  - intros _ H. by apply elem_of_nil in H.
  - rewrite NoDup_cons. intros [Hk' Hnd] Hin.
    apply elem_of_cons in Hin as [[= <- <-]|Hin].
    + by rewrite Z.eqb_refl.
    + destruct (Z.eqb_spec k' k) as [->|Hne]; simpl; [|auto].
      exfalso. apply Hk'. apply (list_elem_of_fmap_2 fst) in Hin. done.
Qed.

Lemma obj_set_keys_present k v o :
  k ∈ List.map fst o -> List.map fst (obj_set k v o) = List.map fst o.
Proof.
  induction o as [|e o IH]; simpl.
  - intros H. by apply elem_of_nil in H.
  - intros H. destruct (Z.eqb_spec (fst e) k) as [->|Hne]; simpl; [done|].
    apply elem_of_cons in H as [->|H]; [done|]. by rewrite IH.
Qed.

Lemma obj_set_keys_absent k v o :
  k ∉ List.map fst o -> List.map fst (obj_set k v o) = List.map fst o ++ [k].
Proof.
  induction o as [|e o IH]; simpl; [done|].
  rewrite not_elem_of_cons. intros [Hne H].
  destruct (Z.eqb_spec (fst e) k) as [Heq|_]; simpl; [congruence|]. by rewrite IH.
Qed.

Lemma obj_set_NoDup k v o :
  NoDup (List.map fst o) -> NoDup (List.map fst (obj_set k v o)).
Proof.
  intros Hnd. destruct (decide (k ∈ List.map fst o)) as [Hin|Hout].
  - by rewrite obj_set_keys_present.
  - rewrite obj_set_keys_absent by done.
    apply NoDup_app. split_and!; [done| |apply NoDup_singleton].
    intros z Hz Hz'. apply list_elem_of_singleton in Hz'. by subst.
Qed.

Lemma obj_set_length k v o : length (obj_set k v o) <= S (length o).
Proof.
  induction o as [|e o IH]; simpl; [lia|].
  destruct (fst e =? k)%Z; simpl; lia.
Qed.

Lemma obj_set_elem k v o e :
  e ∈ obj_set k v o -> e = (k, v) \/ e ∈ o.
Proof.
  induction o as [|e' o IH]; simpl.
  - intros H. apply list_elem_of_singleton in H. by left.
  - destruct (fst e' =? k)%Z.
    + intros H. apply elem_of_cons in H as [->|H]; [by left|].
      right. by right.
    + intros H. apply elem_of_cons in H as [->|H]; [right; left|].
      destruct (IH H) as [->|?]; [by left|right; by right].
Qed.

Lemma obj_delete_NoDup k o :
  NoDup (List.map fst o) -> NoDup (List.map fst (obj_delete k o)).
Proof.
  unfold obj_delete. induction o as [|e o IH]; simpl; [done|].
  rewrite NoDup_cons. intros [Hin Hnd].
  destruct (negb (fst e =? k)%Z); simpl; [|auto].
  apply NoDup_cons. split; [|auto].
  intros H. apply Hin. apply list_elem_of_fmap in H as (e' & -> & He').
  apply list_elem_of_In, List.filter_In in He' as [He' _].
  apply list_elem_of_In in He'. by apply (list_elem_of_fmap_2 fst).
Qed.

Lemma obj_delete_length k o : length (obj_delete k o) <= length o.
Proof.
  unfold obj_delete. induction o as [|e o IH]; simpl; [lia|].
  destruct (negb (fst e =? k)%Z); simpl; lia.
Qed.

Lemma obj_delete_elem k o e : e ∈ obj_delete k o -> e ∈ o.
Proof.
  unfold obj_delete. rewrite !list_elem_of_In, List.filter_In. tauto.
Qed.

Lemma obj_delete_absent k o : k ∉ List.map fst o -> obj_delete k o = o.
Proof.
  unfold obj_delete. induction o as [|e o IH]; simpl; [done|].
  rewrite not_elem_of_cons. intros [Hne H].
  destruct (Z.eqb_spec (fst e) k) as [Heq|_]; simpl; [congruence|]. by rewrite IH.
Qed.
End ObjectFacts.

(** ** The loops over touches, seen on the registry alone *)

Lemma set_touchesData_same s : set_touchesData (touchesData s) s = s.
Proof. by destruct s. Qed.

Lemma fold_touches {A} (f : State -> A -> State)
  (g : Obj TouchData.t -> A -> Obj TouchData.t) :
  (forall s a, f s a = set_touchesData (g (touchesData s) a) s) ->
  forall l s, fold_left f l s = set_touchesData (fold_left g l (touchesData s)) s.
Proof.
  intros Hfg l. induction l as [|a l IH]; intros s; simpl.
  - by rewrite set_touchesData_same.
  - rewrite IH, Hfg. by destruct s.
Qed.

Lemma touchStart_fold ts s :
  fold_left touchStart_one ts s
  = set_touchesData (fold_left start_reg ts (touchesData s)) s.
Proof.
  apply fold_touches. intros s' t. unfold touchStart_one, start_reg.
  destruct (_ <? _)%nat; [done | by rewrite set_touchesData_same].
Qed.

Lemma touchMove_fold ts s :
  fold_left touchMove_one ts s
  = set_touchesData (fold_left move_reg ts (touchesData s)) s.
Proof.
  apply fold_touches. intros s' t. unfold touchMove_one, move_reg.
  destruct (obj_get _ _); [by destruct s' | by rewrite set_touchesData_same].
Qed.

Lemma touchEnd_fold ts s :
  fold_left touchEnd_one ts s
  = set_touchesData (fold_left end_reg ts (touchesData s)) s.
Proof.
  apply fold_touches. intros s' t. unfold touchEnd_one, end_reg.
  destruct (obj_get _ _); [done | by rewrite set_touchesData_same].
Qed.

Lemma animate_fold ks s :
  fold_left animate_one ks s
  = set_touchesData (fold_left animate_reg ks (touchesData s)) s.
Proof. by apply fold_touches. Qed.

Lemma deactivate_fold c ks s :
  fold_left (deactivate_others c) ks s
  = set_touchesData (fold_left (deactivate_reg c) ks (touchesData s)) s.
Proof.
  apply fold_touches. intros s' id. unfold deactivate_others, deactivate_reg.
  case_decide; [by rewrite set_touchesData_same | done].
Qed.

(** *** What the loops keep: distinct keys, the capacity, the active flags *)

Lemma obj_modify_all_active k f o :
  (forall d, TouchData.active (f d) = TouchData.active d) ->
  all_active o -> all_active (obj_modify k f o).
Proof.
  intros Hf. unfold all_active, obj_modify. rewrite List.Forall_map.
  intros Ha. eapply Forall_impl; [exact Ha|]. intros e He. simpl.
  destruct (fst e =? k)%Z; simpl; [by rewrite Hf | done].
Qed.

Lemma obj_modify_ok k f o : reg_ok o -> reg_ok (obj_modify k f o).
Proof.
  intros [Hk Hs]. split; [by rewrite obj_modify_keys | by rewrite obj_modify_length].
Qed.

Lemma start_reg_ok o t : reg_ok o -> reg_ok (start_reg o t).
Proof.
  intros [Hk Hs]. unfold start_reg. rewrite Object_keys_length.
  destruct (Nat.ltb_spec (length o) 10); [|done].
  split; [by apply obj_set_NoDup|].
  pose proof (obj_set_length (identifier t) (newTouchData t) o).
  unfold capacity. lia.
Qed.

Lemma start_reg_active o t : all_active o -> all_active (start_reg o t).
Proof.
  unfold start_reg, all_active. intros Ha.
  destruct (_ <? _)%nat; [|done].
  apply Forall_forall. intros e He.
  apply obj_set_elem in He as [->|He]; [done|].
  by eapply Forall_forall in Ha.
Qed.

Lemma move_reg_keys o t : List.map fst (move_reg o t) = List.map fst o.
Proof.
  unfold move_reg. destruct (obj_get _ _); [|done].
  by rewrite !obj_modify_keys.
Qed.

Lemma move_reg_ok o t : reg_ok o -> reg_ok (move_reg o t).
Proof.
  unfold move_reg. destruct (obj_get _ _); [|done].
  intros H. by do 2 apply obj_modify_ok.
Qed.

Lemma move_reg_active o t : all_active o -> all_active (move_reg o t).
Proof.
  unfold move_reg. destruct (obj_get _ _); [|done].
  intros H. by do 2 (apply obj_modify_all_active; [done|]).
Qed.

Lemma end_reg_ok o t : reg_ok o -> reg_ok (end_reg o t).
Proof.
  unfold end_reg. destruct (obj_get _ _); [|done].
  intros [Hk Hs]. split; [by apply obj_delete_NoDup|].
  pose proof (obj_delete_length (identifier t) o). lia.
Qed.

Lemma end_reg_active o t : all_active o -> all_active (end_reg o t).
Proof.
  unfold end_reg, all_active. destruct (obj_get _ _); [|done].
  intros Ha. apply Forall_forall. intros e He.
  apply obj_delete_elem in He. by eapply Forall_forall in Ha.
Qed.

Lemma animate_active d : TouchData.active (animate d) = TouchData.active d.
Proof. unfold animate. by destruct (TouchData.active d) eqn:E. Qed.

Lemma fold_reg_invariant {A} (P : Obj TouchData.t -> Prop)
  (g : Obj TouchData.t -> A -> Obj TouchData.t) :
  (forall o a, P o -> P (g o a)) ->
  forall l o, P o -> P (fold_left g l o).
Proof.
  intros Hg l. induction l as [|a l IH]; simpl; auto.
Qed.

Lemma fold_reg_keys {A} (g : Obj TouchData.t -> A -> Obj TouchData.t) :
  (forall o a, List.map fst (g o a) = List.map fst o) ->
  forall l o, List.map fst (fold_left g l o) = List.map fst o.
Proof.
  intros Hg l. induction l as [|a l IH]; intros o; simpl; [done|].
  by rewrite IH, Hg.
Qed.

Lemma map_fst_length {A B} (l l' : list (A * B)) :
  List.map fst l = List.map fst l' -> length l = length l'.
Proof. intros H. by rewrite <- (length_map fst l), H, length_map. Qed.

Lemma animate_fold_keys ks o :
  List.map fst (fold_left animate_reg ks o) = List.map fst o.
Proof. apply fold_reg_keys. intros. apply obj_modify_keys. Qed.

Lemma deactivate_fold_keys c ks o :
  List.map fst (fold_left (deactivate_reg c) ks o) = List.map fst o.
Proof.
  apply fold_reg_keys. intros o' id. unfold deactivate_reg.
  case_decide; [done | apply obj_modify_keys].
Qed.

Lemma reg_ok_keys o o' :
  List.map fst o' = List.map fst o -> reg_ok o -> reg_ok o'.
Proof.
  intros Hk [Hn Hs]. split; [by rewrite Hk|].
  by rewrite (map_fst_length _ _ Hk).
Qed.

(** ** Randomness and the shuffle *)

Lemma from_bits_bounds bits :
  (0 <= bits < Z.of_N ONE_BITS)%Z ->
  (0 <= mant (from_bits bits) < 2 ^ 53)%Z /\ (expo (from_bits bits) <= -53)%Z.
Proof.
  intros Hb. unfold from_bits.
  assert (He : (0 <= bits / 2 ^ 52 < 1023)%Z).
  { split; [apply Z.div_pos; lia|].
    apply Z.div_lt_upper_bound; [lia|].
    change (Z.of_N ONE_BITS) with (2 ^ 52 * 1023)%Z in Hb. lia. }
  pose proof (Z.mod_pos_bound bits (2 ^ 52) ltac:(lia)) as Hf.
  destruct (Z.eqb_spec (bits / 2 ^ 52) 0); cbn [mant expo]; lia.
Qed.

Lemma Math_random_bounds rand i :
  (0 <= mant (Math_random rand i) < 2 ^ 53)%Z
  /\ (expo (Math_random rand i) <= -53)%Z.
Proof.
  apply from_bits_bounds. split; [apply N2Z.is_nonneg|].
  apply N2Z.inj_lt. by apply N.mod_upper_bound.
Qed.

Lemma Math_floor_div (x : Float64) :
  (expo x <= 0)%Z -> Math_floor x = (mant x / 2 ^ (- expo x))%Z.
Proof. intros He. unfold Math_floor. apply Z.shiftr_div_pow2. lia. Qed.

(** What [round53] returns when it rounds: with [k] bits dropped, the
    new mantissa is within half a unit of the old, scaled. *)
Lemma round53_cases (m e : Z) :
  let x := {| mant := m; expo := e |} in
  let k := (Z.log2 m - 52)%Z in
  (k <= 0)%Z /\ round53 x = x
  \/ (0 < k)%Z /\ expo (round53 x) = (e + k)%Z
     /\ (2 ^ (52 + k) <= m < 2 ^ (53 + k))%Z
     /\ (m - 2 ^ (k - 1) <= mant (round53 x) * 2 ^ k <= m + 2 ^ (k - 1))%Z.
Proof.
  intros x k. unfold round53, x. cbn [mant expo]. fold k.
  destruct (Z.leb_spec k 0) as [Hk|Hk]; [by left|]. right.
  cbn [mant expo]. split; [done|]. split; [done|].
  assert (Hm : (0 < m)%Z).
  { destruct (Z.lt_ge_cases 0 m) as [|Hle]; [done|].
    pose proof (Z.log2_nonpos m Hle). lia. }
  pose proof (Z.log2_spec m Hm) as Hlog.
  replace (Z.log2 m) with (52 + k)%Z in Hlog by lia.
  replace (Z.succ (52 + k)) with (53 + k)%Z in Hlog by lia.
  split; [done|].
  assert (Hpow : (2 ^ k = 2 * 2 ^ (k - 1))%Z).
  { rewrite <- Z.pow_succ_r by lia. f_equal. lia. }
  assert (Hh : (0 < 2 ^ (k - 1))%Z) by (apply Z.pow_pos_nonneg; lia).
  pose proof (Z.div_mod m (2 ^ k) ltac:(lia)) as Hdm.
  pose proof (Z.mod_pos_bound m (2 ^ k) ltac:(lia)) as Hr.
  set (q := (m / 2 ^ k)%Z) in *. set (r := (m mod 2 ^ k)%Z) in *.
  set (h := (2 ^ (k - 1))%Z) in *.
  destruct (Z.ltb_spec h r); cbn [orb].
  - nia.
  - destruct (Z.eqb_spec r h); cbn [andb]; [destruct (Z.odd q)|]; nia.
Qed.

(** [round53] rounds to nearest, ties to even, and to 53 bits. *)
Lemma round53_nearest_even (m e : Z) :
  let x := {| mant := m; expo := e |} in
  let k := (Z.log2 m - 52)%Z in
  let m' := mant (round53 x) in
  (0 < k)%Z ->
  (2 ^ 52 <= m' <= 2 ^ 53)%Z
  /\ (Z.abs (m' * 2 ^ k - m) <= 2 ^ (k - 1))%Z
  /\ (Z.abs (m' * 2 ^ k - m) = 2 ^ (k - 1) -> Z.even m' = true)%Z.
Proof.
  intros x k m' Hk. subst m'. unfold round53, x. cbn [mant expo]. fold k.
  destruct (Z.leb_spec k 0) as [|_]; [lia|]. cbn [mant].
  assert (Hm : (0 < m)%Z).
  { destruct (Z.lt_ge_cases 0 m) as [|Hle]; [done|].
    pose proof (Z.log2_nonpos m Hle). lia. }
  pose proof (Z.log2_spec m Hm) as Hlog.
  replace (Z.log2 m) with (52 + k)%Z in Hlog by lia.
  replace (Z.succ (52 + k)) with (53 + k)%Z in Hlog by lia.
  assert (Hpow : (2 ^ k = 2 * 2 ^ (k - 1))%Z).
  { rewrite <- Z.pow_succ_r by lia. f_equal. lia. }
  assert (Hh : (0 < 2 ^ (k - 1))%Z) by (apply Z.pow_pos_nonneg; lia).
  assert (H52 : (2 ^ (52 + k) = 2 ^ 52 * 2 ^ k)%Z) by (apply Z.pow_add_r; lia).
  assert (H53 : (2 ^ (53 + k) = 2 ^ 53 * 2 ^ k)%Z) by (apply Z.pow_add_r; lia).
  pose proof (Z.div_mod m (2 ^ k) ltac:(lia)) as Hdm.
  pose proof (Z.mod_pos_bound m (2 ^ k) ltac:(lia)) as Hr.
  set (q := (m / 2 ^ k)%Z) in *. set (r := (m mod 2 ^ k)%Z) in *.
  set (h := (2 ^ (k - 1))%Z) in *.
  assert (Hq : (2 ^ 52 <= q < 2 ^ 53)%Z) by nia.
  destruct (Z.ltb_spec h r); cbn [orb].
  - split; [lia|]. split; [nia | intros; nia].
  - destruct (Z.eqb_spec r h); cbn [andb].
    + destruct (Z.odd q) eqn:Ho.
      * split; [lia|]. split; [nia|]. intros _.
        rewrite Z.even_add, <- Z.negb_odd, Ho. done.
      * split; [lia|]. split; [nia|]. intros _.
        by rewrite <- Z.negb_odd, Ho.
    + split; [lia|]. split; [nia | intros; nia].
Qed.

Lemma random_index_range rand i n :
  0 < n -> (Z.of_nat n <= 2 ^ 53)%Z ->
  (0 <= random_index rand i n < Z.of_nat n)%Z.
Proof.
  intros Hn Hbound. unfold random_index, times.
  destruct (Math_random_bounds rand i) as [HM He].
  set (M := mant (Math_random rand i)) in *.
  set (e := expo (Math_random rand i)) in *.
  assert (HP : (2 ^ 53 <= 2 ^ (- e))%Z) by (apply Z.pow_le_mono_r; lia).
  assert (HP0 : (0 < 2 ^ (- e))%Z) by (apply Z.pow_pos_nonneg; lia).
  destruct (round53_cases (M * Z.of_nat n) e) as [[_ ->]|(Hk & Hexp & Hlog & Hnear)].
  - rewrite Math_floor_div by (cbn [expo]; lia). cbn [mant expo].
    split; [apply Z.div_pos; [nia | lia]|].
    apply Z.div_lt_upper_bound; [lia | nia].
  - set (k := (Z.log2 (M * Z.of_nat n) - 52)%Z) in *.
    set (m' := mant (round53 {| mant := M * Z.of_nat n; expo := e |})) in *.
    assert (Hh : (0 < 2 ^ (k - 1))%Z) by (apply Z.pow_pos_nonneg; lia).
    assert (H52 : (2 ^ (52 + k) = 2 ^ 53 * 2 ^ (k - 1))%Z).
    { rewrite <- Z.pow_add_r by lia. f_equal. lia. }
    assert (Hpow : (2 ^ k = 2 * 2 ^ (k - 1))%Z).
    { rewrite <- Z.pow_succ_r by lia. f_equal. lia. }
    assert (Hk1 : (2 ^ (k - 1) < Z.of_nat n)%Z) by nia.
    assert (Hk53 : (k <= 53)%Z).
    { destruct (Z.le_gt_cases k 53) as [|Hgt]; [done|].
      assert (2 ^ 53 <= 2 ^ (k - 1))%Z by (apply Z.pow_le_mono_r; lia). lia. }
    assert (Hsplit : (2 ^ (- e) = 2 ^ (- (e + k)) * 2 ^ k)%Z).
    { rewrite <- Z.pow_add_r by lia. f_equal. lia. }
    assert (Hpe : (0 < 2 ^ (- (e + k)))%Z) by (apply Z.pow_pos_nonneg; lia).
    rewrite Math_floor_div by lia. fold m'. rewrite Hexp.
    assert (Hm0 : (0 <= m')%Z) by nia.
    split; [apply Z.div_pos; lia|].
    apply Z.div_lt_upper_bound; [lia|].
    apply (Z.mul_lt_mono_pos_r (2 ^ k)); [lia|].
    nia.
Qed.

(** [from_bits] reads bit patterns as the format lays them out: those of
    0, 1/10, 1/3, 1/2, 2/3 and 1. *)
Lemma from_bits_float :
  float_of_bits 0 = float_quotient 0 1
  /\ float_of_bits 4591870180066957722 = float_quotient 1 10
  /\ float_of_bits 4599676419421066581 = float_quotient 1 3
  /\ float_of_bits 4602678819172646912 = float_quotient 1 2
  /\ float_of_bits 4604180019048437077 = float_quotient 2 3
  /\ float_of_bits (Z.of_N ONE_BITS) = float_quotient 1 1.
Proof. repeat split; vm_compute; reflexivity. Qed.

(** On the sample values the index of the embedding is the one the
    floating-point unit computes, for every length up to the capacity. *)
Lemma random_index_float_index :
  forallb (fun bits =>
    forallb (fun n =>
      (random_index (fun _ => bits) 0 n =? float_index (fun _ => bits) 0 n)%Z)
      (seq 1 capacity)) sample_draws = true.
Proof. vm_compute. reflexivity. Qed.

Lemma at_index_in_range {A} (arr : list A) (j : Z) :
  (0 <= j < Z.of_nat (length arr))%Z -> is_Some (at_index arr j).
Proof.
  intros Hj. unfold at_index.
  destruct (Z.ltb_spec j 0); [lia|]. apply lookup_lt_is_Some. lia.
Qed.

Lemma at_index_Some {A} (arr : list A) (j : Z) a :
  at_index arr j = Some a -> arr !! Z.to_nat j = Some a.
Proof. unfold at_index. by destruct (j <? 0)%Z. Qed.

(** The indices the shuffle swaps lie inside the array. *)
Lemma swap_in_range {A} rand call i (arr : list A) :
  i < length arr -> (Z.of_nat (length arr) <= 2 ^ 53)%Z ->
  is_Some (arr !! i) /\ is_Some (at_index arr (random_index rand call (i + 1))).
Proof.
  intros Hi Hb. split; [by apply lookup_lt_is_Some|].
  apply at_index_in_range.
  pose proof (random_index_range rand call (i + 1)). lia.
Qed.

Lemma swap_defined {A} rand call i (arr : list A) :
  i < length arr -> (Z.of_nat (length arr) <= 2 ^ 53)%Z ->
  let j := random_index rand call (i + 1) in
  exists ai aj,
    arr !! i = Some ai /\ at_index arr j = Some aj
    /\ swap i j arr = <[Z.to_nat j := ai]> (<[i := aj]> arr).
Proof.
  intros Hi Hb j.
  destruct (swap_in_range rand call i arr Hi Hb) as [[ai Hai] [aj Haj]].
  exists ai, aj. fold j in Haj. unfold swap. by rewrite Hai, Haj.
Qed.

Lemma swap_length {A} i j (arr : list A) : length (swap i j arr) = length arr.
Proof.
  unfold swap. destruct (arr !! i); [|done]. destruct (at_index arr j); [|done].
  by rewrite !length_insert.
Qed.

Lemma insert_perm {A} (l : list A) i a b :
  l !! i = Some a -> <[i:=b]> l ≡ₚ b :: delete i l.
Proof.
  revert i. induction l as [|c l IH]; intros [|i]; simpl; try done.
  intros H. rewrite (IH _ H). apply Permutation_swap.
Qed.

Lemma swap_perm {A} i j (arr : list A) : swap i j arr ≡ₚ arr.
Proof.
  unfold swap. destruct (arr !! i) as [ai|] eqn:Hi; [|done].
  destruct (at_index arr j) as [aj|] eqn:Hj; [|done].
  apply at_index_Some in Hj. set (j' := Z.to_nat j) in *.
  assert (Hj' : <[i:=aj]> arr !! j' = Some aj).
  { destruct (decide (i = j')) as [<-|Hne].
    - apply list_lookup_insert_eq. by eapply lookup_lt_Some.
    - by rewrite list_lookup_insert_ne. }
  etrans; [apply (insert_perm _ _ _ ai Hj')|].
  etrans; [|symmetry; apply (delete_Permutation arr i ai Hi)].
  apply Permutation_skip, (inj (cons aj)).
  etrans; [symmetry; apply (delete_Permutation _ _ _ Hj')|].
  by apply insert_perm with ai.
Qed.

Lemma shuffle_from_perm {A} rand call i (arr : list A) :
  shuffle_from rand call i arr ≡ₚ arr.
Proof.
  revert call arr. induction i as [|i IH]; intros call arr; simpl; [done|].
  by rewrite IH, swap_perm.
Qed.

Lemma shuffle_perm {A} rand (arr : list A) : shuffle rand arr ≡ₚ arr.
Proof. apply shuffle_from_perm. Qed.

Lemma shuffle_length {A} rand (arr : list A) :
  length (shuffle rand arr) = length arr.
Proof. by rewrite shuffle_perm. Qed.

(** ** Dealing the shuffled array to the teams *)

Lemma concat_replicate_nil {A} n : concat (replicate n (@nil A)) = [].
Proof. induction n; simpl; done. Qed.

Lemma dealt_to_empty k : dealt_to k [] (replicate k []).
Proof.
  split.
  - apply length_replicate.
  - intros t team Ht q. apply lookup_replicate in Ht as [-> _].
    by rewrite !lookup_nil.
  - by rewrite concat_replicate_nil.
Qed.

Lemma concat_insert_snoc {A} (ls : list (list A)) t l x :
  ls !! t = Some l -> concat (<[t := l ++ [x]]> ls) ≡ₚ x :: concat ls.
Proof.
  revert t. induction ls as [|l0 ls IH]; intros [|t]; simpl; try done.
  - intros [= ->]. rewrite <- app_assoc. simpl.
    by rewrite <- Permutation_middle.
  - intros H. rewrite (IH _ H). by rewrite <- Permutation_middle.
Qed.

(** The length of a team is fixed by the positions it lists. *)
Lemma dealt_team_length k (dealt team : list Member) t :
  (forall q, team !! q = dealt !! (t + q * k)) ->
  length dealt <= t + length team * k
  /\ (length team = 0 \/ t + (length team - 1) * k < length dealt).
Proof.
  intros Hq. split.
  - apply lookup_ge_None. rewrite <- Hq. by apply lookup_ge_None.
  - destruct (length team) as [|n] eqn:Hlen; [by left|right].
    apply lookup_lt_is_Some. rewrite <- Hq. apply lookup_lt_is_Some.
    simpl. lia.
Qed.

Lemma dealt_to_step k dealt teams x :
  0 < k -> dealt_to k dealt teams ->
  exists team, teams !! (length dealt mod k) = Some team
    /\ dealt_to k (dealt ++ [x])
         (<[length dealt mod k := team ++ [x]]> teams).
Proof.
  intros Hk [Hcount Hmem Hall].
  set (m := length dealt). set (t0 := m mod k).
  assert (Ht0 : t0 < k) by (apply Nat.mod_upper_bound; lia).
  destruct (lookup_lt_is_Some_2 teams t0) as [team Hteam]; [lia|].
  exists team. split; [done|].
  pose proof (Hmem _ _ Hteam) as Hq.
  pose proof (dealt_team_length _ _ _ _ Hq) as [Hlo Hhi].
  pose proof (Nat.div_mod_eq m k) as Hdm. fold t0 in Hdm. fold m in Hlo, Hhi.
  assert (HL : t0 + length team * k = m).
  { set (d := m / k) in *. destruct Hhi as [H0|H1].
    - rewrite H0 in *. lia.
    - destruct (length team) as [|n]; [lia|].
      replace (S n - 1) with n in H1 by lia.
      assert (n < d) by nia. assert (d <= S n) by nia.
      replace d with (S n) in Hdm by lia. lia. }
  split.
  - by rewrite length_insert.
  - intros t team' Ht q.
    destruct (decide (t = t0)) as [->|Hne].
    + rewrite list_lookup_insert_eq in Ht by lia. injection Ht as <-.
      destruct (Nat.lt_trichotomy q (length team)) as [Hlt|[->|Hgt]].
      * rewrite lookup_app_l by done. rewrite Hq.
        symmetry. apply lookup_app_l. fold m. nia.
      * rewrite HL. subst m. by rewrite !list_lookup_middle.
      * rewrite !lookup_ge_None_2; [done| |];
          rewrite length_app; simpl; fold m; nia.
    + rewrite list_lookup_insert_ne in Ht by done.
      assert (Htk : t < k) by (rewrite <- Hcount; by eapply lookup_lt_Some).
      rewrite (Hmem _ _ Ht).
      destruct (Nat.lt_trichotomy (t + q * k) m) as [Hlt|[Heq|Hgt]].
      * by rewrite lookup_app_l.
      * exfalso. apply Hne. subst t0. rewrite <- Heq.
        rewrite Nat.Div0.mod_add. symmetry. by apply Nat.mod_small.
      * rewrite !lookup_ge_None_2; [done| |];
          rewrite ?length_app; simpl; fold m; lia.
  - rewrite (concat_insert_snoc _ _ _ _ Hteam), Hall.
    by rewrite <- Permutation_cons_append.
Qed.

Lemma next_index (m k : nat) :
  0 < k ->
  num_rem (num_succ (Int (Z.of_nat (m mod k)))) (Int (Z.of_nat k))
  = Int (Z.of_nat ((m + 1) mod k)).
Proof.
  intros Hk. simpl.
  destruct (Z.eqb_spec (Z.of_nat k) 0); [lia|]. f_equal.
  rewrite Z.rem_mod_nonneg by lia.
  replace (Z.of_nat (m mod k) + 1)%Z with (Z.of_nat (m mod k + 1)) by lia.
  rewrite <- Nat2Z.inj_mod. f_equal.
  by rewrite Nat.Div0.add_mod_idemp_l.
Qed.

Lemma distribute_dealt k rest :
  0 < k -> forall dealt teams,
  dealt_to k dealt teams ->
  exists teams',
    distribute (Int (Z.of_nat k)) rest teams (Int (Z.of_nat (length dealt mod k)))
    = Normal teams'
    /\ dealt_to k (dealt ++ rest) teams'.
Proof.
  intros Hk. induction rest as [|x rest IH]; intros dealt teams Hd.
  - exists teams. by rewrite app_nil_r.
  - destruct (dealt_to_step _ _ _ x Hk Hd) as (team & Hteam & Hd').
    destruct (IH _ _ Hd') as (teams' & Heq & Hfin).
    exists teams'. split.
    + cbn [distribute team_at]. unfold at_index.
      destruct (Z.ltb_spec (Z.of_nat (length dealt mod k)) 0); [lia|].
      rewrite Nat2Z.id, Hteam, next_index by done.
      rewrite length_app in Heq. exact Heq.
    + by rewrite <- app_assoc in Hfin.
Qed.

(** The teams as a function of their number and the shuffled array. *)
Lemma distribute_spec k touchArray :
  0 < k ->
  exists teams',
    distribute (Int (Z.of_nat k)) touchArray (emptyTeams (Int (Z.of_nat k))) (Int 0)
    = Normal teams'
    /\ dealt_to k touchArray teams'.
Proof.
  intros Hk.
  destruct (distribute_dealt k touchArray Hk [] _ (dealt_to_empty k))
    as (teams' & Heq & Hd).
  exists teams'. split; [|done].
  simpl in Heq. rewrite Nat.Div0.mod_0_l in Heq. simpl emptyTeams.
  by rewrite Nat2Z.id.
Qed.

Section Dealt.
Context (k : nat) (arr : list Member) (teams : list (list Member)).
Hypothesis Hk : 0 < k.
Hypothesis Hd : dealt_to k arr teams.

Lemma dealt_position p m :
  arr !! p = Some m ->
  exists team, teams !! (p mod k) = Some team /\ team !! (p / k) = Some m.
Proof.
  intros Hp. destruct Hd as [Hcount Hmem _].
  destruct (lookup_lt_is_Some_2 teams (p mod k)) as [team Hteam].
  { rewrite Hcount. apply Nat.mod_upper_bound. lia. }
  exists team. split; [done|].
  rewrite (Hmem _ _ Hteam), <- Hp. f_equal.
  pose proof (Nat.div_mod_eq p k). lia.
Qed.

Lemma dealt_size team :
  team ∈ teams ->
  length arr / k <= length team <= length arr / k + 1.
Proof.
  intros Hin. destruct Hd as [Hcount Hmem _].
  apply list_elem_of_lookup in Hin as [t Ht].
  assert (Htk : t < k) by (rewrite <- Hcount; by eapply lookup_lt_Some).
  pose proof (dealt_team_length _ _ _ _ (Hmem _ _ Ht)) as [Hlo Hhi].
  pose proof (Nat.div_mod_eq (length arr) k) as Hdm.
  pose proof (Nat.mod_upper_bound (length arr) k) as Hr.
  set (d := length arr / k) in *. set (r := length arr mod k) in *.
  split.
  - assert (d < length team + 1) by nia. lia.
  - destruct Hhi as [->|Hhi]; [lia|].
    destruct (length team) as [|n]; [lia|].
    replace (S n - 1) with n in Hhi by lia.
    assert (n < d + 1) by nia. lia.
Qed.

Lemma dealt_balanced a b :
  a ∈ teams -> b ∈ teams -> length a <= length b + 1.
Proof.
  intros Ha Hb. pose proof (dealt_size _ Ha). pose proof (dealt_size _ Hb). lia.
Qed.

Lemma dealt_total : list_sum (List.map length teams) = length arr.
Proof.
  rewrite <- List.length_concat. destruct Hd as [_ _ Hall]. by rewrite Hall.
Qed.
End Dealt.

(** In a list of lists without repetition overall, an element lies in one
    list only. *)
Lemma concat_NoDup_unique {A} (ls : list (list A)) t1 t2 l1 l2 x :
  NoDup (concat ls) ->
  ls !! t1 = Some l1 -> ls !! t2 = Some l2 -> x ∈ l1 -> x ∈ l2 -> t1 = t2.
Proof.
  revert t1 t2. induction ls as [|l ls IH]; intros t1 t2; [done|].
  simpl. rewrite NoDup_app. intros (_ & Hdisj & Hnd) H1 H2 Hx1 Hx2.
  assert (Hin : forall t l', ls !! t = Some l' -> x ∈ l' -> x ∈ concat ls).
  { intros t l' Ht Hx. apply list_elem_of_In, List.in_concat.
    exists l'. split; apply list_elem_of_In; [|done].
    by eapply list_elem_of_lookup_2. }
  destruct t1 as [|t1], t2 as [|t2]; simpl in *; [done| | |].
  - injection H1 as ->. exfalso. eapply Hdisj; eauto.
  - injection H2 as ->. exfalso. eapply Hdisj; eauto.
  - f_equal. eauto.
Qed.

(** ** The lock routine, branch by branch *)

Lemma deactivate_fold_map c ks o :
  fold_left (deactivate_reg c) ks o = List.map (deactivated c ks) o.
Proof.
  revert o. induction ks as [|k ks IH]; intros o; simpl.
  - rewrite <- (List.map_id o) at 1. apply List.map_ext. intros e.
    unfold deactivated. rewrite bool_decide_eq_false_2; [done|].
    intros [H _]. by apply elem_of_nil in H.
  - rewrite IH. unfold deactivate_reg. case_decide as Hc.
    + apply List.map_ext. intros e. unfold deactivated.
      apply (f_equal (fun b : bool => if b then _ else _)).
      apply bool_decide_ext. rewrite elem_of_cons.
      split; [intros [? ?]; auto | intros [[->|?] ?]; [congruence | auto]].
    + unfold obj_modify. rewrite List.map_map. apply List.map_ext. intros e.
      unfold deactivated.
      destruct (Z.eqb_spec (fst e) k) as [Hk|Hk]; simpl.
      * rewrite (bool_decide_eq_true_2 (fst e ∈ k :: ks /\ _)).
        2:{ split; [rewrite Hk; left | congruence]. }
        by destruct (bool_decide _).
      * apply (f_equal (fun b : bool => if b then _ else _)).
        apply bool_decide_ext. rewrite elem_of_cons.
        split; [intros [? ?]; auto | intros [[?|?] ?]; [congruence | auto]].
Qed.

Lemma lock_choose_eq rand ks s :
  lock_choose rand ks s =
  let c := at_index ks (random_index rand 0 (length ks)) in
  let o := List.map (deactivated c ks) (touchesData s) in
  match c ≫= (fun k => obj_get k o) with
  | None => Throw (set_touchesData o s)
  | Some chosen =>
      Normal (set_resultOverlay_display DisplayBlock
                (set_resultOverlay_innerHTML
                   (winnerText (TouchData.color chosen))
                   (set_touchesData o s)))
  end.
Proof.
  unfold lock_choose. rewrite deactivate_fold, deactivate_fold_map. simpl.
  by destruct (_ ≫= _).
Qed.

Lemma deactivated_keys c ks o :
  List.map fst (List.map (deactivated c ks) o) = List.map fst o.
Proof.
  rewrite List.map_map. apply List.map_ext. intros e. unfold deactivated.
  by destruct (bool_decide _).
Qed.

Lemma clampTeamCount_Int k n :
  0 < n ->
  clampTeamCount (Int k) n = Int (Z.of_nat (Z.to_nat (Z.max 1 (Z.min k (Z.of_nat n))))).
Proof.
  intros Hn. unfold clampTeamCount. simpl.
  destruct (Z.ltb_spec k 1); simpl.
  - destruct (Z.ltb_spec (Z.of_nat n) 1); f_equal; lia.
  - destruct (Z.ltb_spec (Z.of_nat n) k); f_equal; lia.
Qed.

Lemma lock_team_Int rand ks s k :
  0 < length ks -> countInput_value s = Int k ->
  let kc := Z.to_nat (Z.max 1 (Z.min k (Z.of_nat (length ks)))) in
  exists teams',
    dealt_to kc (shuffle rand (List.map (touchObject s) ks)) teams'
    /\ lock_team rand ks s
       = Normal (set_resultOverlay_display DisplayBlock
                   (set_resultOverlay_innerHTML (resultText teams')
                      (set_teams teams' s))).
Proof.
  intros Hn Hcount kc. unfold lock_team.
  rewrite Hcount, clampTeamCount_Int by done. fold kc.
  assert (Hkc : 0 < kc) by (subst kc; lia).
  destruct (distribute_spec kc (shuffle rand (List.map (touchObject s) ks)) Hkc)
    as (teams' & Heq & Hd).
  exists teams'. split; [done|].
  cbn [teams set_teams]. rewrite Heq.
  by destruct s.
Qed.

(** With a team count that is NaN no team is created and the first push
    throws. *)
Lemma lock_team_NaN rand ks s :
  0 < length ks -> countInput_value s = NaN ->
  lock_team rand ks s = Throw (set_teams [] s).
Proof.
  intros Hn Hcount. unfold lock_team. rewrite Hcount. simpl.
  destruct (shuffle rand _) as [|m l] eqn:Hs.
  - apply (f_equal length) in Hs. rewrite shuffle_length, length_map in Hs.
    simpl in Hs. lia.
  - simpl. by destruct s.
Qed.

(** *** The fields a lock may change *)

Lemma lock_choose_shape rand ks s :
  exists o html disp,
    List.map fst o = List.map fst (touchesData s)
    /\ (lock_choose rand ks s = Normal (show o (teams s) html disp s)
        \/ lock_choose rand ks s = Throw (show o (teams s) html disp s)).
Proof.
  rewrite lock_choose_eq. cbv zeta.
  set (o := List.map (deactivated _ _) (touchesData s)).
  assert (Ho : List.map fst o = List.map fst (touchesData s))
    by apply deactivated_keys.
  destruct (_ ≫= _) as [chosen|].
  - exists o, (winnerText (TouchData.color chosen)), DisplayBlock.
    split; [done|]. left. by destruct s.
  - exists o, (resultOverlay_innerHTML s), (resultOverlay_display s).
    split; [done|]. right. by destruct s.
Qed.

Lemma lock_team_shape rand ks s :
  exists tm html disp,
    lock_team rand ks s = Normal (show (touchesData s) tm html disp s)
    \/ lock_team rand ks s = Throw (show (touchesData s) tm html disp s).
Proof.
  unfold lock_team. simpl teams.
  destruct (distribute _ _ _ _) as [tm|tm].
  - exists tm, (resultText tm), DisplayBlock. left. by destruct s.
  - exists tm, (resultOverlay_innerHTML s), (resultOverlay_display s).
    right. by destruct s.
Qed.

Lemma show_same s :
  show (touchesData s) (teams s) (resultOverlay_innerHTML s)
    (resultOverlay_display s) s = s.
Proof. by destruct s. Qed.

Lemma lockAndShowResult_outcome now rand s :
  lock_outcome now s (lockAndShowResult now rand s).
Proof.
  unfold lockAndShowResult. fold (lock_flags s).
  set (s1 := lock_flags s).
  assert (Hreg : touchesData s1 = touchesData s) by done.
  rewrite Hreg.
  destruct (Nat.eqb_spec (length (Object_keys (touchesData s))) 0) as [H0|_].
  { rewrite Object_keys_length in H0. apply lock_empty.
    by apply length_zero_iff_nil. }
  destruct (String.eqb _ _).
  - destruct (lock_choose_shape rand (Object_keys (touchesData s)) s1)
      as (o & html & disp & Hk & [-> | ->]).
    + by apply lock_scheduled.
    + by apply lock_thrown.
  - destruct (String.eqb _ _).
    + destruct (lock_team_shape rand (Object_keys (touchesData s)) s1)
        as (tm & html & disp & [-> | ->]).
      * by apply lock_scheduled.
      * by apply lock_thrown.
    + rewrite <- (show_same s1) at 1. by apply lock_scheduled.
Qed.

(** ** The invariant of the session *)

Lemma Inv_initial radios count : Inv (initial radios count).
Proof.
  split; simpl; try done.
  - split; simpl; [apply NoDup_nil_2 | unfold capacity; lia].
  - intros _. apply Forall_nil_2.
Qed.

Lemma handleTouchStart_Inv ts now s : Inv s -> Inv (handleTouchStart ts now s).
Proof.
  intros HI. unfold handleTouchStart.
  destruct (locked s) eqn:Hl; [done|]. destruct HI as [Hr Ha Hi Ht].
  rewrite touchStart_fold. unfold updateLastTouchTime, timer_ok in *.
  split; simpl; rewrite ?Hl; auto.
  - apply fold_reg_invariant; [apply start_reg_ok | done].
  - intros _. apply fold_reg_invariant; [apply start_reg_active | auto].
Qed.

Lemma handleTouchMove_Inv ts s : Inv s -> Inv (handleTouchMove ts s).
Proof.
  intros HI. unfold handleTouchMove.
  destruct (locked s) eqn:Hl; [done|]. destruct HI as [Hr Ha Hi Ht].
  rewrite touchMove_fold. unfold timer_ok in *.
  split; simpl; rewrite ?Hl; auto.
  - apply fold_reg_invariant; [apply move_reg_ok | done].
  - intros _. apply fold_reg_invariant; [apply move_reg_active | auto].
Qed.

Lemma handleTouchEnd_Inv ts now s : Inv s -> Inv (handleTouchEnd ts now s).
Proof.
  intros HI. unfold handleTouchEnd.
  destruct (locked s) eqn:Hl; [done|]. destruct HI as [Hr Ha Hi Ht].
  rewrite touchEnd_fold. unfold updateLastTouchTime, timer_ok in *.
  split; simpl; rewrite ?Hl; auto.
  - apply fold_reg_invariant; [apply end_reg_ok | done].
  - intros _. apply fold_reg_invariant; [apply end_reg_active | auto].
Qed.

Lemma Forall_filter_bool {A} (P : A -> Prop) (f : A -> bool) (l : list A) :
  Forall P l -> Forall P (List.filter f l).
Proof.
  induction 1 as [|a l Ha _ IH]; simpl; [constructor|].
  destruct (f a); [by constructor | done].
Qed.

Lemma timer_ok_owned s : timer_ok s -> timers_owned s.
Proof.
  unfold timer_ok, timers_owned. destruct (resultTimer s) as [h|].
  - intros [due ->]. by repeat constructor.
  - intros ->. constructor.
Qed.

Lemma filter_owned (h : positive) (l : list (positive * Z)) :
  Forall (fun e => Some h = Some (fst e)) l ->
  List.filter (fun e => negb (Pos.eqb (fst e) h)) l = [].
Proof.
  induction 1 as [|e l He _ IH]; simpl; [done|].
  injection He as <-. by rewrite Pos.eqb_refl.
Qed.

Lemma resetAll_timeouts s : timers_owned s -> timeouts (resetAll s) = [].
Proof.
  unfold timers_owned, resetAll. simpl.
  destruct (resultTimer s) as [h|] eqn:Hh; simpl; intros Ho.
  - by apply filter_owned.
  - destruct Ho as [|e l He _]; [done | discriminate He].
Qed.

Lemma resetAll_fields s :
  touchesData (resetAll s) = []
  /\ showingResult (resetAll s) = false
  /\ locked (resetAll s) = false
  /\ lastTouchTime (resetAll s) = 0%Z
  /\ teams (resetAll s) = []
  /\ hintDiv_display (resetAll s) = DisplayBlock
  /\ resultOverlay_display (resetAll s) = DisplayNone
  /\ resultOverlay_innerHTML (resetAll s) = EmptyString
  /\ resultTimer (resetAll s) = None.
Proof.
  unfold resetAll, clearTimeout. simpl.
  destruct (resultTimer s) eqn:E; simpl; rewrite ?E; by repeat split.
Qed.

Lemma resetAll_Inv s : timers_owned s -> Inv (resetAll s).
Proof.
  intros Ho. pose proof (resetAll_timeouts s Ho) as Ht.
  destruct (resetAll_fields s) as (Hreg & _ & _ & _ & _ & _ & _ & _ & Hrt).
  split; unfold timer_ok; rewrite ?Hreg, ?Hrt; try done.
  - split; simpl; [apply NoDup_nil_2 | unfold capacity; lia].
  - intros _. apply Forall_nil_2.
Qed.

(** *** The frame loop *)

Lemma Object_keys_ext {V W} (o : Obj V) (o' : Obj W) :
  List.map fst o = List.map fst o' -> Object_keys o = Object_keys o'.
Proof. unfold Object_keys. by intros ->. Qed.

Lemma frame_prelude_keys s :
  List.map fst (touchesData (frame_prelude s)) = List.map fst (touchesData s).
Proof. simpl. apply animate_fold_keys. Qed.

Lemma inactive_prelude now s :
  inactive now (frame_prelude s) = inactive now s.
Proof.
  unfold inactive.
  by rewrite (Object_keys_ext _ _ (frame_prelude_keys s)).
Qed.

Lemma drawLoop_unfold now rand s :
  drawLoop now rand s =
  match frame_lines s with
  | Throw _ => Throw (frame_prelude s)
  | Normal _ =>
      match (if inactive now s then lockAndShowResult now rand (frame_prelude s)
             else Normal (frame_prelude s)) with
      | Normal s' => Normal (set_frameRequested true s')
      | Throw s' => Throw s'
      end
  end.
Proof.
  unfold drawLoop, frame_lines. rewrite animate_fold.
  assert (Hp : set_touchesData
            (fold_left animate_reg
               (Object_keys (touchesData
                  (if (length (Object_keys (touchesData s)) =? 0)%nat
                      && negb (showingResult s)
                   then set_hintDiv_display DisplayBlock s else s)))
               (touchesData
                  (if (length (Object_keys (touchesData s)) =? 0)%nat
                      && negb (showingResult s)
                   then set_hintDiv_display DisplayBlock s else s)))
            (if (length (Object_keys (touchesData s)) =? 0)%nat
                && negb (showingResult s)
             then set_hintDiv_display DisplayBlock s else s)
          = frame_prelude s).
  { unfold frame_prelude. destruct (_ && _); [done | by destruct s]. }
  assert (Hm : getCurrentMode
                 (if (length (Object_keys (touchesData s)) =? 0)%nat
                     && negb (showingResult s)
                  then set_hintDiv_display DisplayBlock s else s)
               = getCurrentMode s).
  { by destruct (_ && _). }
  rewrite Hp, Hm. by rewrite inactive_prelude.
Qed.

Lemma frame_lines_quiet s : showingResult s = false -> frame_lines s = Normal [].
Proof.
  intros Hs. unfold frame_lines, drawResultLines.
  change (showingResult (frame_prelude s)) with (showingResult s).
  by rewrite Hs.
Qed.

Lemma inactive_not_showing now s :
  inactive now s = true -> showingResult s = false.
Proof. unfold inactive. destruct (locked s), (showingResult s); done. Qed.

(** A frame ends while the lines are drawn, which takes a result on
    show, or goes on to the test for inactivity. *)
Lemma drawLoop_cases now rand s :
  (showingResult s = true /\ inactive now s = false
   /\ drawLoop now rand s = Throw (frame_prelude s))
  \/ drawLoop now rand s
     = match (if inactive now s
              then lockAndShowResult now rand (frame_prelude s)
              else Normal (frame_prelude s)) with
       | Normal s' => Normal (set_frameRequested true s')
       | Throw s' => Throw s'
       end.
Proof.
  rewrite drawLoop_unfold. destruct (frame_lines s) as [c|c] eqn:Hc; [by right|].
  left. destruct (showingResult s) eqn:Hs.
  - split; [done|]. split; [|done].
    destruct (inactive now s) eqn:Hi; [|done].
    apply inactive_not_showing in Hi. congruence.
  - rewrite frame_lines_quiet in Hc by done. done.
Qed.

(** A frame that does not lock leaves the state the animation has
    reached, with or without the request for the next frame. *)
Lemma drawLoop_still now rand s :
  inactive now s = false ->
  exists b, result_of (drawLoop now rand s) = set_frameRequested b (frame_prelude s).
Proof.
  intros Hin. destruct (drawLoop_cases now rand s) as [(_ & _ & ->) | ->].
  - exists (frameRequested s). done.
  - rewrite Hin. by exists true.
Qed.

Lemma drawLoop_split now rand s :
  (inactive now s = true
   /\ drawLoop now rand s
      = match lockAndShowResult now rand (frame_prelude s) with
        | Normal s' => Normal (set_frameRequested true s')
        | Throw s' => Throw s'
        end)
  \/ (inactive now s = false
      /\ exists b, result_of (drawLoop now rand s)
                   = set_frameRequested b (frame_prelude s)).
Proof.
  destruct (inactive now s) eqn:Hin.
  - left. split; [done|].
    rewrite drawLoop_unfold, frame_lines_quiet, Hin; [done|].
    by apply (inactive_not_showing now).
  - right. split; [done|]. by apply drawLoop_still.
Qed.

Lemma frame_prelude_Inv s : Inv s -> Inv (frame_prelude s).
Proof.
  intros [Hr Ha Hi Ht]. split; unfold timer_ok in *; simpl; auto.
  - eapply reg_ok_keys; [apply animate_fold_keys | done].
  - intros Hl. apply fold_reg_invariant; [|auto].
    intros o id. apply obj_modify_all_active, animate_active.
Qed.

Lemma scheduleReset_fields now s :
  touchesData (scheduleReset now s) = touchesData s
  /\ locked (scheduleReset now s) = locked s
  /\ showingResult (scheduleReset now s) = showingResult s
  /\ teams (scheduleReset now s) = teams s
  /\ resultOverlay_innerHTML (scheduleReset now s) = resultOverlay_innerHTML s
  /\ resultTimer (scheduleReset now s) = Some (nextHandle s).
Proof.
  unfold scheduleReset, setTimeout_resultTimer, clearTimeout.
  destruct (resultTimer s); simpl; by repeat split.
Qed.

Lemma scheduleReset_timeouts now s :
  resultTimer s = None ->
  timeouts (scheduleReset now s)
  = timeouts s ++ [(nextHandle s, (now + 10000)%Z)].
Proof. unfold scheduleReset. by intros ->. Qed.

Lemma show_lock_fields o tm html disp s :
  touchesData (show o tm html disp (lock_flags s)) = o
  /\ locked (show o tm html disp (lock_flags s)) = true
  /\ resultTimer (show o tm html disp (lock_flags s)) = resultTimer s
  /\ timeouts (show o tm html disp (lock_flags s)) = timeouts s.
Proof. done. Qed.

Lemma lock_outcome_Inv now s c :
  Inv s -> locked s = false -> lock_outcome now s c -> Inv (result_of c).
Proof.
  intros [Hr Ha Hi Ht] Hl Hc. specialize (Hi Hl).
  unfold timer_ok in Ht. rewrite Hi in Ht.
  destruct Hc as [_|o tm html disp Hk|o tm html disp Hk].
  - split; unfold timer_ok; simpl; rewrite ?Hi; done.
  - destruct (show_lock_fields o tm html disp s) as (H1 & H2 & H3 & H4).
    set (X := show o tm html disp (lock_flags s)) in *. clearbody X.
    destruct (scheduleReset_fields now X) as (F1 & F2 & _ & _ & _ & F6).
    pose proof (scheduleReset_timeouts now X) as F7.
    rewrite H3, H4, Hi, Ht in F7. specialize (F7 eq_refl).
    split; unfold timer_ok; cbn [result_of]; rewrite ?F1, ?F2, ?F6, ?H1, ?H2;
      try done; eauto using reg_ok_keys.
  - destruct (show_lock_fields o tm html disp s) as (H1 & H2 & H3 & H4).
    set (X := show o tm html disp (lock_flags s)) in *. clearbody X.
    split; unfold timer_ok; cbn [result_of]; rewrite ?H1, ?H2, ?H3, ?H4, ?Hi;
      try done; eauto using reg_ok_keys.
Qed.

Lemma inactive_unlocked now s : inactive now s = true -> locked s = false.
Proof. unfold inactive. by destruct (locked s). Qed.

Lemma set_frameRequested_Inv b s : Inv s -> Inv (set_frameRequested b s).
Proof. by intros [Hr Ha Hi Ht]. Qed.

Lemma drawLoop_Inv now rand s : Inv s -> Inv (result_of (drawLoop now rand s)).
Proof.
  intros HI. pose proof (frame_prelude_Inv s HI) as HP.
  destruct (drawLoop_cases now rand s) as [(_ & _ & ->) | ->]; [done|].
  destruct (inactive now s) eqn:Hin.
  - pose proof (lockAndShowResult_outcome now rand (frame_prelude s)) as Ho.
    eapply lock_outcome_Inv in Ho; [|done|].
    + destruct (lockAndShowResult _ _ _); simpl in *; [|done].
      by apply set_frameRequested_Inv.
    + simpl. by apply inactive_unlocked in Hin.
  - simpl. by apply set_frameRequested_Inv.
Qed.

Lemma step_Inv e s : Inv s -> Inv (step e s).
Proof.
  intros HI. destruct e as [ts now|ts|ts now|ts now|now rand|h now|i|v];
    cbn [step].
  - by apply handleTouchStart_Inv.
  - by apply handleTouchMove_Inv.
  - by apply handleTouchEnd_Inv.
  - by apply handleTouchEnd_Inv.
  - destruct (frameRequested s); [|done].
    apply drawLoop_Inv. by apply set_frameRequested_Inv.
  - destruct (List.find _ _) as [[h' due]|] eqn:Hf; [|done].
    destruct (due <=? now)%Z; [|done].
    apply resetAll_Inv. unfold timers_owned. simpl.
    apply Forall_filter_bool, (timer_ok_owned s (inv_timer s HI)).
  - destruct (_ <? _)%nat; [|done].
    apply resetAll_Inv. apply (timer_ok_owned s (inv_timer s HI)).
  - apply resetAll_Inv. apply (timer_ok_owned s (inv_timer s HI)).
Qed.

Lemma run_Inv evs s : Inv s -> Inv (run evs s).
Proof.
  revert s. induction evs as [|e evs IH]; intros s HI; simpl; [done|].
  apply IH. by apply step_Inv.
Qed.

Lemma reachable_Inv s : reachable s -> Inv s.
Proof.
  intros (radios & count & evs & ->). apply run_Inv, Inv_initial.
Qed.

Lemma reachable_initial radios count : reachable (initial radios count).
Proof. by exists radios, count, []. Qed.

Lemma reachable_step e s : reachable s -> reachable (step e s).
Proof.
  intros (radios & count & evs & ->). exists radios, count, (evs ++ [e]).
  unfold run. by rewrite fold_left_app.
Qed.

(** * The properties stated by the specification *)

Lemma inactive_iff now s :
  inactive now s = true
  <-> locked s = false /\ showingResult s = false
      /\ touchesData s <> []
      /\ (now - lastTouchTime s > INACTIVITY_TIMEOUT)%Z.
Proof.
  unfold inactive. rewrite Object_keys_length, !andb_true_iff, !negb_true_iff.
  rewrite Z.gtb_gt, Nat.ltb_lt.
  assert (0 < length (touchesData s) <-> touchesData s <> []).
  { destruct (touchesData s); simpl; [split; [lia|done] | split; [done|lia]]. }
  tauto.
Qed.

Lemma lock_outcome_locked now s c :
  lock_outcome now s c -> locked (result_of c) = true.
Proof.
  destruct 1 as [_|o tm html disp _|o tm html disp _]; [done| |done].
  cbn [result_of]. by rewrite (proj1 (proj2 (scheduleReset_fields _ _))).
Qed.

(** C3. A run of the frame loop takes the session from unlocked to locked
    if and only if it is neither locked nor showing a result, the registry
    is not empty and [now - lastTouchTime] exceeds 5000 ms strictly; with an
    empty registry the frame loop never changes the locked flag. *)
Theorem C3_lock_fires_iff now rand s :
  ((locked s = false /\ locked (result_of (drawLoop now rand s)) = true)
   <-> (locked s = false /\ showingResult s = false
        /\ touchesData s <> []
        /\ (now - lastTouchTime s > 5000)%Z))
  /\ (touchesData s = [] ->
      locked (result_of (drawLoop now rand s)) = locked s).
Proof.
  pose proof (inactive_iff now s) as Hin. unfold INACTIVITY_TIMEOUT in Hin.
  assert (Hlock : locked (result_of (drawLoop now rand s))
                  = if inactive now s then true else locked s).
  { destruct (drawLoop_cases now rand s) as [(_ & -> & ->) | ->]; [done|].
    destruct (inactive now s); [|done].
    pose proof (lock_outcome_locked _ _ _
      (lockAndShowResult_outcome now rand (frame_prelude s))) as Hl.
    by destruct (lockAndShowResult _ _ _). }
  rewrite Hlock. split.
  - destruct (inactive now s).
    + split; [intros _; by apply Hin | intros [? _]; done].
    + split; [intros [-> [=]] | intros H; apply Hin in H; done].
  - intros Hreg. destruct (inactive now s); [|done].
    destruct Hin as [Hin _]. by destruct (Hin eq_refl) as (_ & _ & ? & _).
Qed.

(** C5. While the session is locked, a touch start, move, end or cancel
    event leaves the whole state as it is. *)
Theorem C5_locked_ignores_touches ts now s :
  locked s = true ->
  step (touchstart ts now) s = s
  /\ step (touchmove ts) s = s
  /\ step (touchend ts now) s = s
  /\ step (touchcancel ts now) s = s.
Proof.
  intros Hl. simpl. unfold handleTouchStart, handleTouchMove, handleTouchEnd.
  by rewrite Hl.
Qed.

Lemma C5_witness :
  step (touchstart [touch 1 5 5; touch 3 7 7] 7000) locked_session
  = locked_session
  /\ step (touchmove [touch 1 5 5; touch 3 7 7]) locked_session
     = locked_session
  /\ step (touchend [touch 1 5 5; touch 3 7 7] 7000) locked_session
     = locked_session
  /\ step (touchcancel [touch 1 5 5; touch 3 7 7] 7000) locked_session
     = locked_session.
Proof. apply C5_locked_ignores_touches. reflexivity. Defined.

Lemma start_reg_full o t :
  capacity <= length o -> start_reg o t = o.
Proof.
  intros H. unfold start_reg. rewrite Object_keys_length.
  destruct (Nat.ltb_spec (length o) 10); [unfold capacity in H; lia | done].
Qed.

(** C4. After any sequence of events the registry holds at most ten
    contacts, and a touch start event that finds ten contacts in the
    registry leaves the registry as it is. *)
Theorem C4_capacity :
  (forall radios count evs,
      length (touchesData (run evs (initial radios count))) <= 10)
  /\ (forall radios count evs ts now,
         let s := run evs (initial radios count) in
         length (touchesData s) = 10 ->
         touchesData (step (touchstart ts now) s) = touchesData s).
Proof.
  split.
  - intros radios count evs.
    apply (reg_size _ (inv_reg _ (run_Inv evs _ (Inv_initial radios count)))).
  - intros radios count evs ts now s Hfull. simpl. unfold handleTouchStart.
    destruct (locked s); [done|]. rewrite touchStart_fold. simpl.
    apply fold_reg_invariant with (P := fun o => o = touchesData s); [|done].
    intros o t ->. apply start_reg_full. unfold capacity. lia.
Qed.

Lemma C4_witness :
  touchesData (step (touchstart [touch 10 1 1] 2000)
                 (run [touchstart ten_touches 1000] (initial page_radios (Int 2))))
  = touchesData (run [touchstart ten_touches 1000] (initial page_radios (Int 2))).
Proof.
  apply (proj2 C4_capacity page_radios (Int 2) [touchstart ten_touches 1000]).
  reflexivity.
Defined.

Lemma end_reg_absent o t :
  obj_get (identifier t) o = None -> end_reg o t = o.
Proof. unfold end_reg. by intros ->. Qed.

(** C7, as the code has it.  A touch end event whose identifiers are all
    absent from the registry, in a session that is not locked, leaves the
    registry and every contact as they are; it sets [lastTouchTime] to the
    current time and clears [showingResult]. *)
Theorem C7_remove_absent ts now s :
  locked s = false ->
  Forall (fun t => obj_get (identifier t) (touchesData s) = None) ts ->
  handleTouchEnd ts now s = set_lastTouchTime now (set_showingResult false s)
  /\ touchesData (handleTouchEnd ts now s) = touchesData s
  /\ lastTouchTime (handleTouchEnd ts now s) = now.
Proof.
  intros Hl Habs. unfold handleTouchEnd. rewrite Hl, touchEnd_fold.
  unfold updateLastTouchTime. simpl.
  assert (Hfold : fold_left end_reg ts (touchesData s) = touchesData s).
  { induction Habs as [|t ts Ht _ IH]; simpl; [done|].
    by rewrite end_reg_absent. }
  rewrite Hfold. split; [by destruct s | done].
Qed.

Lemma C7_witness :
  handleTouchEnd [touch 7 0 0] 2000 one_finger
  = set_lastTouchTime 2000 (set_showingResult false one_finger)
  /\ touchesData (handleTouchEnd [touch 7 0 0] 2000 one_finger)
     = touchesData one_finger
  /\ lastTouchTime (handleTouchEnd [touch 7 0 0] 2000 one_finger) = 2000%Z.
Proof.
  apply C7_remove_absent; [reflexivity|].
  constructor; [reflexivity | constructor].
Defined.

(** C7 as stated fails: the session is not locked, identifier 7 is not in
    the registry, and the touch end event moves [lastTouchTime] from 1000
    to 2000. *)
Lemma C7_counterexample :
  locked one_finger = false
  /\ obj_get 7%Z (touchesData one_finger) = None
  /\ lastTouchTime one_finger = 1000%Z
  /\ lastTouchTime (handleTouchEnd [touch 7 0 0] 2000 one_finger) = 2000%Z
  /\ lastTouchTime (handleTouchEnd [touch 7 0 0] 2000 one_finger)
     <> lastTouchTime one_finger.
Proof. repeat split. discriminate. Qed.

Lemma resetAll_idempotent s : resetAll (resetAll s) = resetAll s.
Proof.
  destruct s as [? ? ? ? rt ? ? ? ? ? ? ? ? ?].
  destruct rt; vm_compute; reflexivity.
Qed.

(** C9. Resetting twice gives the state that resetting once gives; in that
    state the registry and the teams are empty, the result text is empty
    and hidden, nothing is locked or shown, [lastTouchTime] is 0 and
    [resultTimer] is null; after any sequence of events a reset leaves no
    task pending. *)
Theorem C9_reset_idempotent :
  (forall s,
      resetAll (resetAll s) = resetAll s
      /\ touchesData (resetAll s) = []
      /\ showingResult (resetAll s) = false
      /\ locked (resetAll s) = false
      /\ lastTouchTime (resetAll s) = 0%Z
      /\ teams (resetAll s) = []
      /\ hintDiv_display (resetAll s) = DisplayBlock
      /\ resultOverlay_display (resetAll s) = DisplayNone
      /\ resultOverlay_innerHTML (resetAll s) = EmptyString
      /\ resultTimer (resetAll s) = None)
  /\ (forall radios count evs,
         timeouts (resetAll (run evs (initial radios count))) = []
         /\ timeouts (resetAll (resetAll (run evs (initial radios count)))) = []).
Proof.
  split.
  - intros s. split; [apply resetAll_idempotent | apply resetAll_fields].
  - intros radios count evs. rewrite resetAll_idempotent.
    split; apply resetAll_timeouts, timer_ok_owned, inv_timer,
      run_Inv, Inv_initial.
Qed.

(** ** The activity clock *)

Lemma Forall2_compose {A B C} (R : A -> B -> Prop) (R' : B -> C -> Prop)
  (R'' : A -> C -> Prop) l1 l2 l3 :
  (forall a b c, R a b -> R' b c -> R'' a c) ->
  Forall2 R l1 l2 -> Forall2 R' l2 l3 -> Forall2 R'' l1 l3.
Proof.
  intros HR H12. revert l3.
  induction H12 as [|a b l1 l2 Hab _ IH]; intros l3 H23;
    inversion H23; subst; constructor; eauto.
Qed.

Lemma Forall2_map_r {A B} (R : A -> B -> Prop) (g : A -> B) l :
  (forall a, R a (g a)) -> Forall2 R l (List.map g l).
Proof. intros Hg. induction l; simpl; constructor; auto. Qed.

Lemma moved_refl ts e : moved ts e e.
Proof.
  split; [done|]. split; [|done].
  exists (TouchData.x (snd e)), (TouchData.y (snd e)). by destruct (snd e).
Qed.

Lemma move_reg_moved o t : Forall2 (moved [t]) o (move_reg o t).
Proof.
  unfold move_reg. destruct (obj_get _ _).
  - unfold obj_modify. rewrite List.map_map. apply Forall2_map_r.
    intros e. destruct (Z.eqb_spec (fst e) (identifier t)) as [Heq|Hne]; simpl.
    + rewrite Heq, Z.eqb_refl. simpl. split; [done|]. split; [eauto|].
      intros Hout. exfalso. apply Hout. simpl. rewrite Heq. left.
    + destruct (Z.eqb_spec (fst e) (identifier t)); [done|]. apply moved_refl.
  - rewrite <- (List.map_id o) at 2. apply Forall2_map_r. intros e.
    apply moved_refl.
Qed.

Lemma move_fold_moved ts o : Forall2 (moved ts) o (fold_left move_reg ts o).
Proof.
  revert o. induction ts as [|t ts IH]; intros o; simpl.
  - rewrite <- (List.map_id o) at 2. apply Forall2_map_r. intros e.
    apply moved_refl.
  - eapply Forall2_compose; [|apply (move_reg_moved o t)|apply IH].
    intros a b c (Hk1 & (x1 & y1 & Hp1) & Hs1) (Hk2 & (x2 & y2 & Hp2) & Hs2).
    split; [congruence|]. split.
    + exists x2, y2. rewrite Hp2, Hp1. by destruct (snd a).
    + simpl. rewrite not_elem_of_cons. intros [Hne Hout].
      rewrite <- Hs1; [|simpl; rewrite not_elem_of_cons; split;
                          [done | apply not_elem_of_nil]].
      apply Hs2. rewrite Hs1; [done|].
      simpl. rewrite not_elem_of_cons. split; [done | apply not_elem_of_nil].
Qed.

(** C6. In a session that is not locked a touch move event changes nothing
    but the positions of the contacts it names, so [lastTouchTime] stays;
    a touch start, touch end or touch cancel event sets [lastTouchTime] to
    the current time. *)
Theorem C6_activity_clock ts now s :
  locked s = false ->
  (step (touchmove ts) s
     = set_touchesData (touchesData (step (touchmove ts) s)) s
   /\ lastTouchTime (step (touchmove ts) s) = lastTouchTime s
   /\ Forall2 (moved ts) (touchesData s) (touchesData (step (touchmove ts) s)))
  /\ lastTouchTime (step (touchstart ts now) s) = now
  /\ lastTouchTime (step (touchend ts now) s) = now
  /\ lastTouchTime (step (touchcancel ts now) s) = now.
Proof.
  intros Hl. simpl. unfold handleTouchMove, handleTouchStart, handleTouchEnd.
  rewrite Hl, touchMove_fold, touchStart_fold, touchEnd_fold. simpl.
  split; [|done]. split; [by destruct s|]. split; [done|].
  apply move_fold_moved.
Qed.

Lemma C6_witness :
  (step (touchmove [touch 1 25 26]) two_fingers
     = set_touchesData
         (touchesData (step (touchmove [touch 1 25 26]) two_fingers))
         two_fingers
   /\ lastTouchTime (step (touchmove [touch 1 25 26]) two_fingers)
      = lastTouchTime two_fingers
   /\ Forall2 (moved [touch 1 25 26]) (touchesData two_fingers)
        (touchesData (step (touchmove [touch 1 25 26]) two_fingers)))
  /\ lastTouchTime (step (touchstart [touch 1 25 26] 3000) two_fingers) = 3000%Z
  /\ lastTouchTime (step (touchend [touch 1 25 26] 3000) two_fingers) = 3000%Z
  /\ lastTouchTime (step (touchcancel [touch 1 25 26] 3000) two_fingers) = 3000%Z.
Proof. apply C6_activity_clock. reflexivity. Defined.

(** ** Sessions that stay locked *)

Lemma draw_each_nothing {A} (body : A -> Completion (list DrawCmd)) l :
  (forall a, a ∈ l -> body a = Normal []) -> draw_each body l = Normal [].
Proof.
  induction l as [|a l IH]; intros H; cbn [draw_each]; [done|].
  rewrite (H a) by left. rewrite IH; [done|].
  intros b Hb. apply H. by right.
Qed.

Lemma teamTouches_empty s team : touchesData s = [] -> teamTouches s team = [].
Proof.
  intros Hreg. unfold teamTouches. rewrite Hreg.
  induction team as [|m team IH]; [done|]. cbn. apply IH.
Qed.

(** With an empty registry the frame draws no line. *)
Lemma frame_lines_empty s : touchesData s = [] -> frame_lines s = Normal [].
Proof.
  intros Hreg. unfold frame_lines, drawResultLines.
  destruct (_ && _); [|done]. unfold drawTeamLines.
  apply draw_each_nothing. intros team _.
  rewrite teamTouches_empty; [done|].
  unfold frame_prelude. by rewrite Hreg.
Qed.

(** A locked session with no task pending moves no more, when either no
    frame is requested or the registry is empty. *)
Lemma stuck_step s e :
  locked s = true -> timeouts s = [] ->
  frameRequested s = false \/ (touchesData s = [] /\ showingResult s = true) ->
  is_reset e = false -> step e s = s.
Proof.
  intros Hl Ht Hf He.
  destruct e as [ts now|ts|ts now|ts now|now rand|h now|i|v];
    cbn [step is_reset] in *; try done.
  - unfold handleTouchStart. by rewrite Hl.
  - unfold handleTouchMove. by rewrite Hl.
  - unfold handleTouchEnd. by rewrite Hl.
  - unfold handleTouchEnd. by rewrite Hl.
  - destruct (frameRequested s) eqn:Hfr; [|done].
    destruct Hf as [[=]|[Hreg Hsr]].
    rewrite drawLoop_unfold, frame_lines_empty by done.
    destruct s. simpl in Hl, Ht, Hfr, Hreg, Hsr. subst.
    vm_compute. reflexivity.
  - by rewrite Ht.
Qed.

Lemma stuck_run s evs :
  locked s = true -> timeouts s = [] ->
  frameRequested s = false \/ (touchesData s = [] /\ showingResult s = true) ->
  run (List.filter (fun e => negb (is_reset e)) evs) s = s.
Proof.
  intros Hl Ht Hf. induction evs as [|e evs IH]; simpl; [done|].
  destruct (is_reset e) eqn:He; simpl; [done|].
  by rewrite stuck_step.
Qed.

(** C10. Run on an empty registry, the lock routine sets [locked] and
    [showingResult] and returns: no task is scheduled and no result is
    stored.  With no task pending, every later touch event, frame and
    timer event leaves the state as it is; a change of the team count or
    of the mode unlocks the session. *)
Theorem C10_lock_on_empty_registry now rand s :
  touchesData s = [] -> timeouts s = [] ->
  let s' := set_showingResult true (set_locked true s) in
  lockAndShowResult now rand s = Normal s'
  /\ locked s' = true /\ showingResult s' = true
  /\ timeouts s' = [] /\ resultTimer s' = resultTimer s
  /\ teams s' = teams s
  /\ resultOverlay_innerHTML s' = resultOverlay_innerHTML s
  /\ (forall evs, run (List.filter (fun e => negb (is_reset e)) evs) s' = s')
  /\ (forall v, locked (step (countChange v) s') = false)
  /\ (forall i, (i < length (modeRadios s))%nat ->
                locked (step (modeChange i) s') = false).
Proof.
  intros Hreg Ht s'. split.
  { unfold lockAndShowResult. simpl. by rewrite Hreg. }
  do 6 (split; [done|]). split; [|split].
  - intros evs. apply stuck_run; [done..|]. right. by split.
  - intros v. simpl. apply resetAll_fields.
  - intros i Hi. simpl. apply Nat.ltb_lt in Hi. rewrite Hi.
    apply resetAll_fields.
Qed.

Lemma C10_witness :
  let s := initial page_radios (Int 2) in
  let s' := set_showingResult true (set_locked true s) in
  lockAndShowResult 6001 (fun _ => 0%N) s = Normal s'
  /\ locked s' = true /\ showingResult s' = true
  /\ timeouts s' = [] /\ resultTimer s' = resultTimer s
  /\ teams s' = teams s
  /\ resultOverlay_innerHTML s' = resultOverlay_innerHTML s
  /\ (forall evs, run (List.filter (fun e => negb (is_reset e)) evs) s' = s')
  /\ (forall v, locked (step (countChange v) s') = false)
  /\ (forall i, (i < length (modeRadios s))%nat ->
                locked (step (modeChange i) s') = false).
Proof.
  apply (C10_lock_on_empty_registry 6001 (fun _ => 0%N)
           (initial page_radios (Int 2))); reflexivity.
Defined.

(** ** The automatic reset *)

(** A lock that runs to its end on a non-empty registry leaves exactly one
    task pending, due 10000 ms after the lock. *)
Lemma lock_schedules_reset now rand s s' :
  Inv s -> locked s = false -> touchesData s <> [] ->
  lockAndShowResult now rand s = Normal s' ->
  timeouts s' = [(nextHandle s, (now + 10000)%Z)]
  /\ resultTimer s' = Some (nextHandle s)
  /\ locked s' = true.
Proof.
  intros HI Hl Hne Heq.
  pose proof (lockAndShowResult_outcome now rand s) as Ho. rewrite Heq in Ho.
  pose proof (inv_idle s HI Hl) as Hrt.
  pose proof (inv_timer s HI) as Ht. unfold timer_ok in Ht. rewrite Hrt in Ht.
  inversion Ho as [Hempty|o tm html disp Hk|]; subst; [done|].
  unfold scheduleReset, setTimeout_resultTimer. simpl. rewrite Hrt. simpl.
  by rewrite Ht.
Qed.

(** While the session is not locked no task is pending: a reset timer
    never outlives the lock that scheduled it. *)
Lemma unlocked_no_timeout radios count evs :
  let s := run evs (initial radios count) in
  locked s = false -> timeouts s = [] /\ resultTimer s = None.
Proof.
  intros s Hl.
  assert (HI : Inv s) by apply run_Inv, Inv_initial.
  pose proof (inv_idle s HI Hl) as Hrt.
  pose proof (inv_timer s HI) as Ht. unfold timer_ok in Ht.
  rewrite Hrt in Ht. by split.
Qed.

(** The pending task does nothing before it is due; run when due or later,
    it resets the session. *)
Lemma timeout_fires h due t s :
  timeouts s = [(h, due)] -> resultTimer s = Some h ->
  ((t < due)%Z -> step (timeout h t) s = s)
  /\ ((due <= t)%Z ->
      let s' := step (timeout h t) s in
      touchesData s' = [] /\ teams s' = [] /\ locked s' = false
      /\ showingResult s' = false
      /\ resultOverlay_innerHTML s' = EmptyString
      /\ resultTimer s' = None /\ timeouts s' = []).
Proof.
  intros Ht Hrt. simpl. rewrite Ht. simpl. rewrite Pos.eqb_refl. simpl.
  split; intros Hlt.
  - destruct (Z.leb_spec due t); [lia | done].
  - destruct (Z.leb_spec due t); [|lia].
    set (s0 := set_timeouts [] s).
    destruct (resetAll_fields s0) as (? & ? & ? & ? & ? & ? & ? & ? & ?).
    repeat split; try done.
    apply resetAll_timeouts. unfold timers_owned. simpl. constructor.
Qed.

(** C8 fails when the team count is NaN.  The frame at 6001 ms locks the
    session; the lock routine throws at the first push, so no task is
    scheduled and no further frame is requested.  Whatever events other
    than a change of mode or count follow, at any later time, the session
    stays locked with its registry. *)
Theorem C8_nan_team_count_never_resets :
  forall rand evs,
    let s := nan_session rand in
    locked s = true /\ showingResult s = true
    /\ List.map fst (touchesData s) = [0%Z]
    /\ teams s = []
    /\ resultTimer s = None /\ timeouts s = []
    /\ frameRequested s = false
    /\ run (List.filter (fun e => negb (is_reset e)) evs) s = s.
Proof.
  intros rand evs s. do 7 (split; [reflexivity|]).
  apply stuck_run; [reflexivity | reflexivity | left; reflexivity].
Qed.

(** ** The frame that locks *)

Lemma step_frame now rand s :
  frameRequested s = true -> inactive now s = true ->
  step (animationFrame now rand) s
  = match lockAndShowResult now rand (at_lock s) with
    | Normal s' => set_frameRequested true s'
    | Throw s' => s'
    end.
Proof.
  intros Hf Hin. cbn [step]. rewrite Hf, drawLoop_unfold.
  rewrite frame_lines_quiet by apply (inactive_not_showing now), Hin.
  assert (Hin' : inactive now (set_frameRequested false s) = true) by done.
  rewrite Hin'. fold (at_lock s). by destruct (lockAndShowResult _ _ _).
Qed.

Lemma set_frameRequested_fields b s :
  touchesData (set_frameRequested b s) = touchesData s
  /\ locked (set_frameRequested b s) = locked s
  /\ teams (set_frameRequested b s) = teams s
  /\ resultOverlay_innerHTML (set_frameRequested b s) = resultOverlay_innerHTML s.
Proof. done. Qed.

Lemma at_lock_keys s :
  List.map fst (touchesData (at_lock s)) = List.map fst (touchesData s).
Proof. apply (frame_prelude_keys (set_frameRequested false s)). Qed.

Lemma at_lock_snapshot s : snapshot (at_lock s) = snapshot s.
Proof. apply Object_keys_ext, at_lock_keys. Qed.

Lemma at_lock_Inv s : Inv s -> Inv (at_lock s).
Proof. intros HI. by apply frame_prelude_Inv, set_frameRequested_Inv. Qed.

Lemma obj_get_modify_color k k' f (o : Obj TouchData.t) :
  (forall d, TouchData.color (f d) = TouchData.color d) ->
  obj_get k (obj_modify k' f o) ≫= TouchData.color
  = obj_get k o ≫= TouchData.color.
Proof.
  intros Hf. unfold obj_get, obj_modify.
  induction o as [|e o IH]; simpl; [done|].
  destruct (Z.eqb_spec (fst e) k') as [Hk'|Hk']; simpl;
    destruct (Z.eqb_spec (fst e) k); simpl; auto.
Qed.

Lemma animate_color d : TouchData.color (animate d) = TouchData.color d.
Proof. unfold animate. by destruct (negb _). Qed.

Lemma touchObject_at_lock s id : touchObject (at_lock s) id = touchObject s id.
Proof.
  unfold touchObject. f_equal. simpl.
  generalize (Object_keys (touchesData s)) as ks.
  generalize (touchesData s) as o.
  intros o ks. revert o. induction ks as [|k ks IH]; intros o; simpl; [done|].
  rewrite IH. apply obj_get_modify_color, animate_color.
Qed.

Lemma lockAndShowResult_team now rand s k :
  touchesData s <> [] ->
  getCurrentMode s = "team"%string -> countInput_value s = Int k ->
  let kc := Z.to_nat (Z.max 1 (Z.min k (Z.of_nat (length (snapshot s))))) in
  exists teams',
    dealt_to kc (shuffle rand (List.map (touchObject s) (snapshot s))) teams'
    /\ lockAndShowResult now rand s
       = Normal (scheduleReset now
                   (set_resultOverlay_display DisplayBlock
                      (set_resultOverlay_innerHTML (resultText teams')
                         (set_teams teams' (lock_flags s))))).
Proof.
  intros Hne Hmode Hcount kc.
  assert (Hn : 0 < length (snapshot s)).
  { unfold snapshot. rewrite Object_keys_length.
    destruct (touchesData s); simpl; [done | lia]. }
  destruct (lock_team_Int rand (snapshot s) (lock_flags s) k Hn Hcount)
    as (teams' & Hd & Heq).
  exists teams'. split; [done|].
  unfold lockAndShowResult. fold (lock_flags s).
  change (touchesData (lock_flags s)) with (touchesData s).
  change (getCurrentMode (lock_flags s)) with (getCurrentMode s).
  fold (snapshot s). rewrite Hmode.
  destruct (Nat.eqb_spec (length (snapshot s)) 0); [lia|].
  simpl String.eqb. by rewrite Heq.
Qed.

Lemma mod_literal (p n : nat) (k : Z) :
  p < n -> (1 <= k)%Z ->
  Z.to_nat (Z.of_nat p mod k)
  = p mod Z.to_nat (Z.max 1 (Z.min k (Z.of_nat n))).
Proof.
  intros Hp Hk. destruct (Z.le_gt_cases k (Z.of_nat n)).
  - replace (Z.max 1 (Z.min k (Z.of_nat n))) with k by lia.
    rewrite <- (Z2Nat.id k) at 1 by lia.
    rewrite <- Nat2Z.inj_mod. apply Nat2Z.id.
  - replace (Z.max 1 (Z.min k (Z.of_nat n))) with (Z.of_nat n) by lia.
    rewrite Nat2Z.id, Z.mod_small, Nat.mod_small by lia. apply Nat2Z.id.
Qed.

(** C1. In team mode, at the frame that locks a session reached by any
    sequence of events, with [n] contacts in the snapshot and the integer
    [k] in the count field: there are [max(1, min(k, n))] teams; their sizes
    add up to [n] and differ by at most one; every identifier of the
    snapshot is in exactly one team, once; and the contact at position [p]
    of the shuffled array is in team [p mod kc], [kc] being the number of
    teams, which is team [p mod k] whenever [k >= 1]. *)
Theorem C1_team_partition radios count evs now rand k :
  let s := run evs (initial radios count) in
  frameRequested s = true -> inactive now s = true ->
  getCurrentMode s = "team"%string -> countInput_value s = Int k ->
  let n := length (snapshot s) in
  let kc := Z.to_nat (Z.max 1 (Z.min k (Z.of_nat n))) in
  let arr := shuffle rand (List.map (touchObject s) (snapshot s)) in
  let s' := step (animationFrame now rand) s in
  0 < n
  /\ locked s' = true
  /\ List.map member_id arr ≡ₚ snapshot s
  /\ length (teams s') = kc
  /\ list_sum (List.map length (teams s')) = n
  /\ (forall a b, a ∈ teams s' -> b ∈ teams s' -> length a <= length b + 1)
  /\ List.map member_id (concat (teams s')) ≡ₚ snapshot s
  /\ NoDup (List.map member_id (concat (teams s')))
  /\ (forall id, id ∈ snapshot s ->
        exists t team,
          teams s' !! t = Some team /\ id ∈ List.map member_id team
          /\ forall t2 team2,
               teams s' !! t2 = Some team2 ->
               id ∈ List.map member_id team2 -> t2 = t)
  /\ (forall p m, arr !! p = Some m ->
        exists team,
          teams s' !! (p mod kc) = Some team /\ team !! (p / kc) = Some m)
  /\ ((1 <= k)%Z ->
      forall p m, arr !! p = Some m ->
        exists team,
          teams s' !! Z.to_nat (Z.of_nat p mod k) = Some team
          /\ team !! (p / kc) = Some m).
Proof.
  intros s Hf Hin Hmode Hcount n kc arr s'.
  assert (HI : Inv s) by apply run_Inv, Inv_initial.
  pose proof (proj1 (inactive_iff now s) Hin) as (Hl & _ & Hne & _).
  assert (Hne' : touchesData (at_lock s) <> []).
  { intros H0. apply Hne. apply (f_equal (List.map fst)) in H0.
    rewrite at_lock_keys in H0. by destruct (touchesData s). }
  destruct (lockAndShowResult_team now rand (at_lock s) k Hne' Hmode Hcount)
    as (teams' & Hd & Heq).
  rewrite at_lock_snapshot in Hd.
  rewrite (List.map_ext _ _ (touchObject_at_lock s)) in Hd.
  fold n kc arr in Hd.
  assert (Hteams : teams s' = teams').
  { subst s'. rewrite step_frame, Heq by done.
    rewrite (proj1 (proj2 (proj2 (set_frameRequested_fields _ _)))).
    by rewrite (proj1 (proj2 (proj2 (proj2 (scheduleReset_fields _ _))))). }
  assert (Hlocked : locked s' = true).
  { subst s'. rewrite step_frame, Heq by done.
    rewrite (proj1 (proj2 (set_frameRequested_fields _ _))).
    by rewrite (proj1 (proj2 (scheduleReset_fields _ _))). }
  rewrite Hteams.
  assert (Hn : 0 < n).
  { subst n. unfold snapshot. rewrite Object_keys_length.
    destruct (touchesData s); simpl; [done | lia]. }
  assert (Hkc : 0 < kc) by (subst kc; lia).
  assert (Harr : List.map member_id arr ≡ₚ snapshot s).
  { subst arr. rewrite shuffle_perm, List.map_map. simpl.
    by rewrite List.map_id. }
  assert (Hall : List.map member_id (concat teams') ≡ₚ snapshot s).
  { by rewrite (dealt_all _ _ _ Hd). }
  assert (Hnd : NoDup (List.map member_id (concat teams'))).
  { rewrite Hall. apply Object_keys_NoDup, (reg_keys _ (inv_reg _ HI)). }
  assert (Hlen : length arr = n).
  { subst arr n. by rewrite shuffle_length, length_map. }
  split; [done|]. split; [done|]. split; [done|].
  split; [apply (dealt_count _ _ _ Hd)|].
  split; [by rewrite (dealt_total _ _ _ Hd)|].
  split; [apply (dealt_balanced _ _ _ Hkc Hd)|].
  split; [done|]. split; [done|]. split; [|split].
  - intros id Hid. rewrite <- Hall in Hid.
    rewrite List.concat_map in Hid.
    apply list_elem_of_In, List.in_concat in Hid as (ids & Hids & Hid).
    apply list_elem_of_In, list_elem_of_lookup in Hids as [t Ht].
    rewrite list_lookup_fmap in Ht.
    destruct (teams' !! t) as [team|] eqn:Hteam; [|done].
    injection Ht as <-. exists t, team.
    split; [done|]. split; [by apply list_elem_of_In|].
    intros t2 team2 Ht2 Hin2.
    rewrite List.concat_map in Hnd.
    apply (concat_NoDup_unique _ t2 t (List.map member_id team2)
             (List.map member_id team) id Hnd).
    + change (List.map (List.map member_id) teams')
        with (List.map member_id <$> teams').
      by rewrite list_lookup_fmap, Ht2.
    + change (List.map (List.map member_id) teams')
        with (List.map member_id <$> teams').
      by rewrite list_lookup_fmap, Hteam.
    + done.
    + by apply list_elem_of_In.
  - intros p m Hp. by apply (dealt_position _ _ _ Hkc Hd).
  - intros Hk p m Hp.
    rewrite (mod_literal p n k); [|rewrite <- Hlen; by eapply lookup_lt_Some|done].
    by apply (dealt_position _ _ _ Hkc Hd).
Qed.
Lemma C1_witness :
  let s' := step (animationFrame 6000 sample_rand)
              (run five_fingers (initial page_radios (Int 2))) in
  length (teams s') = 2
  /\ list_sum (List.map length (teams s')) = 5
  /\ List.map (List.map member_id) (teams s') = [[1; 5; 2]; [0; -1]]%Z.
Proof.
  pose proof (C1_team_partition page_radios (Int 2) five_fingers 6000
                sample_rand 2 eq_refl eq_refl eq_refl eq_refl)
    as (_ & _ & _ & Hcount & Hsum & _).
  split; [exact Hcount|]. split; [exact Hsum|]. reflexivity.
Defined.

(** C1 as stated fails for a count below 1: with the count 0 and two
    contacts there is one team, which holds both, so the contact at
    position 1 of the shuffled array is in team 0; but [1 mod 0] is no
    index of a team ([1 % 0] is NaN in the script). *)
Lemma C1_counterexample :
  let s := run [ modeChange 1; countChange (Int 0);
                 touchstart [touch 0 10 10; touch 1 20 20] 1000 ]
             (initial page_radios (Int 2)) in
  let s' := step (animationFrame 6001 sample_rand) s in
  let arr := shuffle sample_rand (List.map (touchObject s) (snapshot s)) in
  frameRequested s = true /\ inactive 6001 s = true
  /\ getCurrentMode s = "team"%string /\ countInput_value s = Int 0
  /\ List.map member_id arr = [1; 0]%Z
  /\ List.map (List.map member_id) (teams s') = [[1; 0]]%Z
  /\ num_rem (Int 1) (Int 0) = NaN
  /\ ~ (forall p m, arr !! p = Some m ->
          exists team,
            teams s' !! Z.to_nat (Z.of_nat p mod 0) = Some team /\ m ∈ team).
Proof.
  cbv zeta. do 7 (split; [reflexivity|]).
  intros H. edestruct (H 1) as (team & Ht & _); [vm_compute; reflexivity|].
  vm_compute in Ht. discriminate.
Qed.

(** ** The winner *)

Lemma deactivated_fst c ks e : fst (deactivated c ks e) = fst e.
Proof. unfold deactivated. by destruct (bool_decide _). Qed.

Lemma deactivated_chosen k ks e : fst e = k -> deactivated (Some k) ks e = e.
Proof.
  intros Hk. unfold deactivated. rewrite bool_decide_eq_false_2; [done|].
  intros [_ Hne]. congruence.
Qed.

Lemma obj_get_deactivated k ks (o : Obj TouchData.t) :
  obj_get k (List.map (deactivated (Some k) ks) o) = obj_get k o.
Proof.
  unfold obj_get. induction o as [|e o IH]; simpl; [done|].
  rewrite deactivated_fst.
  destruct (Z.eqb_spec (fst e) k) as [Hk|_]; [|apply IH].
  by rewrite deactivated_chosen.
Qed.

Lemma lockAndShowResult_choose now rand s :
  touchesData s <> [] -> length (touchesData s) <= capacity ->
  getCurrentMode s = "choose"%string ->
  exists chosenKey chosen,
    at_index (snapshot s) (random_index rand 0 (length (snapshot s)))
    = Some chosenKey
    /\ chosenKey ∈ snapshot s
    /\ obj_get chosenKey (touchesData s) = Some chosen
    /\ lockAndShowResult now rand s
       = Normal (scheduleReset now
                   (set_resultOverlay_display DisplayBlock
                      (set_resultOverlay_innerHTML
                         (winnerText (TouchData.color chosen))
                         (set_touchesData
                            (List.map (deactivated (Some chosenKey) (snapshot s))
                               (touchesData s))
                            (lock_flags s))))).
Proof.
  intros Hne Hsize Hmode.
  assert (Hn : 0 < length (snapshot s)).
  { unfold snapshot. rewrite Object_keys_length.
    destruct (touchesData s); simpl; [done | lia]. }
  assert (Hb : (Z.of_nat (length (snapshot s)) <= 2 ^ 53)%Z).
  { unfold snapshot. rewrite Object_keys_length. unfold capacity in Hsize.
    change (2 ^ 53)%Z with 9007199254740992%Z. lia. }
  destruct (at_index_in_range (snapshot s)
              (random_index rand 0 (length (snapshot s))))
    as [chosenKey Hat]; [by apply random_index_range|].
  assert (Hin : chosenKey ∈ snapshot s).
  { apply at_index_Some in Hat. by eapply list_elem_of_lookup_2. }
  destruct (obj_get chosenKey (touchesData s)) as [chosen|] eqn:Hget.
  2:{ apply obj_get_None in Hget. by apply Object_keys_elem in Hin. }
  exists chosenKey, chosen. do 3 (split; [done|]).
  unfold lockAndShowResult. fold (lock_flags s).
  change (touchesData (lock_flags s)) with (touchesData s).
  change (getCurrentMode (lock_flags s)) with (getCurrentMode s).
  fold (snapshot s). rewrite Hmode.
  destruct (Nat.eqb_spec (length (snapshot s)) 0); [lia|].
  simpl String.eqb. rewrite lock_choose_eq. cbv zeta.
  change (touchesData (lock_flags s)) with (touchesData s).
  rewrite Hat. simpl mbind. cbn [option_bind].
  by rewrite obj_get_deactivated, Hget.
Qed.

Lemma filter_one_key (o : Obj TouchData.t) (k : Z) (f : Z * TouchData.t -> bool) :
  NoDup (List.map fst o) -> k ∈ List.map fst o ->
  (forall e, e ∈ o -> f e = bool_decide (fst e = k)) ->
  length (List.filter f o) = 1.
Proof.
  induction o as [|e o IH]; simpl.
  - intros _ H. by apply elem_of_nil in H.
  - rewrite NoDup_cons. intros [Hout Hnd] Hin Hf.
    rewrite (Hf e) by left.
    assert (Hrest : forall e', e' ∈ o -> f e' = bool_decide (fst e' = k)).
    { intros e' He'. apply Hf. by right. }
    case_bool_decide as Hk; simpl.
    + f_equal. subst k.
      assert (Hnone : List.filter f o = []); [|by rewrite Hnone].
      clear IH Hin Hf. induction o as [|e' o IH]; simpl; [done|].
      simpl in Hout. rewrite not_elem_of_cons in Hout. destruct Hout as [? Hout].
      apply NoDup_cons in Hnd as [_ Hnd].
      rewrite (Hrest e') by left.
      rewrite bool_decide_eq_false_2 by congruence.
      apply IH; [done..|]. intros e'' He''. apply Hrest. by right.
    + apply elem_of_cons in Hin as [->|Hin]; [done|]. by apply IH.
Qed.

(** C2. In choose mode, at the frame that locks a session reached by any
    sequence of events: the chosen key is a key of the snapshot; after the
    lock the registry has the same keys, the chosen contact is active,
    every other contact is inactive, and so exactly one contact is
    active. *)
Theorem C2_choose_winner radios count evs now rand :
  let s := run evs (initial radios count) in
  frameRequested s = true -> inactive now s = true ->
  getCurrentMode s = "choose"%string ->
  let s' := step (animationFrame now rand) s in
  exists chosenKey,
    at_index (snapshot s) (random_index rand 0 (length (snapshot s)))
    = Some chosenKey
    /\ chosenKey ∈ snapshot s
    /\ locked s' = true
    /\ List.map fst (touchesData s') = List.map fst (touchesData s)
    /\ (exists chosen,
           obj_get chosenKey (touchesData s') = Some chosen
           /\ TouchData.active chosen = true
           /\ resultOverlay_innerHTML s'
              = winnerText (TouchData.color chosen))
    /\ (forall id data,
           (id, data) ∈ touchesData s' -> id <> chosenKey ->
           TouchData.active data = false)
    /\ length (List.filter (fun e => TouchData.active (snd e)) (touchesData s'))
       = 1.
Proof.
  intros s Hf Hin Hmode s'.
  assert (HI : Inv (at_lock s)) by apply at_lock_Inv, run_Inv, Inv_initial.
  pose proof (proj1 (inactive_iff now s) Hin) as (Hl & _ & Hne & _).
  assert (Hne' : touchesData (at_lock s) <> []).
  { intros H0. apply Hne. apply (f_equal (List.map fst)) in H0.
    rewrite at_lock_keys in H0. by destruct (touchesData s). }
  destruct (lockAndShowResult_choose now rand (at_lock s) Hne'
              (reg_size _ (inv_reg _ HI)) Hmode)
    as (chosenKey & chosen & Hat & Hkey & Hget & Heq).
  rewrite at_lock_snapshot in Hat, Hkey, Heq.
  assert (Hact : all_active (touchesData (at_lock s))) by by apply inv_active.
  set (o' := List.map (deactivated (Some chosenKey) (snapshot s))
               (touchesData (at_lock s))) in *.
  assert (Hs' : s' = set_frameRequested true
                       (scheduleReset now
                          (set_resultOverlay_display DisplayBlock
                             (set_resultOverlay_innerHTML
                                (winnerText (TouchData.color chosen))
                                (set_touchesData o' (lock_flags (at_lock s))))))).
  { subst s'. by rewrite step_frame, Heq. }
  assert (Hreg : touchesData s' = o').
  { rewrite Hs'. rewrite (proj1 (set_frameRequested_fields _ _)).
    by rewrite (proj1 (scheduleReset_fields _ _)). }
  assert (Hentry : forall id data, (id, data) ∈ o' ->
            TouchData.active data = bool_decide (id = chosenKey)).
  { intros id data He. apply list_elem_of_fmap in He as (e & He & Hein).
    assert (Hein' : fst e ∈ snapshot s).
    { rewrite <- at_lock_snapshot. apply Object_keys_elem.
      by apply (list_elem_of_fmap_2 fst). }
    pose proof (proj1 (Forall_forall _ _) Hact e Hein) as Hae.
    unfold deactivated in He. case_bool_decide as Hb.
    - injection He as -> ->. destruct Hb as [_ Hb].
      rewrite bool_decide_eq_false_2; [done | congruence].
    - subst e. cbn [fst snd] in Hae, Hb |- *.
      rewrite bool_decide_eq_true_2; [done|].
      destruct (decide (id = chosenKey)); [done|].
      exfalso. apply Hb. split; [done | congruence]. }
  assert (Hkeys : List.map fst o' = List.map fst (touchesData s)).
  { subst o'. by rewrite deactivated_keys, at_lock_keys. }
  exists chosenKey. split; [done|]. split; [done|]. rewrite Hreg. split.
  { rewrite Hs'. rewrite (proj1 (proj2 (set_frameRequested_fields _ _))).
    by rewrite (proj1 (proj2 (scheduleReset_fields _ _))). }
  split; [done|]. split; [|split].
  - exists chosen. subst o'. rewrite obj_get_deactivated. split; [done|]. split.
    + apply obj_get_Some in Hget.
      apply (proj1 (Forall_forall _ _) Hact _ Hget).
    + rewrite Hs'.
      rewrite (proj2 (proj2 (proj2 (set_frameRequested_fields _ _)))).
      by rewrite (proj1 (proj2 (proj2 (proj2 (proj2 (scheduleReset_fields _ _)))))).
  - intros id data He Hne2. rewrite (Hentry _ _ He).
    by apply bool_decide_eq_false_2.
  - apply (filter_one_key o' chosenKey).
    + rewrite Hkeys. apply (reg_keys _ (inv_reg _ (run_Inv evs _ (Inv_initial radios count)))).
    + rewrite Hkeys. by apply Object_keys_elem.
    + intros [id data] He. by apply Hentry.
Qed.

Lemma C2_witness :
  let s := run [touchstart [touch 0 10 10; touch 1 20 20; touch 2 30 30] 1000]
             (initial page_radios (Int 2)) in
  let s' := step (animationFrame 6001 sample_rand) s in
  exists chosenKey,
    at_index (snapshot s) (random_index sample_rand 0 (length (snapshot s)))
    = Some chosenKey
    /\ chosenKey ∈ snapshot s
    /\ locked s' = true
    /\ List.map fst (touchesData s') = List.map fst (touchesData s)
    /\ (exists chosen,
           obj_get chosenKey (touchesData s') = Some chosen
           /\ TouchData.active chosen = true
           /\ resultOverlay_innerHTML s'
              = winnerText (TouchData.color chosen))
    /\ (forall id data,
           (id, data) ∈ touchesData s' -> id <> chosenKey ->
           TouchData.active data = false)
    /\ length (List.filter (fun e => TouchData.active (snd e)) (touchesData s'))
       = 1.
Proof.
  apply (C2_choose_winner page_radios (Int 2)
           [touchstart [touch 0 10 10; touch 1 20 20; touch 2 30 30] 1000]
           6001 sample_rand); reflexivity.
Defined.

(** * Further properties of the script *)

(** * Further properties of the script *)

(** ** Reading the registry after a write *)
Section ObjectLookup.
Context {V : Type}.
Implicit Types (o : Obj V) (k : Z).

Lemma obj_get_set_eq k (v : V) o : obj_get k (obj_set k v o) = Some v.
Proof.
  unfold obj_get. induction o as [|e o IH]; simpl.
  - by rewrite Z.eqb_refl.
  - destruct (Z.eqb_spec (fst e) k) as [Hk|Hk]; simpl.
    + by rewrite Z.eqb_refl.
    + destruct (Z.eqb_spec (fst e) k); [done | apply IH].
Qed.

Lemma obj_get_set_ne k k' (v : V) o :
  k' <> k -> obj_get k' (obj_set k v o) = obj_get k' o.
Proof.
  intros Hne. unfold obj_get. induction o as [|e o IH]; simpl.
  - destruct (Z.eqb_spec k k'); [congruence | done].
  - destruct (Z.eqb_spec (fst e) k) as [Hk|Hk]; simpl.
    + destruct (Z.eqb_spec k k'); [congruence|].
      destruct (Z.eqb_spec (fst e) k'); [congruence | done].
    + destruct (Z.eqb_spec (fst e) k'); [done | apply IH].
Qed.

Lemma obj_get_delete k k' o :
  obj_get k' (obj_delete k o) = if decide (k' = k) then None else obj_get k' o.
Proof.
  unfold obj_get, obj_delete. induction o as [|e o IH]; simpl.
  - by case_decide.
  - destruct (Z.eqb_spec (fst e) k) as [Hk|Hk]; simpl.
    + rewrite IH. case_decide; [done|].
      destruct (Z.eqb_spec (fst e) k'); [congruence | done].
    + destruct (Z.eqb_spec (fst e) k') as [Hk'|Hk']; simpl.
      * case_decide; [congruence | done].
      * apply IH.
Qed.

Lemma obj_get_modify k k' (f : V -> V) o :
  obj_get k' (obj_modify k f o)
  = (if decide (k' = k) then f else fun v => v) <$> obj_get k' o.
Proof.
  unfold obj_get, obj_modify. induction o as [|e o IH]; simpl.
  - done.
  - destruct (Z.eqb_spec (fst e) k) as [Hk|Hk]; simpl.
    + destruct (Z.eqb_spec (fst e) k') as [Hk'|Hk']; simpl.
      * rewrite decide_True by congruence. done.
      * apply IH.
    + destruct (Z.eqb_spec (fst e) k') as [Hk'|Hk']; simpl.
      * rewrite decide_False by congruence. done.
      * apply IH.
Qed.

Lemma obj_delete_set k (v : V) o :
  k ∉ List.map fst o -> obj_delete k (obj_set k v o) = o.
Proof.
  unfold obj_delete. induction o as [|e o IH]; simpl.
  - intros _. by rewrite Z.eqb_refl.
  - rewrite not_elem_of_cons. intros [Hne Hout].
    destruct (Z.eqb_spec (fst e) k) as [Hk|Hk]; [congruence|]. simpl.
    destruct (Z.eqb_spec (fst e) k); [congruence|]. simpl. by rewrite IH.
Qed.
End ObjectLookup.

(** ** Touch events, one contact at a time *)

(** X1. After a touch start in an open session with room left, the registry
    maps the identifier to the fresh contact and every other identifier to
    what it had; a new identifier comes last in creation order, a known
    one keeps its place. *)
Theorem touchstart_lookup t now s :
  locked s = false -> length (touchesData s) < 10 ->
  let s' := step (touchstart [t] now) s in
  obj_get (identifier t) (touchesData s') = Some (newTouchData t)
  /\ (forall k, k <> identifier t ->
        obj_get k (touchesData s') = obj_get k (touchesData s))
  /\ List.map fst (touchesData s')
     = if decide (identifier t ∈ List.map fst (touchesData s))
       then List.map fst (touchesData s)
       else List.map fst (touchesData s) ++ [identifier t].
Proof.
  intros Hl Hn s'. subst s'. cbn [step]. unfold handleTouchStart.
  rewrite Hl, touchStart_fold. unfold updateLastTouchTime.
  cbn [fold_left]. unfold start_reg.
  change (touchesData (set_showingResult false (set_hintDiv_display DisplayNone s)))
    with (touchesData s).
  rewrite Object_keys_length.
  destruct (Nat.ltb_spec (length (touchesData s)) 10); [|lia].
  set (o' := obj_set _ _ _).
  change (touchesData (set_lastTouchTime now (set_touchesData o' _))) with o'.
  subst o'. split; [apply obj_get_set_eq|]. split.
  - intros k Hk. by apply obj_get_set_ne.
  - case_decide.
    + by apply obj_set_keys_present.
    + by apply obj_set_keys_absent.
Qed.

Lemma touchstart_lookup_witness :
  let s' := step (touchstart [touch 5 1 2] 2000) two_fingers in
  obj_get 5%Z (touchesData s') = Some (newTouchData (touch 5 1 2))
  /\ (forall k, k <> 5%Z ->
        obj_get k (touchesData s') = obj_get k (touchesData two_fingers))
  /\ List.map fst (touchesData s')
     = if decide (5%Z ∈ List.map fst (touchesData two_fingers))
       then List.map fst (touchesData two_fingers)
       else List.map fst (touchesData two_fingers) ++ [5%Z].
Proof.
  apply (touchstart_lookup (touch 5 1 2) 2000 two_fingers);
    [reflexivity | vm_compute; lia].
Defined.

Lemma end_reg_delete o t : end_reg o t = obj_delete (identifier t) o.
Proof.
  unfold end_reg. destruct (obj_get _ _) eqn:Hg; [done|].
  symmetry. by apply obj_delete_absent, obj_get_None.
Qed.

Lemma end_fold_lookup ts o k :
  obj_get k (fold_left end_reg ts o)
  = if decide (k ∈ List.map identifier ts) then None else obj_get k o.
Proof.
  revert o. induction ts as [|t ts IH]; intros o; cbn [fold_left List.map].
  - rewrite decide_False; [done | apply not_elem_of_nil].
  - rewrite IH, end_reg_delete, obj_get_delete.
    destruct (decide (k = identifier t)) as [->|Hne].
    + rewrite (decide_True (P := _ ∈ _ :: _)) by left. by case_decide.
    + destruct (decide (k ∈ List.map identifier ts)) as [Hin|Hout].
      * rewrite decide_True; [done | by right].
      * rewrite decide_False; [done|]. rewrite not_elem_of_cons. done.
Qed.

(** X2. After a touch end or cancel in an open session the registry has no
    entry for the identifiers of the event and maps every other identifier
    to what it had. *)
Theorem touchend_lookup ts now s k :
  locked s = false ->
  obj_get k (touchesData (step (touchend ts now) s))
  = (if decide (k ∈ List.map identifier ts) then None
     else obj_get k (touchesData s))
  /\ touchesData (step (touchcancel ts now) s)
     = touchesData (step (touchend ts now) s).
Proof.
  intros Hl. split; [|done]. cbn [step]. unfold handleTouchEnd.
  rewrite Hl, touchEnd_fold. unfold updateLastTouchTime.
  change (touchesData (set_lastTouchTime now (set_touchesData ?o _))) with o.
  apply end_fold_lookup.
Qed.

Lemma touchend_lookup_witness :
  obj_get 1%Z (touchesData (step (touchend [touch 1 0 0] 2000) two_fingers))
  = (if decide (1%Z ∈ List.map identifier [touch 1 0 0]) then None
     else obj_get 1%Z (touchesData two_fingers))
  /\ touchesData (step (touchcancel [touch 1 0 0] 2000) two_fingers)
     = touchesData (step (touchend [touch 1 0 0] 2000) two_fingers).
Proof. apply touchend_lookup. reflexivity. Defined.

(** X3. A finger that comes down on an open session with room left and lifts
    again leaves the registry as it was before, when its identifier was
    not in use. *)
Theorem touchstart_touchend_roundtrip t t' now now' s :
  locked s = false -> length (touchesData s) < 10 ->
  identifier t ∉ List.map fst (touchesData s) ->
  identifier t' = identifier t ->
  touchesData (run [touchstart [t] now; touchend [t'] now'] s) = touchesData s
  /\ locked (run [touchstart [t] now; touchend [t'] now'] s) = false
  /\ lastTouchTime (run [touchstart [t] now; touchend [t'] now'] s) = now'.
Proof.
  intros Hl Hn Hout Hid. unfold run. cbn [fold_left step].
  unfold handleTouchEnd, handleTouchStart.
  rewrite Hl, touchStart_fold. unfold updateLastTouchTime.
  change (locked (set_lastTouchTime now (set_touchesData ?o
            (set_showingResult false (set_hintDiv_display DisplayNone s)))))
    with (locked s).
  rewrite Hl, touchEnd_fold.
  split; [|done].
  change (touchesData (set_lastTouchTime now' (set_touchesData ?o _))) with o.
  cbn [fold_left].
  change (touchesData (set_showingResult false (set_lastTouchTime now
            (set_touchesData ?o _)))) with o.
  change (touchesData (set_showingResult false (set_hintDiv_display DisplayNone s)))
    with (touchesData s).
  rewrite end_reg_delete, Hid. unfold start_reg.
  rewrite Object_keys_length.
  destruct (Nat.ltb_spec (length (touchesData s)) 10); [|lia].
  by apply obj_delete_set.
Qed.

Lemma touchstart_touchend_roundtrip_witness :
  touchesData (run [touchstart [touch 5 1 2] 2000; touchend [touch 5 3 4] 2500]
                 two_fingers)
  = touchesData two_fingers
  /\ locked (run [touchstart [touch 5 1 2] 2000; touchend [touch 5 3 4] 2500]
               two_fingers) = false
  /\ lastTouchTime (run [touchstart [touch 5 1 2] 2000; touchend [touch 5 3 4] 2500]
                      two_fingers) = 2500%Z.
Proof.
  apply touchstart_touchend_roundtrip;
    [reflexivity | vm_compute; lia | | reflexivity].
  apply (bool_decide_unpack _). vm_compute. exact I.
Defined.

(** X4. A touch move in an open session gives a known contact exactly the
    coordinates of the event and changes nothing else of it; for an
    identifier that is not in the registry it changes nothing at all. *)
Theorem touchmove_lookup t s :
  locked s = false ->
  obj_get (identifier t) (touchesData (step (touchmove [t]) s))
  = (fun d => TouchData.set_y (clientY t) (TouchData.set_x (clientX t) d))
      <$> obj_get (identifier t) (touchesData s)
  /\ (forall k, k <> identifier t ->
        obj_get k (touchesData (step (touchmove [t]) s))
        = obj_get k (touchesData s))
  /\ (obj_get (identifier t) (touchesData s) = None ->
      step (touchmove [t]) s = s).
Proof.
  intros Hl. cbn [step]. unfold handleTouchMove. rewrite Hl.
  split; [|split].
  - rewrite touchMove_fold. cbn [fold_left].
    change (touchesData (set_touchesData ?o s)) with o.
    unfold move_reg. destruct (obj_get (identifier t) (touchesData s)) eqn:Hg.
    + rewrite !obj_get_modify, Hg, !decide_True by done. done.
    + by rewrite Hg.
  - intros k Hk. rewrite touchMove_fold. cbn [fold_left].
    change (touchesData (set_touchesData ?o s)) with o.
    unfold move_reg. destruct (obj_get (identifier t) (touchesData s)); [|done].
    rewrite !obj_get_modify, !decide_False by done.
    by destruct (obj_get k (touchesData s)).
  - intros Hg. cbn [fold_left]. unfold touchMove_one. by rewrite Hg.
Qed.

Lemma touchmove_lookup_witness :
  obj_get 1%Z (touchesData (step (touchmove [touch 1 25 26]) two_fingers))
  = (fun d => TouchData.set_y 26 (TouchData.set_x 25 d))
      <$> obj_get 1%Z (touchesData two_fingers)
  /\ (forall k, k <> 1%Z ->
        obj_get k (touchesData (step (touchmove [touch 1 25 26]) two_fingers))
        = obj_get k (touchesData two_fingers))
  /\ (obj_get 1%Z (touchesData two_fingers) = None ->
      step (touchmove [touch 1 25 26]) two_fingers = two_fingers).
Proof. apply (touchmove_lookup (touch 1 25 26) two_fingers). reflexivity. Defined.

(** ** Several fingers in one event *)

Lemma start_fold_full ts o :
  10 <= length o -> fold_left start_reg ts o = o.
Proof.
  intros H. induction ts as [|t ts IH]; simpl; [done|].
  by rewrite start_reg_full.
Qed.

Lemma start_fold_keys ts o :
  NoDup (List.map fst o ++ List.map identifier ts) ->
  List.map fst (fold_left start_reg ts o)
  = List.map fst o ++ take (10 - length o) (List.map identifier ts).
Proof.
  revert o. induction ts as [|t ts IH]; intros o Hnd; cbn [fold_left List.map].
  - by rewrite take_nil, app_nil_r.
  - destruct (Nat.lt_ge_cases (length o) 10) as [Hlt|Hge].
    + assert (Hout : identifier t ∉ List.map fst o).
      { apply NoDup_app in Hnd as (_ & Hdisj & _). intros Hin.
        apply (Hdisj _ Hin). left. }
      assert (Hstep : List.map fst (start_reg o t)
                      = List.map fst o ++ [identifier t]).
      { unfold start_reg. rewrite Object_keys_length.
        destruct (Nat.ltb_spec (length o) 10); [|lia].
        by apply obj_set_keys_absent. }
      rewrite IH.
      * rewrite Hstep, <- app_assoc. f_equal.
        rewrite (map_fst_length (start_reg o t) (o ++ [(identifier t, newTouchData t)])).
        2:{ rewrite Hstep, List.map_app. done. }
        rewrite length_app. simpl.
        replace (10 - length o) with (S (10 - (length o + 1))) by lia. done.
      * rewrite Hstep, <- app_assoc. done.
    + rewrite start_reg_full, start_fold_full by done.
      replace (10 - length o) with 0 by lia. by rewrite take_0, app_nil_r.
Qed.

(** X5. A touch start event that brings several new fingers at once admits
    them in the order of the event until the registry holds ten, and drops
    the rest. *)
Theorem touchstart_fills_in_order ts now s :
  locked s = false ->
  NoDup (List.map fst (touchesData s) ++ List.map identifier ts) ->
  List.map fst (touchesData (step (touchstart ts now) s))
  = List.map fst (touchesData s)
      ++ take (10 - length (touchesData s)) (List.map identifier ts).
Proof.
  intros Hl Hnd. cbn [step]. unfold handleTouchStart.
  rewrite Hl, touchStart_fold. unfold updateLastTouchTime.
  change (touchesData (set_lastTouchTime now (set_touchesData ?o _))) with o.
  by apply start_fold_keys.
Qed.

Lemma touchstart_fills_in_order_witness :
  List.map fst (touchesData (step (touchstart ten_touches 2000)
                               (run [touchstart [touch 20 1 1; touch 30 2 2] 1000]
                                  (initial page_radios (Int 2)))))
  = [20; 30; 0; 1; 2; 3; 4; 5; 6; 7]%Z.
Proof.
  rewrite (touchstart_fills_in_order ten_touches 2000
             (run [touchstart [touch 20 1 1; touch 30 2 2] 1000]
                (initial page_radios (Int 2)))); [reflexivity | reflexivity |].
  apply (bool_decide_unpack _). vm_compute. exact I.
Defined.

(** ** The palette *)

(** X6. Every identifier that is not negative gets a colour of the palette,
    the one at index [id mod 10]; the colour has a friendly name, which is
    what the result text shows; identifiers ten apart share their colour. *)
Theorem palette_nonnegative (id : Z) :
  (0 <= id)%Z ->
  (exists c name,
      color_of id = Some c
      /\ COLORS !! Z.to_nat (id mod 10) = Some c
      /\ (c, name) ∈ COLOR_NAMES
      /\ getColorName (Some c) = Some name)
  /\ color_of (id + 10) = color_of id.
Proof.
  intros Hid. unfold color_of.
  change (Z.of_nat (length COLORS)) with 10%Z.
  rewrite !Z.rem_mod_nonneg by lia.
  replace ((id + 10) mod 10)%Z with (id mod 10)%Z
    by (rewrite <- (Z.mul_1_l 10) at 2; by rewrite Z.mod_add).
  split; [|done].
  pose proof (Z.mod_pos_bound id 10 eq_refl) as Hr.
  destruct (Z.ltb_spec (id mod 10) 0); [lia|].
  set (r := (id mod 10)%Z) in *.
  assert (Hcases : (r = 0 \/ r = 1 \/ r = 2 \/ r = 3 \/ r = 4 \/ r = 5
                    \/ r = 6 \/ r = 7 \/ r = 8 \/ r = 9)%Z) by lia.
  clearbody r.
  destruct Hcases as [->|[->|[->|[->|[->|[->|[->|[->|[->| ->]]]]]]]]];
    (eexists _, _; split; [reflexivity|]; split; [reflexivity|];
     split; [|reflexivity]; apply list_elem_of_In; simpl; auto 12).
Qed.

Lemma palette_nonnegative_witness :
  (exists c name,
      color_of 13 = Some c
      /\ COLORS !! Z.to_nat (13 mod 10) = Some c
      /\ (c, name) ∈ COLOR_NAMES
      /\ getColorName (Some c) = Some name)
  /\ color_of (13 + 10) = color_of 13.
Proof. apply palette_nonnegative. lia. Defined.



(** ** What is shown, and when *)

Lemma lock_outcome_showing now s c :
  lock_outcome now s c -> showingResult (result_of c) = true.
Proof.
  destruct 1 as [_|o tm html disp _|o tm html disp _]; [done| |done].
  cbn [result_of].
  by rewrite (proj1 (proj2 (proj2 (scheduleReset_fields _ _)))).
Qed.

Lemma Inv_result_initial radios count : Inv_result (initial radios count).
Proof. by split. Qed.

Lemma resetAll_Inv_result s : Inv_result (resetAll s).
Proof.
  destruct (resetAll_fields s) as (_ & Hs & Hl & _ & Ht & _ & Hd & Hh & _).
  split; rewrite ?Hs, ?Hl, ?Ht, ?Hd, ?Hh; done.
Qed.

Lemma frame_prelude_fields s :
  locked (frame_prelude s) = locked s
  /\ showingResult (frame_prelude s) = showingResult s
  /\ teams (frame_prelude s) = teams s
  /\ resultOverlay_innerHTML (frame_prelude s) = resultOverlay_innerHTML s
  /\ resultOverlay_display (frame_prelude s) = resultOverlay_display s
  /\ lastTouchTime (frame_prelude s) = lastTouchTime s
  /\ resultTimer (frame_prelude s) = resultTimer s
  /\ timeouts (frame_prelude s) = timeouts s
  /\ modeRadios (frame_prelude s) = modeRadios s
  /\ countInput_value (frame_prelude s) = countInput_value s.
Proof. done. Qed.

Lemma drawLoop_Inv_result now rand s :
  Inv_result s -> Inv_result (result_of (drawLoop now rand s)).
Proof.
  intros [Hf Ht Hx Hd].
  destruct (drawLoop_cases now rand s) as [(_ & _ & ->) | ->];
    [cbn [result_of]; split; by auto|].
  destruct (inactive now s) eqn:Hin.
  - pose proof (lockAndShowResult_outcome now rand (frame_prelude s)) as Ho.
    pose proof (lock_outcome_locked _ _ _ Ho) as Hl.
    pose proof (lock_outcome_showing _ _ _ Ho) as Hs.
    destruct (lockAndShowResult _ _ _) as [r|r]; cbn [result_of] in *.
    + split; rewrite ?(proj1 (proj2 (set_frameRequested_fields _ _)));
        [|rewrite Hl; done..].
      change (showingResult (set_frameRequested true r)) with (showingResult r).
      by rewrite Hs, Hl.
    + split; rewrite ?Hl, ?Hs; done.
  - cbn [result_of]. split; by auto.
Qed.

Lemma step_Inv_result e s : Inv_result s -> Inv_result (step e s).
Proof.
  intros HI. destruct e as [ts now|ts|ts now|ts now|now rand|h now|i|v];
    cbn [step].
  - unfold handleTouchStart. destruct (locked s) eqn:Hl; [done|].
    destruct HI as [Hf Ht Hx Hd]. rewrite touchStart_fold.
    split; unfold updateLastTouchTime; simpl; rewrite ?Hl; auto.
  - unfold handleTouchMove. destruct (locked s) eqn:Hl; [done|].
    destruct HI as [Hf Ht Hx Hd]. rewrite touchMove_fold.
    split; simpl; rewrite ?Hl; auto. congruence.
  - unfold handleTouchEnd. destruct (locked s) eqn:Hl; [done|].
    destruct HI as [Hf Ht Hx Hd]. rewrite touchEnd_fold.
    split; unfold updateLastTouchTime; simpl; rewrite ?Hl; auto.
  - unfold handleTouchEnd. destruct (locked s) eqn:Hl; [done|].
    destruct HI as [Hf Ht Hx Hd]. rewrite touchEnd_fold.
    split; unfold updateLastTouchTime; simpl; rewrite ?Hl; auto.
  - destruct (frameRequested s); [|done].
    apply drawLoop_Inv_result. by destruct HI.
  - destruct (List.find _ _) as [[h' due]|]; [|done].
    destruct (due <=? now)%Z; [|done]. apply resetAll_Inv_result.
  - destruct (_ <? _)%nat; [|done]. apply resetAll_Inv_result.
  - apply resetAll_Inv_result.
Qed.

Lemma run_Inv_result evs s : Inv_result s -> Inv_result (run evs s).
Proof.
  revert s. induction evs as [|e evs IH]; intros s HI; simpl; [done|].
  apply IH. by apply step_Inv_result.
Qed.

(** X8. After any sequence of events, a result is shown exactly when the
    session is locked: the two flags of the script are always equal. *)
Theorem showingResult_iff_locked radios count evs :
  showingResult (run evs (initial radios count))
  = locked (run evs (initial radios count)).
Proof. apply res_flags, run_Inv_result, Inv_result_initial. Qed.

(** X9. After any sequence of events, a session that is not locked holds no
    result of an earlier round: no teams, an empty result text, and a
    result overlay that is not displayed. *)
Theorem no_result_while_unlocked radios count evs :
  let s := run evs (initial radios count) in
  locked s = false ->
  teams s = []
  /\ resultOverlay_innerHTML s = EmptyString
  /\ resultOverlay_display s <> DisplayBlock.
Proof.
  intros s Hl.
  assert (HI : Inv_result s) by apply run_Inv_result, Inv_result_initial.
  destruct HI as [_ Ht Hx Hd]. auto.
Qed.

Lemma no_result_while_unlocked_witness :
  let s := run [ touchstart [touch 0 10 10; touch 1 20 20; touch 2 30 30] 1000;
                 animationFrame 6001 sample_rand;
                 timeout 1 16001;
                 touchstart [touch 4 1 1] 17000 ]
             (initial page_radios (Int 2)) in
  teams s = []
  /\ resultOverlay_innerHTML s = EmptyString
  /\ resultOverlay_display s <> DisplayBlock.
Proof.
  apply (no_result_while_unlocked page_radios (Int 2)
           [ touchstart [touch 0 10 10; touch 1 20 20; touch 2 30 30] 1000;
             animationFrame 6001 sample_rand;
             timeout 1 16001;
             touchstart [touch 4 1 1] 17000 ]).
  reflexivity.
Defined.

(** ** Frames of animation *)

Lemma animated_refl e : animated e e.
Proof. unfold animated. by repeat split. Qed.

Lemma animated_trans a b c : animated a b -> animated b c -> animated a c.
Proof.
  intros (H1 & H2 & H3 & H4 & H5 & H6) (G1 & G2 & G3 & G4 & G5 & G6).
  repeat split; try congruence.
  intros Ha. rewrite G6; [by apply H6|]. congruence.
Qed.

Lemma animated_animate e : animated e (fst e, animate (snd e)).
Proof.
  unfold animate, animated.
  destruct (TouchData.active (snd e)) eqn:Ha; simpl.
  - by repeat split.
  - repeat split; try done. intros _. by destruct e.
Qed.

Lemma animate_fold_animated ks o :
  Forall2 animated o (fold_left animate_reg ks o).
Proof.
  revert o. induction ks as [|k ks IH]; intros o; cbn [fold_left].
  - rewrite <- (List.map_id o) at 2. apply Forall2_map_r, animated_refl.
  - eapply Forall2_compose; [apply animated_trans| |apply IH].
    unfold animate_reg, obj_modify. apply Forall2_map_r. intros e.
    destruct (fst e =? k)%Z; [apply animated_animate | apply animated_refl].
Qed.

(** X10. A frame on a locked session leaves the result as it is: the registry
    keeps its keys and every contact its position, colour and [active]
    flag (an inactive contact is not touched at all), and the teams, the
    result text, the flags, the activity clock and the reset timer stay. *)
Theorem frame_keeps_locked_result now rand s :
  locked s = true ->
  let s' := step (animationFrame now rand) s in
  Forall2 animated (touchesData s) (touchesData s')
  /\ teams s' = teams s
  /\ resultOverlay_innerHTML s' = resultOverlay_innerHTML s
  /\ resultOverlay_display s' = resultOverlay_display s
  /\ locked s' = true
  /\ showingResult s' = showingResult s
  /\ lastTouchTime s' = lastTouchTime s
  /\ resultTimer s' = resultTimer s
  /\ timeouts s' = timeouts s.
Proof.
  intros Hl s'. subst s'. cbn [step].
  destruct (frameRequested s) eqn:Hf.
  2:{ split; [|by repeat split].
      rewrite <- (List.map_id (touchesData s)) at 2.
      apply Forall2_map_r, animated_refl. }
  assert (Hin : inactive now (set_frameRequested false s) = false).
  { unfold inactive. cbn [locked set_frameRequested]. by rewrite Hl. }
  destruct (drawLoop_still now rand _ Hin) as [b ->].
  destruct (frame_prelude_fields (set_frameRequested false s))
    as (F1 & F2 & F3 & F4 & F5 & F6 & F7 & F8 & _).
  set (p := frame_prelude (set_frameRequested false s)) in *.
  assert (Hreg : touchesData p
                 = fold_left animate_reg (Object_keys (touchesData s)) (touchesData s))
    by done.
  clearbody p.
  change (touchesData (set_frameRequested b p)) with (touchesData p).
  rewrite Hreg. split; [apply animate_fold_animated|].
  change (teams (set_frameRequested b p)) with (teams p).
  change (resultOverlay_innerHTML (set_frameRequested b p))
    with (resultOverlay_innerHTML p).
  change (resultOverlay_display (set_frameRequested b p))
    with (resultOverlay_display p).
  change (locked (set_frameRequested b p)) with (locked p).
  change (showingResult (set_frameRequested b p)) with (showingResult p).
  change (lastTouchTime (set_frameRequested b p)) with (lastTouchTime p).
  change (resultTimer (set_frameRequested b p)) with (resultTimer p).
  change (timeouts (set_frameRequested b p)) with (timeouts p).
  rewrite F1, F2, F3, F4, F5, F6, F7, F8.
  cbn [locked showingResult teams resultOverlay_innerHTML resultOverlay_display
       lastTouchTime resultTimer timeouts set_frameRequested].
  by rewrite Hl.
Qed.

Lemma frame_keeps_locked_result_witness :
  let s' := step (animationFrame 7000 sample_rand) locked_session in
  Forall2 animated (touchesData locked_session) (touchesData s')
  /\ teams s' = teams locked_session
  /\ resultOverlay_innerHTML s' = resultOverlay_innerHTML locked_session
  /\ resultOverlay_display s' = resultOverlay_display locked_session
  /\ locked s' = true
  /\ showingResult s' = showingResult locked_session
  /\ lastTouchTime s' = lastTouchTime locked_session
  /\ resultTimer s' = resultTimer locked_session
  /\ timeouts s' = timeouts locked_session.
Proof. apply (frame_keeps_locked_result 7000 sample_rand locked_session). reflexivity. Defined.

Lemma animate_fold_map ks o :
  NoDup ks ->
  fold_left animate_reg ks o
  = List.map (fun e => if bool_decide (fst e ∈ ks)
                       then (fst e, animate (snd e)) else e) o.
Proof.
  intros Hnd. revert o. induction Hnd as [|k ks Hk Hnd IH]; intros o;
    cbn [fold_left].
  - rewrite <- (List.map_id o) at 1. apply List.map_ext. intros e.
    rewrite bool_decide_eq_false_2; [done | apply not_elem_of_nil].
  - rewrite IH. unfold animate_reg, obj_modify. rewrite List.map_map.
    apply List.map_ext. intros e.
    destruct (Z.eqb_spec (fst e) k) as [Hek|Hek]; cbn [fst snd].
    + rewrite bool_decide_eq_false_2 by (by rewrite Hek).
      rewrite bool_decide_eq_true_2; [done | rewrite Hek; left].
    + apply (f_equal (fun b : bool => if b then _ else _)).
      apply bool_decide_ext. rewrite elem_of_cons. intuition congruence.
Qed.

Lemma animate_all o :
  NoDup (List.map fst o) ->
  fold_left animate_reg (Object_keys o) o
  = List.map (fun e => (fst e, animate (snd e))) o.
Proof.
  intros Hnd. rewrite animate_fold_map by by apply Object_keys_NoDup.
  apply map_ext_in. intros e He.
  rewrite bool_decide_eq_true_2; [done|].
  apply Object_keys_elem, list_elem_of_In, List.in_map, He.
Qed.

(** X11. After any sequence of events, a frame that does not lock advances
    every active contact by exactly one step of animation (one more
    addition of 0.05 to the angle, and the radius computed from it) and
    leaves every inactive contact alone. *)
Theorem frame_animates_once radios count evs now rand :
  let s := run evs (initial radios count) in
  frameRequested s = true -> inactive now s = false ->
  touchesData (step (animationFrame now rand) s)
  = List.map (fun e => (fst e, animate (snd e))) (touchesData s)
  /\ (forall d, TouchData.active d = true ->
        TouchData.angle (animate d) = S (TouchData.angle d)
        /\ TouchData.radius (animate d) = RadiusPulse (S (TouchData.angle d)))
  /\ (forall d, TouchData.active d = false -> animate d = d).
Proof.
  intros s Hf Hin. split.
  - cbn [step]. rewrite Hf.
    assert (Hin' : inactive now (set_frameRequested false s) = false) by done.
    destruct (drawLoop_still now rand _ Hin') as [b ->].
    change (touchesData (set_frameRequested b (frame_prelude (set_frameRequested false s))))
      with (fold_left animate_reg (Object_keys (touchesData s)) (touchesData s)).
    apply animate_all.
    apply (reg_keys _ (inv_reg _ (run_Inv evs _ (Inv_initial radios count)))).
  - split; intros d Hd; unfold animate; rewrite Hd; done.
Qed.

Lemma frame_animates_once_witness :
  touchesData (step (animationFrame 1500 sample_rand) two_fingers)
  = List.map (fun e => (fst e, animate (snd e))) (touchesData two_fingers)
  /\ (forall d, TouchData.active d = true ->
        TouchData.angle (animate d) = S (TouchData.angle d)
        /\ TouchData.radius (animate d) = RadiusPulse (S (TouchData.angle d)))
  /\ (forall d, TouchData.active d = false -> animate d = d).
Proof.
  apply (frame_animates_once page_radios (Int 2)
           [touchstart [touch 0 10 10; touch 1 20 20] 1000] 1500 sample_rand);
    reflexivity.
Defined.

(** ** What a frame draws *)

Lemma draw_fold_state ks s out :
  fst (fold_left draw_one ks (s, out)) = fold_left animate_one ks s.
Proof.
  revert s out. induction ks as [|k ks IH]; intros s out; cbn [fold_left]; [done|].
  unfold draw_one at 2. cbn [fst snd]. apply IH.
Qed.

(** What the loop draws for the key [id], read off the registry [o]. *)
Lemma animate_fold_lookup ks o k :
  k ∉ ks -> obj_get k (fold_left animate_reg ks o) = obj_get k o.
Proof.
  revert o. induction ks as [|k' ks IH]; intros o Hk; cbn [fold_left]; [done|].
  rewrite not_elem_of_cons in Hk. destruct Hk as [Hne Hk].
  rewrite IH by done. unfold animate_reg.
  rewrite obj_get_modify, decide_False by done.
  by destruct (obj_get k o).
Qed.

Lemma flat_map_ext_elem {A B} (f g : A -> list B) (l : list A) :
  (forall a, a ∈ l -> f a = g a) -> flat_map f l = flat_map g l.
Proof.
  induction l as [|a l IH]; intros H; cbn [flat_map]; [done|].
  rewrite (H a) by left. rewrite IH; [done|]. intros b Hb. apply H. by right.
Qed.

Lemma draw_fold_aims ks s out :
  NoDup ks ->
  snd (fold_left draw_one ks (s, out))
  = out ++ flat_map (fun id =>
             match obj_get id (touchesData s) with
             | Some data =>
                 if TouchData.active data then drawAim (animate data) else []
             | None => []
             end) ks.
Proof.
  intros Hnd. revert s out. induction Hnd as [|k ks Hk Hnd IH]; intros s out;
    cbn [fold_left flat_map].
  - by rewrite app_nil_r.
  - unfold draw_one at 2. cbn [fst snd]. rewrite IH, <- app_assoc.
    f_equal. f_equal. apply flat_map_ext_elem. intros id Hid.
    assert (Hne : id <> k) by (intros ->; done).
    unfold animate_one. cbn [touchesData set_touchesData].
    rewrite obj_get_modify, decide_False by done.
    by destruct (obj_get id (touchesData s)).
Qed.

Lemma flat_map_perm {A B} (f : A -> list B) (l l' : list A) :
  l ≡ₚ l' -> flat_map f l ≡ₚ flat_map f l'.
Proof.
  induction 1 as [|a l l' _ IH|a b l|l1 l2 l3 _ IH1 _ IH2]; cbn [flat_map].
  - done.
  - by rewrite IH.
  - rewrite !app_assoc. by rewrite (Permutation_app_comm (f b) (f a)).
  - by etrans.
Qed.

(** The aim drawn for the key [id] of the registry [o]. *)
Lemma aims_length (o : Obj TouchData.t) :
  NoDup (List.map fst o) ->
  length (flat_map (fun id =>
            match obj_get id o with
            | Some data =>
                if TouchData.active data then drawAim (animate data) else []
            | None => []
            end) (Object_keys o))
  = length (List.filter (fun e => TouchData.active (snd e)) o).
Proof.
  intros Hnd. rewrite (flat_map_perm _ _ _ (Object_keys_perm o)).
  assert (Hgen : forall o', (forall e, e ∈ o' -> obj_get (fst e) o = Some (snd e)) ->
            length (flat_map (fun id =>
                      match obj_get id o with
                      | Some data =>
                          if TouchData.active data then drawAim (animate data) else []
                      | None => []
                      end) (List.map fst o'))
            = length (List.filter (fun e => TouchData.active (snd e)) o')).
  { induction o' as [|e o' IH]; intros He; cbn [List.map flat_map List.filter]; [done|].
    rewrite length_app, (He e) by left.
    rewrite IH by (intros e' He'; apply He; by right).
    by destruct (TouchData.active (snd e)). }
  apply Hgen. intros [k d] He. by apply obj_get_elem.
Qed.

Lemma flat_map_single {A B} (f : A -> list B) (l : list A) :
  length (flat_map f l) = 1 ->
  exists a, a ∈ l /\ flat_map f l = f a.
Proof.
  induction l as [|a l IH]; cbn [flat_map]; [done|].
  rewrite length_app. intros Hlen.
  destruct (flat_map f l) as [|b rest] eqn:Hrest.
  - exists a. split; [left | by rewrite app_nil_r].
  - destruct (f a) as [|c fa] eqn:Hfa; [|simpl in Hlen; lia].
    destruct IH as (a' & Ha' & Heq); [done|].
    exists a'. split; [by right|]. by rewrite app_nil_l.
Qed.



(** *** Drawing that throws, drawing that does not *)


Lemma draw_each_Throw {A} (body : A -> Completion (list DrawCmd)) l a c :
  a ∈ l -> body a = Throw c -> exists c', draw_each body l = Throw c'.
Proof.
  intros Ha Hc. induction l as [|b l IH]; [by apply elem_of_nil in Ha|].
  cbn [draw_each]. destruct (body b) as [cb|cb] eqn:Hb; [|by eexists].
  apply elem_of_cons in Ha as [->|Ha]; [congruence|].
  destruct (IH Ha) as [c' ->]. by eexists.
Qed.



(** A team of two or more with a contact whose colour does not parse:
    the double loop throws. *)
Lemma linesAmong_Throw (l : list TouchData.t) t :
  2 <= length l -> t ∈ l -> TouchData.color t = None ->
  exists c, linesAmong l = Throw c.
Proof.
  intros Hlen Ht Hc. destruct l as [|t1 [|t2 rest]]; cbn [length] in Hlen;
    [lia | lia |].
  cbn [linesAmong].
  assert (Hrow : exists c, draw_each (drawLineBetween t1) (t2 :: rest) = Throw c).
  { destruct (TouchData.color t1) as [c1|] eqn:H1.
    - apply elem_of_cons in Ht as [->|Ht]; [congruence|].
      apply (draw_each_Throw _ _ t []); [done|].
      unfold drawLineBetween. by rewrite H1, Hc.
    - apply (draw_each_Throw _ _ t2 []); [left|].
      unfold drawLineBetween. by rewrite H1. }
  destruct Hrow as [c ->]. by eexists.
Qed.




(** *** Locked sessions, by mode *)

Lemma animated_keys o o' :
  Forall2 animated o o' -> List.map fst o' = List.map fst o.
Proof.
  induction 1 as [|e e' o o' He _ IH]; cbn [List.map]; [done|].
  destruct He as (-> & _). by rewrite IH.
Qed.

Lemma animated_filter_length o o' :
  Forall2 animated o o' ->
  length (List.filter (fun e => TouchData.active (snd e)) o')
  = length (List.filter (fun e => TouchData.active (snd e)) o).
Proof.
  induction 1 as [|e e' o o' He _ IH]; cbn [List.filter]; [done|].
  destruct He as (_ & _ & _ & _ & -> & _).
  destruct (TouchData.active (snd e)); simpl; by rewrite IH.
Qed.

Lemma animated_all_active o o' :
  Forall2 animated o o' -> all_active o -> all_active o'.
Proof.
  unfold all_active.
  induction 1 as [|e e' o o' He _ IH]; [done|].
  intros Ha. apply Forall_cons in Ha as [Hae Ha]. constructor; [|auto].
  destruct He as (_ & _ & _ & _ & -> & _). done.
Qed.

Lemma Inv_locked_unlocked s : locked s = false -> Inv_locked s.
Proof. intros Hl. split; intros H; congruence. Qed.

Lemma deactivated_entries ck ks (o : Obj TouchData.t) :
  all_active o -> (forall e, e ∈ o -> fst e ∈ ks) ->
  forall e', e' ∈ List.map (deactivated (Some ck) ks) o ->
  TouchData.active (snd e') = bool_decide (fst e' = ck).
Proof.
  intros Hact Hks e' He'. apply list_elem_of_fmap in He' as (e & -> & He).
  pose proof (proj1 (Forall_forall _ _) Hact e He) as Hae. cbn beta in Hae.
  unfold deactivated. case_bool_decide as Hb; cbn [fst snd].
  - destruct Hb as [_ Hb]. rewrite bool_decide_eq_false_2; [done | congruence].
  - rewrite bool_decide_eq_true_2; [done|].
    destruct (decide (fst e = ck)); [done|].
    exfalso. apply Hb. split; [by apply Hks | congruence].
Qed.

Lemma lock_config now s c :
  lock_outcome now s c ->
  modeRadios (result_of c) = modeRadios s
  /\ countInput_value (result_of c) = countInput_value s.
Proof.
  destruct 1 as [_|o tm html disp _|o tm html disp _]; [done| |done].
  cbn [result_of]. unfold scheduleReset, setTimeout_resultTimer, clearTimeout.
  set (X := show o tm html disp (lock_flags s)).
  assert (HX : modeRadios X = modeRadios s /\ countInput_value X = countInput_value s)
    by done.
  clearbody X. destruct (resultTimer X); simpl; done.
Qed.

Lemma lock_registry_not_choose now rand s :
  getCurrentMode s <> "choose"%string ->
  touchesData (result_of (lockAndShowResult now rand s)) = touchesData s.
Proof.
  intros Hmode. unfold lockAndShowResult. fold (lock_flags s).
  change (touchesData (lock_flags s)) with (touchesData s).
  change (getCurrentMode (lock_flags s)) with (getCurrentMode s).
  destruct (length (Object_keys (touchesData s)) =? 0); [done|].
  destruct (String.eqb_spec (getCurrentMode s) "choose"); [done|].
  destruct (String.eqb (getCurrentMode s) "team").
  - destruct (lock_team_shape rand (Object_keys (touchesData s)) (lock_flags s))
      as (tm & html & disp & [-> | ->]); cbn [result_of];
      rewrite ?(proj1 (scheduleReset_fields _ _)); done.
  - cbn [result_of]. by rewrite (proj1 (scheduleReset_fields _ _)).
Qed.

Lemma lock_choose_one_active now rand s :
  Inv s -> locked s = false -> touchesData s <> [] ->
  getCurrentMode s = "choose"%string ->
  length (List.filter (fun e => TouchData.active (snd e))
            (touchesData (result_of (lockAndShowResult now rand s)))) = 1.
Proof.
  intros HI Hl Hne Hmode.
  destruct (lockAndShowResult_choose now rand s Hne
              (reg_size _ (inv_reg _ HI)) Hmode)
    as (ck & chosen & Hat & Hkey & Hget & ->).
  cbn [result_of]. rewrite (proj1 (scheduleReset_fields _ _)).
  set (o' := List.map (deactivated (Some ck) (snapshot s)) (touchesData s)).
  change (touchesData (set_resultOverlay_display DisplayBlock
            (set_resultOverlay_innerHTML (winnerText (TouchData.color chosen))
               (set_touchesData o' (lock_flags s))))) with o'.
  assert (Hkeys : List.map fst o' = List.map fst (touchesData s))
    by apply deactivated_keys.
  apply (filter_one_key o' ck).
  - rewrite Hkeys. apply (reg_keys _ (inv_reg _ HI)).
  - rewrite Hkeys. by apply Object_keys_elem.
  - apply deactivated_entries; [by apply inv_active|].
    intros e He. apply Object_keys_elem. by apply (list_elem_of_fmap_2 fst).
Qed.

Lemma lock_team_members now rand s k :
  touchesData s <> [] -> getCurrentMode s = "team"%string ->
  countInput_value s = Int k ->
  List.map member_id (concat (teams (result_of (lockAndShowResult now rand s))))
  ≡ₚ snapshot s.
Proof.
  intros Hne Hmode Hcount.
  destruct (lockAndShowResult_team now rand s k Hne Hmode Hcount)
    as (teams' & Hd & ->).
  cbn [result_of].
  rewrite (proj1 (proj2 (proj2 (proj2 (scheduleReset_fields _ _))))).
  change (teams (set_resultOverlay_display DisplayBlock
            (set_resultOverlay_innerHTML (resultText teams')
               (set_teams teams' (lock_flags s))))) with teams'.
  rewrite (dealt_all _ _ _ Hd), shuffle_perm, List.map_map. simpl.
  by rewrite List.map_id.
Qed.

Lemma handlers_locked ts now s :
  locked (handleTouchStart ts now s) = locked s
  /\ locked (handleTouchMove ts s) = locked s
  /\ locked (handleTouchEnd ts now s) = locked s.
Proof.
  unfold handleTouchStart, handleTouchMove, handleTouchEnd, updateLastTouchTime.
  rewrite touchStart_fold, touchMove_fold, touchEnd_fold.
  by destruct (locked s) eqn:Hl.
Qed.

Lemma handlers_when_locked ts now s :
  locked s = true ->
  handleTouchStart ts now s = s /\ handleTouchMove ts s = s
  /\ handleTouchEnd ts now s = s.
Proof.
  intros Hl. unfold handleTouchStart, handleTouchMove, handleTouchEnd.
  by rewrite Hl.
Qed.

Lemma getCurrentMode_radios s s' :
  modeRadios s' = modeRadios s -> getCurrentMode s' = getCurrentMode s.
Proof. unfold getCurrentMode. by intros ->. Qed.

Lemma frame_Inv_locked now rand s :
  Inv s -> Inv_result s -> Inv_locked s ->
  Inv_locked (result_of (drawLoop now rand s)).
Proof.
  intros HI HR HL.
  pose proof (frame_prelude_Inv s HI) as HP.
  destruct (frame_prelude_fields s)
    as (F1 & F2 & F3 & _ & _ & _ & _ & _ & F9 & F10).
  pose proof (frame_prelude_keys s) as Fk.
  assert (Fa : Forall2 animated (touchesData s) (touchesData (frame_prelude s)))
    by apply animate_fold_animated.
  destruct (drawLoop_split now rand s) as [[Hin ->] | [Hin [b ->]]];
    set (p := frame_prelude s) in *; clearbody p.
  - pose proof (inactive_unlocked _ _ Hin) as Hl.
    pose proof (proj1 (inactive_iff now s) Hin) as (_ & _ & Hne & _).
    assert (Hne' : touchesData p <> []).
    { intros H0. apply Hne. apply (f_equal (List.map fst)) in H0.
      rewrite Fk in H0. by destruct (touchesData s). }
    assert (Hlp : locked p = false) by congruence.
    pose proof (lockAndShowResult_outcome now rand p) as Ho.
    pose proof (lock_config _ _ _ Ho) as [Hm Hc].
    pose proof (lock_choose_one_active now rand p HP Hlp Hne') as Hone.
    pose proof (lock_registry_not_choose now rand p) as Hreg.
    pose proof (lock_team_members now rand p) as Hteam.
    assert (Hmode : getCurrentMode (result_of (lockAndShowResult now rand p))
                    = getCurrentMode p) by by apply getCurrentMode_radios.
    assert (Hgoal : Inv_locked (result_of (lockAndShowResult now rand p))).
    { split.
      - intros _ Hch. apply Hone. congruence.
      - intros _ Hch. rewrite Hreg by congruence. by apply inv_active.
      - intros _ Htm k Hk. unfold snapshot. rewrite Hreg by congruence.
        apply (Hteam k Hne'); congruence. }
    destruct (lockAndShowResult now rand p) as [r|r]; cbn [result_of] in *;
      [|done].
    destruct Hgoal as [G1 G2 G3]. by split.
  - assert (Hgoal : Inv_locked p).
    { destruct HL as [L1 L2 L3].
      pose proof (getCurrentMode_radios s p F9) as Hmode.
      split.
      - intros Hl Hch. rewrite (animated_filter_length _ _ Fa).
        apply L1; congruence.
      - intros Hl Hch. apply (animated_all_active _ _ Fa).
        apply L2; congruence.
      - intros Hl Htm k Hk. unfold snapshot.
        rewrite (Object_keys_ext _ _ Fk), F3.
        apply (L3 ltac:(congruence) ltac:(congruence) k). congruence. }
    destruct Hgoal as [G1 G2 G3]. by split.
Qed.

Lemma step_Inv_locked e s :
  Inv s -> Inv_result s -> Inv_locked s -> Inv_locked (step e s).
Proof.
  intros HI HR HL.
  destruct e as [ts now|ts|ts now|ts now|now rand|h now|i|v]; cbn [step].
  - destruct (locked s) eqn:Hl.
    + by rewrite (proj1 (handlers_when_locked ts now s Hl)).
    + apply Inv_locked_unlocked.
      by rewrite (proj1 (handlers_locked ts now s)).
  - destruct (locked s) eqn:Hl.
    + by rewrite (proj1 (proj2 (handlers_when_locked ts 0%Z s Hl))).
    + apply Inv_locked_unlocked.
      by rewrite (proj1 (proj2 (handlers_locked ts 0%Z s))).
  - destruct (locked s) eqn:Hl.
    + by rewrite (proj2 (proj2 (handlers_when_locked ts now s Hl))).
    + apply Inv_locked_unlocked.
      by rewrite (proj2 (proj2 (handlers_locked ts now s))).
  - destruct (locked s) eqn:Hl.
    + by rewrite (proj2 (proj2 (handlers_when_locked ts now s Hl))).
    + apply Inv_locked_unlocked.
      by rewrite (proj2 (proj2 (handlers_locked ts now s))).
  - destruct (frameRequested s); [|done].
    apply frame_Inv_locked.
    + by apply set_frameRequested_Inv.
    + by destruct HR.
    + by destruct HL.
  - destruct (List.find _ _) as [[h' due]|]; [|done].
    destruct (due <=? now)%Z; [|done].
    apply Inv_locked_unlocked, resetAll_fields.
  - destruct (_ <? _)%nat; [|done].
    apply Inv_locked_unlocked, resetAll_fields.
  - apply Inv_locked_unlocked, resetAll_fields.
Qed.

Lemma run_invariants evs s :
  Inv s -> Inv_result s -> Inv_locked s ->
  Inv (run evs s) /\ Inv_result (run evs s) /\ Inv_locked (run evs s).
Proof.
  revert s. induction evs as [|e evs IH]; intros s HI HR HL; simpl; [done|].
  apply IH; [by apply step_Inv | by apply step_Inv_result
            | by apply step_Inv_locked].
Qed.

Lemma reached_invariants radios count evs :
  let s := run evs (initial radios count) in
  Inv s /\ Inv_result s /\ Inv_locked s.
Proof.
  apply run_invariants;
    [apply Inv_initial | apply Inv_result_initial | by apply Inv_locked_unlocked].
Qed.

Lemma drawLoop_canvas_eq s :
  NoDup (List.map fst (touchesData s)) ->
  drawLoop_canvas s
  = ClearRect
      :: flat_map (fun id =>
            match obj_get id (touchesData s) with
            | Some data =>
                if TouchData.active data then drawAim (animate data) else []
            | None => []
            end) (snapshot s)
      ++ result_of
           (drawResultLines (getCurrentMode s)
              (set_touchesData
                 (List.map (fun e => (fst e, animate (snd e))) (touchesData s)) s)).
Proof.
  intros Hnd. unfold drawLoop_canvas.
  rewrite draw_fold_aims by by apply Object_keys_NoDup.
  rewrite draw_fold_state, animate_fold, animate_all by done.
  done.
Qed.

(** X12. After any sequence of events, a frame on a session locked in choose
    mode draws one aim and nothing else: the aim of the one contact that
    is still active, after its step of animation. *)
Theorem choose_frame_draws_winner radios count evs :
  let s := run evs (initial radios count) in
  locked s = true -> getCurrentMode s = "choose"%string ->
  exists id d,
    obj_get id (touchesData s) = Some d
    /\ TouchData.active d = true
    /\ drawLoop_canvas s = [ClearRect; Aim (animate d)].
Proof.
  intros s Hl Hmode.
  destruct (reached_invariants radios count evs) as (HI & HR & HL).
  fold s in HI, HR, HL.
  pose proof (reg_keys _ (inv_reg _ HI)) as Hnd.
  pose proof (lk_choose _ HL Hl Hmode) as Hone.
  rewrite <- (aims_length _ Hnd) in Hone.
  rewrite (drawLoop_canvas_eq s Hnd), Hmode. unfold drawResultLines.
  change (String.eqb "choose" "team") with false.
  rewrite andb_false_r. cbn [result_of].
  rewrite app_nil_r. fold (snapshot s) in Hone.
  destruct (flat_map_single _ _ Hone) as (id & Hid & Heq).
  rewrite Heq in Hone |- *.
  destruct (obj_get id (touchesData s)) as [d|] eqn:Hg; [|done].
  destruct (TouchData.active d) eqn:Ha; [|done].
  by exists id, d.
Qed.

Lemma choose_frame_draws_winner_witness :
  exists id d,
    obj_get id (touchesData locked_session) = Some d
    /\ TouchData.active d = true
    /\ drawLoop_canvas locked_session = [ClearRect; Aim (animate d)].
Proof.
  apply (choose_frame_draws_winner page_radios (Int 2)
           [ touchstart [touch 0 10 10; touch 1 20 20; touch 2 30 30] 1000;
             animationFrame 6001 (fun _ => 0%N) ]); reflexivity.
Defined.

Lemma obj_get_map_animate k (o : Obj TouchData.t) :
  obj_get k (List.map (fun e => (fst e, animate (snd e))) o)
  = animate <$> obj_get k o.
Proof.
  unfold obj_get. induction o as [|e o IH]; cbn [List.map List.find fst]; [done|].
  destruct (fst e =? k)%Z; [done | apply IH].
Qed.



Lemma teamTouches_all s (team : list Member) :
  (forall m, m ∈ team ->
     exists td, obj_get (member_id m) (touchesData s) = Some td
                /\ TouchData.active td = true) ->
  Forall2 (fun m td => obj_get (member_id m) (touchesData s) = Some td)
    team (teamTouches s team).
Proof.
  unfold teamTouches. induction team as [|m team IH]; intros H; cbn [omap list_omap].
  - constructor.
  - destruct (H m) as (td & Hg & Ha); [left|]. rewrite Hg, Ha.
    constructor; [done|]. apply IH. intros m' Hm'. apply H. by right.
Qed.



(** *** The frame that stops *)

Lemma resetAll_frameRequested s :
  frameRequested (resetAll s) = frameRequested s.
Proof.
  unfold resetAll, clearTimeout. simpl.
  destruct (resultTimer s) eqn:E; simpl; rewrite ?E; done.
Qed.

Lemma frame_loop_stays_off evs s :
  frameRequested s = false -> frameRequested (run evs s) = false.
Proof.
  revert s. induction evs as [|e evs IH]; intros s Hf; [done|].
  cbn [run fold_left]. apply IH.
  destruct e as [ts now|ts|ts now|ts now|now rand|h now|i|v]; cbn [step].
  - unfold handleTouchStart. destruct (locked s); [done|].
    by rewrite touchStart_fold.
  - unfold handleTouchMove. destruct (locked s); [done|].
    by rewrite touchMove_fold.
  - unfold handleTouchEnd. destruct (locked s); [done|].
    by rewrite touchEnd_fold.
  - unfold handleTouchEnd. destruct (locked s); [done|].
    by rewrite touchEnd_fold.
  - by rewrite Hf.
  - destruct (List.find _ _) as [[h' due]|]; [|done].
    destruct (due <=? now)%Z; [|done].
    by rewrite resetAll_frameRequested.
  - destruct (_ <? _)%nat; [|done].
    by rewrite resetAll_frameRequested.
  - by rewrite resetAll_frameRequested.
Qed.

(** X23. After any sequence of events, on a session locked in team mode
    with an integer count, where a team of two or more holds a contact
    without a colour of the palette (a negative identifier), the next
    frame throws while it draws the lines: the result, the registry keys
    and the reset timer stay as they are, but no further frame is
    requested, and none is ever requested again, whatever follows. *)
Theorem frame_stops_without_colour radios count evs k now rand team m d :
  let s := run evs (initial radios count) in
  frameRequested s = true -> locked s = true ->
  getCurrentMode s = "team"%string -> countInput_value s = Int k ->
  team ∈ teams s -> 2 <= length team -> m ∈ team ->
  obj_get (member_id m) (touchesData s) = Some d -> TouchData.color d = None ->
  let s' := step (animationFrame now rand) s in
  frameRequested s' = false
  /\ locked s' = true /\ teams s' = teams s
  /\ resultTimer s' = resultTimer s /\ timeouts s' = timeouts s
  /\ List.map fst (touchesData s') = List.map fst (touchesData s)
  /\ forall evs', frameRequested (run evs' s') = false.
Proof.
  intros s Hf Hl Hmode Hcount Hteam Hlen Hm Hg Hc s'.
  destruct (reached_invariants radios count evs) as (HI & HR & HL).
  fold s in HI, HR, HL.
  assert (Hact : all_active (touchesData s)).
  { apply (lk_others _ HL Hl). rewrite Hmode. discriminate. }
  pose proof (lk_teams _ HL Hl Hmode k Hcount) as Hmem.
  assert (Hshow : showingResult s = true) by (by rewrite (res_flags _ HR)).
  set (s0 := set_frameRequested false s).
  assert (Hreg : touchesData (frame_prelude s0)
                 = List.map (fun e => (fst e, animate (snd e))) (touchesData s)).
  { unfold frame_prelude.
    change (touchesData (set_touchesData ?o _)) with o.
    apply animate_all, (reg_keys _ (inv_reg _ HI)). }
  assert (Hmembers : forall m', m' ∈ team ->
            exists td, obj_get (member_id m') (touchesData (frame_prelude s0))
                       = Some td /\ TouchData.active td = true).
  { intros m' Hm'.
    assert (Hid : member_id m' ∈ snapshot s).
    { rewrite <- Hmem. apply (list_elem_of_fmap_2 member_id).
      apply list_elem_of_In, List.in_concat. exists team.
      split; by apply list_elem_of_In. }
    apply Object_keys_elem in Hid.
    destruct (obj_get (member_id m') (touchesData s)) as [d'|] eqn:Hg'.
    2:{ by apply obj_get_None in Hg'. }
    exists (animate d'). rewrite Hreg, obj_get_map_animate, Hg'.
    split; [done|]. rewrite animate_active. apply obj_get_Some in Hg'.
    apply (proj1 (Forall_forall _ _) Hact _ Hg'). }
  pose proof (teamTouches_all (frame_prelude s0) team Hmembers) as Htt.
  assert (Hthrow : exists c, frame_lines s0 = Throw c).
  { unfold frame_lines, drawResultLines.
    change (showingResult (frame_prelude s0)) with (showingResult s).
    change (getCurrentMode s0) with (getCurrentMode s).
    rewrite Hshow, Hmode. cbn [andb String.eqb Ascii.eqb Bool.eqb].
    unfold drawTeamLines. change (teams (frame_prelude s0)) with (teams s).
    destruct (linesAmong_Throw (teamTouches (frame_prelude s0) team) (animate d))
      as [c Hthrow].
    - by rewrite <- (Forall2_length _ _ _ Htt).
    - apply list_elem_of_lookup in Hm as [i Hi].
      destruct (Forall2_lookup_l _ _ _ _ _ Htt Hi) as (td & Htd & Hgd).
      rewrite Hreg, obj_get_map_animate, Hg in Hgd. injection Hgd as <-.
      by eapply list_elem_of_lookup_2.
    - by rewrite animate_color.
    - by apply (draw_each_Throw _ _ team c). }
  destruct Hthrow as [c Hthrow].
  assert (Hs' : s' = frame_prelude s0).
  { subst s'. cbn [step]. rewrite Hf. fold s0.
    by rewrite drawLoop_unfold, Hthrow. }
  rewrite Hs'.
  split; [done|]. split; [done|]. split; [done|]. split; [done|].
  split; [done|]. split; [exact (at_lock_keys s)|].
  intros evs'. by apply frame_loop_stays_off.
Qed.

Lemma frame_stops_without_colour_witness :
  let s := run (five_fingers ++ [animationFrame 6000 sample_rand])
             (initial page_radios (Int 2)) in
  let s' := step (animationFrame 6016 sample_rand) s in
  frameRequested s' = false
  /\ locked s' = true /\ teams s' = teams s
  /\ resultTimer s' = resultTimer s /\ timeouts s' = timeouts s
  /\ List.map fst (touchesData s') = List.map fst (touchesData s)
  /\ forall evs', frameRequested (run evs' s') = false.
Proof.
  apply (frame_stops_without_colour page_radios (Int 2)
           (five_fingers ++ [animationFrame 6000 sample_rand]) 2 6016 sample_rand
           [ {| member_id := 0; member_color := Some "#e6194b"%string |};
             {| member_id := -1; member_color := None |} ]
           {| member_id := -1; member_color := None |}
           (animate (newTouchData (touch (-1) 7 7))));
    try reflexivity.
  - vm_compute. right. left.
  - right. left.
Defined.

(** ** The lock routine in every mode *)

Lemma lock_choose_registry rand ks s :
  touchesData (result_of (lock_choose rand ks s))
  = List.map (deactivated (at_index ks (random_index rand 0 (length ks))) ks)
      (touchesData s).
Proof.
  rewrite lock_choose_eq. cbv zeta.
  by destruct (_ ≫= _).
Qed.

Lemma lock_entry_deactivated c ks (o : Obj TouchData.t) :
  Forall2 lock_entry o (List.map (deactivated c ks) o).
Proof.
  apply Forall2_map_r. intros e. unfold lock_entry, deactivated.
  destruct (bool_decide _); [by right | by left].
Qed.

Lemma lock_entry_refl (o : Obj TouchData.t) : Forall2 lock_entry o o.
Proof.
  rewrite <- (List.map_id o) at 2. apply Forall2_map_r. intros e. by left.
Qed.

Lemma lock_registry now rand s :
  Forall2 lock_entry (touchesData s)
    (touchesData (result_of (lockAndShowResult now rand s))).
Proof.
  destruct (String.eqb_spec (getCurrentMode s) "choose") as [Hm|Hm].
  2:{ rewrite lock_registry_not_choose by done. apply lock_entry_refl. }
  unfold lockAndShowResult. fold (lock_flags s).
  change (touchesData (lock_flags s)) with (touchesData s).
  change (getCurrentMode (lock_flags s)) with (getCurrentMode s).
  destruct (length (Object_keys (touchesData s)) =? 0).
  { apply lock_entry_refl. }
  rewrite Hm. cbn [String.eqb Ascii.eqb Bool.eqb].
  pose proof (lock_choose_registry rand (Object_keys (touchesData s)) (lock_flags s))
    as Hreg.
  change (touchesData (lock_flags s)) with (touchesData s) in Hreg.
  destruct (lock_choose rand _ _) as [r|r]; cbn [result_of] in *.
  - rewrite (proj1 (scheduleReset_fields _ _)), Hreg.
    apply lock_entry_deactivated.
  - rewrite Hreg. apply lock_entry_deactivated.
Qed.

(** X14. In every mode, with any registry and any team count, the lock routine
    locks the session and shows a result; it adds, removes and moves no
    contact (at most it clears [active] flags), and it leaves the activity
    clock, the mode and the team count as they are. *)
Theorem lock_keeps_contacts now rand s :
  let r := result_of (lockAndShowResult now rand s) in
  locked r = true /\ showingResult r = true
  /\ Forall2 lock_entry (touchesData s) (touchesData r)
  /\ modeRadios r = modeRadios s
  /\ countInput_value r = countInput_value s.
Proof.
  intros r. subst r.
  pose proof (lockAndShowResult_outcome now rand s) as Ho.
  split; [by apply (lock_outcome_locked _ _ _ Ho)|].
  split; [by apply (lock_outcome_showing _ _ _ Ho)|].
  split; [apply lock_registry|].
  by apply (lock_config _ _ _ Ho).
Qed.

Lemma lock_team_NaN_outcome now rand s :
  touchesData s <> [] -> getCurrentMode s = "team"%string ->
  countInput_value s = NaN ->
  lockAndShowResult now rand s = Throw (set_teams [] (lock_flags s)).
Proof.
  intros Hne Hmode Hcount.
  assert (Hn : 0 < length (snapshot s)).
  { unfold snapshot. rewrite Object_keys_length.
    destruct (touchesData s); simpl; [done | lia]. }
  pose proof (lock_team_NaN rand (snapshot s) (lock_flags s) Hn Hcount) as Heq.
  unfold lockAndShowResult. fold (lock_flags s).
  change (touchesData (lock_flags s)) with (touchesData s).
  change (getCurrentMode (lock_flags s)) with (getCurrentMode s).
  fold (snapshot s). rewrite Hmode.
  destruct (Nat.eqb_spec (length (snapshot s)) 0); [lia|].
  simpl String.eqb. by rewrite Heq.
Qed.

(** X15. After any sequence of events, the frame that locks a session in team
    mode while the count field holds no number throws: the session is
    locked and shows a result, but no team is stored, no reset is
    scheduled and no further frame is requested; from then on only a
    change of mode or of count changes the state. *)
Theorem team_lock_without_count radios count evs now rand :
  let s := run evs (initial radios count) in
  frameRequested s = true -> inactive now s = true ->
  getCurrentMode s = "team"%string -> countInput_value s = NaN ->
  let s' := step (animationFrame now rand) s in
  locked s' = true /\ showingResult s' = true
  /\ teams s' = [] /\ resultTimer s' = None /\ timeouts s' = []
  /\ frameRequested s' = false
  /\ List.map fst (touchesData s') = List.map fst (touchesData s)
  /\ forall evs', run (List.filter (fun e => negb (is_reset e)) evs') s' = s'.
Proof.
  intros s Hf Hin Hmode Hcount s'.
  assert (HI : Inv s) by apply run_Inv, Inv_initial.
  pose proof (proj1 (inactive_iff now s) Hin) as (Hl & _ & Hne & _).
  assert (Hne' : touchesData (at_lock s) <> []).
  { intros H0. apply Hne. apply (f_equal (List.map fst)) in H0.
    rewrite at_lock_keys in H0. by destruct (touchesData s). }
  pose proof (inv_idle s HI Hl) as Hrt.
  pose proof (inv_timer s HI) as Ht. unfold timer_ok in Ht. rewrite Hrt in Ht.
  assert (Hs' : s' = set_teams [] (lock_flags (at_lock s))).
  { subst s'. rewrite step_frame by done.
    by rewrite (lock_team_NaN_outcome now rand (at_lock s) Hne' Hmode Hcount). }
  pose proof (at_lock_keys s) as Hk.
  set (p := at_lock s) in *.
  assert (Hp : resultTimer p = resultTimer s /\ timeouts p = timeouts s
               /\ frameRequested p = false) by done.
  destruct Hp as (P1 & P2 & P3). clearbody p.
  assert (Hfields : locked s' = true /\ showingResult s' = true
                    /\ teams s' = [] /\ resultTimer s' = None
                    /\ timeouts s' = [] /\ frameRequested s' = false
                    /\ touchesData s' = touchesData p).
  { rewrite Hs'. cbn. rewrite P1, P2, P3. by repeat split. }
  destruct Hfields as (G1 & G2 & G3 & G4 & G5 & G6 & G7).
  do 6 (split; [done|]). split; [by rewrite G7|].
  intros evs'. apply stuck_run; [done | done | by left].
Qed.

Lemma team_lock_without_count_witness :
  let s := run [ modeChange 1; countChange NaN;
                 touchstart [touch 0 10 10; touch 1 20 20] 1000 ]
             (initial page_radios (Int 2)) in
  let s' := step (animationFrame 6001 sample_rand) s in
  locked s' = true /\ showingResult s' = true
  /\ teams s' = [] /\ resultTimer s' = None /\ timeouts s' = []
  /\ frameRequested s' = false
  /\ List.map fst (touchesData s') = List.map fst (touchesData s)
  /\ forall evs', run (List.filter (fun e => negb (is_reset e)) evs') s' = s'.
Proof.
  apply (team_lock_without_count page_radios (Int 2)
           [ modeChange 1; countChange NaN;
             touchstart [touch 0 10 10; touch 1 20 20] 1000 ]
           6001 sample_rand); reflexivity.
Defined.

(** ** The automatic reset *)

Lemma lock_completes now rand s :
  touchesData s <> [] -> length (touchesData s) <= capacity ->
  (getCurrentMode s = "team"%string -> exists k, countInput_value s = Int k) ->
  exists r, lockAndShowResult now rand s = Normal r.
Proof.
  intros Hne Hsize Hcount.
  destruct (String.eqb_spec (getCurrentMode s) "choose") as [Hm|Hm].
  { destruct (lockAndShowResult_choose now rand s Hne Hsize Hm)
      as (ck & chosen & _ & _ & _ & ->). eauto. }
  destruct (String.eqb_spec (getCurrentMode s) "team") as [Ht|Ht].
  { destruct (Hcount Ht) as [k Hk].
    destruct (lockAndShowResult_team now rand s k Hne Ht Hk) as (tm & _ & ->).
    eauto. }
  unfold lockAndShowResult. fold (lock_flags s).
  change (touchesData (lock_flags s)) with (touchesData s).
  change (getCurrentMode (lock_flags s)) with (getCurrentMode s).
  rewrite Object_keys_length.
  destruct (touchesData s) as [|e o] eqn:Hreg; [done|]. cbn [length Nat.eqb].
  destruct (String.eqb_spec (getCurrentMode s) "choose"); [done|].
  destruct (String.eqb_spec (getCurrentMode s) "team"); [done|].
  eauto.
Qed.

(** X16. After any sequence of events, the frame that locks a session (in
    choose mode, in team mode with an integer count, or in any other mode)
    leaves exactly one task pending, due 10000 ms after the frame; run
    before that time the task does nothing, run at that time or later it
    empties the registry, clears the result and unlocks the session. *)
Theorem lock_then_auto_reset radios count evs now rand :
  let s := run evs (initial radios count) in
  frameRequested s = true -> inactive now s = true ->
  (getCurrentMode s = "team"%string -> exists k, countInput_value s = Int k) ->
  let s' := step (animationFrame now rand) s in
  exists h,
    locked s' = true
    /\ timeouts s' = [(h, (now + 10000)%Z)] /\ resultTimer s' = Some h
    /\ frameRequested s' = true
    /\ (forall t, (t < now + 10000)%Z -> step (timeout h t) s' = s')
    /\ (forall t, (now + 10000 <= t)%Z ->
          let s'' := step (timeout h t) s' in
          touchesData s'' = [] /\ teams s'' = [] /\ locked s'' = false
          /\ showingResult s'' = false
          /\ resultOverlay_innerHTML s'' = EmptyString
          /\ resultTimer s'' = None /\ timeouts s'' = []).
Proof.
  intros s Hf Hin Hcount s'.
  assert (HI : Inv (at_lock s)) by apply at_lock_Inv, run_Inv, Inv_initial.
  pose proof (proj1 (inactive_iff now s) Hin) as (Hl & _ & Hne & _).
  assert (Hne' : touchesData (at_lock s) <> []).
  { intros H0. apply Hne. apply (f_equal (List.map fst)) in H0.
    rewrite at_lock_keys in H0. by destruct (touchesData s). }
  destruct (lock_completes now rand (at_lock s) Hne'
              (reg_size _ (inv_reg _ HI)) Hcount) as [r Hr].
  destruct (lock_schedules_reset now rand (at_lock s) r HI Hl Hne' Hr)
    as (Ht & Hrt & Hlr).
  assert (Hs' : s' = set_frameRequested true r).
  { subst s'. by rewrite step_frame, Hr. }
  clearbody s'. subst s'.
  exists (nextHandle (at_lock s)).
  set (h := nextHandle (at_lock s)) in *. clearbody h.
  set (q := set_frameRequested true r).
  assert (Hq : locked q = true /\ timeouts q = [(h, (now + 10000)%Z)]
               /\ resultTimer q = Some h /\ frameRequested q = true).
  { subst q. cbn [locked timeouts resultTimer frameRequested set_frameRequested].
    by rewrite Ht, Hrt, Hlr. }
  clearbody q. destruct Hq as (Q1 & Q2 & Q3 & Q4).
  do 4 (split; [done|]).
  destruct (timeout_fires h (now + 10000)%Z 0%Z q Q2 Q3) as [_ _].
  split.
  - intros t Hlt. by apply (timeout_fires h (now + 10000)%Z t q Q2 Q3).
  - intros t Hle. by apply (timeout_fires h (now + 10000)%Z t q Q2 Q3).
Qed.

Lemma lock_then_auto_reset_witness :
  let s := run [touchstart [touch 0 10 10; touch 1 20 20; touch 2 30 30] 1000]
             (initial page_radios (Int 2)) in
  let s' := step (animationFrame 6001 sample_rand) s in
  exists h,
    locked s' = true
    /\ timeouts s' = [(h, (6001 + 10000)%Z)] /\ resultTimer s' = Some h
    /\ frameRequested s' = true
    /\ (forall t, (t < 6001 + 10000)%Z -> step (timeout h t) s' = s')
    /\ (forall t, (6001 + 10000 <= t)%Z ->
          let s'' := step (timeout h t) s' in
          touchesData s'' = [] /\ teams s'' = [] /\ locked s'' = false
          /\ showingResult s'' = false
          /\ resultOverlay_innerHTML s'' = EmptyString
          /\ resultTimer s'' = None /\ timeouts s'' = []).
Proof.
  apply (lock_then_auto_reset page_radios (Int 2)
           [touchstart [touch 0 10 10; touch 1 20 20; touch 2 30 30] 1000]
           6001 sample_rand); [reflexivity | reflexivity | discriminate].
Defined.

(** ** The activity clock and the lock *)

(** X17. After a touch start, touch end or touch cancel event at time [t] on
    an open session, no frame locks the session until more than 5000 ms
    have passed. *)
Theorem no_lock_within_timeout ts t now rand s e :
  locked s = false ->
  e = touchstart ts t \/ e = touchend ts t \/ e = touchcancel ts t ->
  (now <= t + 5000)%Z ->
  locked (step (animationFrame now rand) (step e s)) = false.
Proof.
  intros Hl He Hnow.
  assert (Hs1 : locked (step e s) = false /\ lastTouchTime (step e s) = t).
  { destruct He as [->|[->| ->]]; cbn [step];
      unfold handleTouchStart, handleTouchEnd, updateLastTouchTime;
      rewrite Hl, ?touchStart_fold, ?touchEnd_fold; done. }
  destruct Hs1 as [Hl1 Ht1].
  set (s1 := step e s) in *. clearbody s1.
  cbn [step]. destruct (frameRequested s1); [|done].
  assert (Hin : inactive now (set_frameRequested false s1) = false).
  { unfold inactive. cbn [locked showingResult lastTouchTime set_frameRequested].
    rewrite Ht1. unfold INACTIVITY_TIMEOUT.
    destruct (Z.gtb_spec (now - t) 5000); [lia|].
    by rewrite andb_false_r. }
  destruct (drawLoop_still now rand _ Hin) as [b ->]. done.
Qed.

Lemma no_lock_within_timeout_witness :
  locked (step (animationFrame 6000 sample_rand)
            (step (touchstart [touch 0 10 10] 1000)
               (initial page_radios (Int 2)))) = false.
Proof.
  apply (no_lock_within_timeout [touch 0 10 10] 1000 6000 sample_rand
           (initial page_radios (Int 2)) (touchstart [touch 0 10 10] 1000));
    [reflexivity | by left | lia].
Defined.

(** X18. After any sequence of events, a frame draws a line only while the
    session is locked in team mode. *)
Theorem lines_only_in_team_result radios count evs t1 t2 :
  let s := run evs (initial radios count) in
  Line t1 t2 ∈ drawLoop_canvas s ->
  locked s = true /\ getCurrentMode s = "team"%string.
Proof.
  intros s Hline.
  destruct (reached_invariants radios count evs) as (HI & HR & _).
  fold s in HI, HR.
  rewrite (drawLoop_canvas_eq s (reg_keys _ (inv_reg _ HI))) in Hline.
  apply elem_of_cons in Hline as [[=]|Hline].
  apply elem_of_app in Hline as [Hline|Hline].
  - apply list_elem_of_In, List.in_flat_map in Hline as (id & _ & Hin).
    destruct (obj_get id (touchesData s)) as [d|]; [|done].
    destruct (TouchData.active d); [|done]. by destruct Hin as [[=]|[]].
  - unfold drawResultLines in Hline.
    change (showingResult (set_touchesData ?o s)) with (showingResult s) in Hline.
    rewrite (res_flags _ HR) in Hline.
    destruct (locked s); [|by apply elem_of_nil in Hline].
    destruct (String.eqb_spec (getCurrentMode s) "team");
      [done | by apply elem_of_nil in Hline].
Qed.

Lemma lines_only_in_team_result_witness :
  let s := run (five_fingers ++ [animationFrame 6000 sample_rand])
             (initial page_radios (Int 2)) in
  locked s = true /\ getCurrentMode s = "team"%string.
Proof.
  set (s := run (five_fingers ++ [animationFrame 6000 sample_rand])
              (initial page_radios (Int 2))).
  assert (Hl : exists t1 t2, Line t1 t2 ∈ drawLoop_canvas s).
  { eexists _, _. vm_compute. do 6 right. left. }
  destruct Hl as (t1 & t2 & Hl).
  exact (lines_only_in_team_result page_radios (Int 2)
           (five_fingers ++ [animationFrame 6000 sample_rand]) t1 t2 Hl).
Defined.

(** ** The index and the rounding of binary64 *)

(** X24. [Math.floor(Math.random() * n)] is the integer part of the exact
    product or the next integer, to which the product is rounded at
    times, and it is an index of an array of [n] elements (of fewer than
    2^53, as every array has). *)
Theorem random_index_exact_or_next rand i n :
  0 < n -> (Z.of_nat n <= 2 ^ 53)%Z ->
  let r := Math_random rand i in
  let exact := (mant r * Z.of_nat n / 2 ^ (- expo r))%Z in
  (random_index rand i n = exact \/ random_index rand i n = (exact + 1)%Z)
  /\ (0 <= random_index rand i n < Z.of_nat n)%Z.
Proof.
  intros Hn Hbound r exact. split; [|by apply random_index_range].
  subst r exact. unfold random_index, times.
  destruct (Math_random_bounds rand i) as [HM He].
  set (M := mant (Math_random rand i)) in *.
  set (e := expo (Math_random rand i)) in *.
  assert (HP0 : (0 < 2 ^ (- e))%Z) by (apply Z.pow_pos_nonneg; lia).
  destruct (round53_cases (M * Z.of_nat n) e) as [[_ ->]|(Hk & Hexp & Hlog & Hnear)].
  - left. by rewrite Math_floor_div by (cbn [expo]; lia).
  - set (k := (Z.log2 (M * Z.of_nat n) - 52)%Z) in *.
    set (m' := mant (round53 {| mant := M * Z.of_nat n; expo := e |})) in *.
    set (a := (M * Z.of_nat n)%Z) in *.
    assert (Hh : (0 < 2 ^ (k - 1))%Z) by (apply Z.pow_pos_nonneg; lia).
    assert (H52 : (2 ^ (52 + k) = 2 ^ 53 * 2 ^ (k - 1))%Z).
    { rewrite <- Z.pow_add_r by lia. f_equal. lia. }
    assert (Hpow : (2 ^ k = 2 * 2 ^ (k - 1))%Z).
    { rewrite <- Z.pow_succ_r by lia. f_equal. lia. }
    assert (Hk1 : (2 ^ (k - 1) < Z.of_nat n)%Z) by (subst a; nia).
    assert (Hk53 : (k <= 53)%Z).
    { destruct (Z.le_gt_cases k 53) as [|Hgt]; [done|].
      assert (2 ^ 53 <= 2 ^ (k - 1))%Z by (apply Z.pow_le_mono_r; lia). lia. }
    assert (Hsplit : (2 ^ (- e) = 2 ^ (- (e + k)) * 2 ^ k)%Z).
    { rewrite <- Z.pow_add_r by lia. f_equal. lia. }
    assert (Hpe : (0 < 2 ^ (- (e + k)))%Z) by (apply Z.pow_pos_nonneg; lia).
    rewrite Math_floor_div by lia. fold m'. rewrite Hexp.
    set (P := (2 ^ (- e))%Z) in *. set (P' := (2 ^ (- (e + k)))%Z) in *.
    pose proof (Z.div_mod a P ltac:(lia)) as Hda.
    pose proof (Z.mod_pos_bound a P ltac:(lia)) as Hra.
    set (Q := (a / P)%Z) in *.
    assert (Hlo : (Q * P' <= m')%Z) by nia.
    assert (Hhi : (m' <= (Q + 1) * P')%Z) by nia.
    assert (HQ : (Q <= m' / P')%Z) by (apply Z.div_le_lower_bound; lia).
    assert (HQ1 : (m' / P' <= Q + 1)%Z).
    { destruct (Z.le_gt_cases (m' / P') (Q + 1)) as [|Hgt]; [done|].
      pose proof (Z.mul_div_le m' P' ltac:(lia)). nia. }
    lia.
Qed.

(** The value 5146971002709138 / 2^53 and seven contacts: the exact
    product is below 4, the rounded product is 4. *)
Lemma random_index_exact_or_next_witness :
  let rand := fun _ : nat => bits_of_fraction 5146971002709138 in
  (mant (Math_random rand 0) * 7 / 2 ^ (- expo (Math_random rand 0)) = 3)%Z
  /\ random_index rand 0 7 = 4%Z
  /\ (random_index rand 0 7 = 3%Z \/ random_index rand 0 7 = (3 + 1)%Z)
  /\ (0 <= random_index rand 0 7 < 7)%Z.
Proof.
  split; [vm_compute; reflexivity|]. split; [vm_compute; reflexivity|].
  apply (random_index_exact_or_next
           (fun _ : nat => bits_of_fraction 5146971002709138) 0 7);
    [lia | vm_compute; discriminate].
Defined.

(** ** Every outcome can be drawn

    For every index of an array of up to ten elements there is a value
    of the interval [0, 1) whose rounded product with the length has that
    integer part: [draw_for], checked for each length and index. *)

Lemma random_index_hits (n j : nat) :
  j < n -> n <= capacity ->
  exists m : N, forall rand i, rand i = m -> random_index rand i n = Z.of_nat j.
Proof.
  intros Hj Hn. exists (draw_for n j). intros rand i Hr.
  unfold random_index, Math_random. rewrite Hr.
  assert (Hall : forallb (fun n =>
            forallb (fun j =>
              (Math_floor
                 (times (from_bits (Z.of_N (draw_for n j mod ONE_BITS))) n)
               =? Z.of_nat j)%Z) (seq 0 n)) (seq 0 (S capacity)) = true)
    by (vm_compute; reflexivity).
  rewrite forallb_forall in Hall.
  specialize (Hall n ltac:(apply in_seq; lia)).
  rewrite forallb_forall in Hall.
  specialize (Hall j ltac:(apply in_seq; lia)).
  by apply Z.eqb_eq.
Qed.

Lemma key_can_be_chosen (ks : list Z) key :
  key ∈ ks -> length ks <= 10 ->
  exists m : N, forall rand, rand 0 = m ->
    at_index ks (random_index rand 0 (length ks)) = Some key.
Proof.
  intros Hin Hlen. apply list_elem_of_lookup in Hin as [j Hj].
  pose proof (lookup_lt_Some _ _ _ Hj) as Hlt.
  destruct (random_index_hits (length ks) j Hlt Hlen) as [m Hm].
  exists m. intros rand Hr. rewrite (Hm rand 0 Hr).
  unfold at_index. destruct (Z.ltb_spec (Z.of_nat j) 0); [lia|].
  by rewrite Nat2Z.id.
Qed.

(** X19. After any sequence of events, at the frame that locks a session in
    choose mode every contact of the snapshot can win: for each key there
    is a binary64 value of the interval [0, 1), the values [Math.random()]
    may return, with which that contact, and no other, stays active. *)
Theorem every_contact_can_win radios count evs now key :
  let s := run evs (initial radios count) in
  frameRequested s = true -> inactive now s = true ->
  getCurrentMode s = "choose"%string -> key ∈ snapshot s ->
  exists rand d,
    let s' := step (animationFrame now rand) s in
    obj_get key (touchesData s') = Some d
    /\ TouchData.active d = true
    /\ (forall id d', (id, d') ∈ touchesData s' -> id <> key ->
          TouchData.active d' = false).
Proof.
  intros s Hf Hin Hmode Hkey.
  assert (HI : Inv (at_lock s)) by apply at_lock_Inv, run_Inv, Inv_initial.
  pose proof (proj1 (inactive_iff now s) Hin) as (Hl & _ & Hne & _).
  assert (Hne' : touchesData (at_lock s) <> []).
  { intros H0. apply Hne. apply (f_equal (List.map fst)) in H0.
    rewrite at_lock_keys in H0. by destruct (touchesData s). }
  assert (Hlen : length (snapshot s) <= 10).
  { unfold snapshot. rewrite Object_keys_length.
    apply (reg_size _ (inv_reg _ (run_Inv evs _ (Inv_initial radios count)))). }
  destruct (key_can_be_chosen (snapshot s) key Hkey Hlen) as [m Hm].
  set (rand := fun _ : nat => m).
  destruct (lockAndShowResult_choose now rand (at_lock s) Hne'
              (reg_size _ (inv_reg _ HI)) Hmode)
    as (ck & chosen & Hat & _ & Hget & Heq).
  rewrite at_lock_snapshot in Hat, Heq.
  rewrite (Hm rand eq_refl) in Hat. injection Hat as <-.
  assert (Hact : all_active (touchesData (at_lock s))) by by apply inv_active.
  set (o' := List.map (deactivated (Some key) (snapshot s))
               (touchesData (at_lock s))) in *.
  exists rand, chosen. cbv zeta.
  assert (Hreg : touchesData (step (animationFrame now rand) s) = o').
  { rewrite step_frame, Heq by done.
    rewrite (proj1 (set_frameRequested_fields _ _)).
    by rewrite (proj1 (scheduleReset_fields _ _)). }
  rewrite Hreg. subst o'. split; [by rewrite obj_get_deactivated|]. split.
  - apply obj_get_Some in Hget.
    apply (proj1 (Forall_forall _ _) Hact _ Hget).
  - intros id d' He Hne2.
    assert (Hks : forall e, e ∈ touchesData (at_lock s) -> fst e ∈ snapshot s).
    { intros e Hein. rewrite <- at_lock_snapshot. apply Object_keys_elem.
      by apply (list_elem_of_fmap_2 fst). }
    pose proof (deactivated_entries key (snapshot s) _ Hact Hks (id, d') He) as Hd.
    cbn [fst snd] in Hd. rewrite Hd. by apply bool_decide_eq_false_2.
Qed.

Lemma every_contact_can_win_witness :
  let s := run [touchstart [touch 0 10 10; touch 1 20 20; touch 2 30 30] 1000]
             (initial page_radios (Int 2)) in
  exists rand d,
    let s' := step (animationFrame 6001 rand) s in
    obj_get 2%Z (touchesData s') = Some d
    /\ TouchData.active d = true
    /\ (forall id d', (id, d') ∈ touchesData s' -> id <> 2%Z ->
          TouchData.active d' = false).
Proof.
  apply (every_contact_can_win page_radios (Int 2)
           [touchstart [touch 0 10 10; touch 1 20 20; touch 2 30 30] 1000]
           6001 2%Z); [reflexivity | reflexivity | reflexivity |].
  apply (bool_decide_unpack _). vm_compute. exact I.
Defined.

Lemma shuffle_from_ext {A} rand rand' call i (arr : list A) :
  (forall c, call <= c < call + i -> rand c = rand' c) ->
  shuffle_from rand call i arr = shuffle_from rand' call i arr.
Proof.
  revert call arr. induction i as [|i IH]; intros call arr H; cbn [shuffle_from];
    [done|].
  assert (Hj : random_index rand call (S i + 1) = random_index rand' call (S i + 1)).
  { unfold random_index, Math_random. rewrite (H call) by lia. done. }
  rewrite Hj. apply IH. intros c Hc. apply H. lia.
Qed.

Lemma shuffle_from_surj {A} i :
  forall call (pre tpre suf : list A),
  length pre = S i -> pre ≡ₚ tpre -> S i <= capacity ->
  exists rand, shuffle_from rand call i (pre ++ suf) = tpre ++ suf.
Proof.
  induction i as [|i IH]; intros call pre tpre suf Hlen Hperm Hbound.
  - destruct pre as [|a [|b pre]]; try done.
    apply Permutation_singleton_l in Hperm as <-.
    by exists (fun _ => 0%N).
  - destruct (decide (tpre = [])) as [->|Hnil].
    { apply Permutation_nil_r in Hperm. by subst pre. }
    destruct (exists_last Hnil) as (tpre' & x & ->).
    assert (Hx : x ∈ pre).
    { rewrite Hperm. apply elem_of_app. right. left. }
    apply list_elem_of_lookup in Hx as [j Hj].
    pose proof (lookup_lt_Some _ _ _ Hj) as Hjlt. rewrite Hlen in Hjlt.
    destruct (lookup_lt_is_Some_2 pre (S i)) as [ai Hai]; [lia|].
    destruct (random_index_hits (S i + 1) j) as [m Hm]; [lia | lia |].
    set (arr := pre ++ suf).
    assert (Harr_i : arr !! S i = Some ai) by (subst arr; by rewrite lookup_app_l by lia).
    assert (Harr_j : arr !! j = Some x) by (subst arr; by rewrite lookup_app_l by lia).
    set (arr2 := <[j := ai]> (<[S i := x]> arr)).
    assert (Hswap : swap (S i) (Z.of_nat j) arr = arr2).
    { unfold swap, at_index. rewrite Harr_i.
      destruct (Z.ltb_spec (Z.of_nat j) 0); [lia|].
      by rewrite Nat2Z.id, Harr_j. }
    assert (Hlen_arr : length arr = S (S i) + length suf)
      by (subst arr; rewrite length_app; lia).
    assert (Hlen2 : length arr2 = length arr)
      by (subst arr2; by rewrite !length_insert).
    assert (Hx2 : arr2 !! S i = Some x).
    { subst arr2. destruct (decide (j = S i)) as [->|Hne].
      - rewrite list_lookup_insert_eq by (rewrite length_insert; lia).
        congruence.
      - rewrite list_lookup_insert_ne by done.
        apply list_lookup_insert_eq. lia. }
    assert (Hsuf : drop (S (S i)) arr2 = suf).
    { subst arr2. rewrite !drop_insert_lt by lia.
      subst arr. by rewrite drop_app_length' by done. }
    set (pre2 := take (S i) arr2).
    assert (Harr2 : arr2 = pre2 ++ x :: suf).
    { subst pre2. rewrite <- Hsuf. symmetry. by apply take_drop_middle. }
    assert (Hlen_pre2 : length pre2 = S i).
    { subst pre2. rewrite length_take. lia. }
    assert (Hperm2 : pre2 ≡ₚ tpre').
    { assert (Hp : arr2 ≡ₚ arr) by (rewrite <- Hswap; apply swap_perm).
      rewrite Harr2 in Hp. subst arr. rewrite Hperm in Hp.
      rewrite <- app_assoc in Hp. cbn [app] in Hp.
      apply Permutation_app_inv_r with (l := x :: suf). done. }
    destruct (IH (S call) pre2 tpre' (x :: suf) Hlen_pre2 Hperm2) as [rand' Hr'];
      [lia|].
    exists (fun c => if (c =? call)%nat then m else rand' c).
    cbn [shuffle_from].
    rewrite (Hm _ call) by (by rewrite Nat.eqb_refl).
    fold arr. rewrite Hswap, Harr2.
    rewrite (shuffle_from_ext _ rand').
    + rewrite Hr'. by rewrite <- app_assoc.
    + intros c Hc. destruct (Nat.eqb_spec c call); [lia | done].
Qed.

(** X21. The shuffle can leave the array of a lock in every order: for
    each arrangement of an array of at most ten elements, the capacity
    of the registry, there are values of [Math.random()] in the interval
    [0, 1) that produce it. *)
Theorem shuffle_reaches_every_order {A} (arr target : list A) :
  arr ≡ₚ target -> length arr <= capacity ->
  exists rand, shuffle rand arr = target.
Proof.
  intros Hperm Hbound. unfold shuffle.
  destruct arr as [|a arr].
  - apply Permutation_nil_l in Hperm as <-. by exists (fun _ => 0%N).
  - cbn [length]. replace (S (length arr) - 1) with (length arr) by lia.
    destruct (shuffle_from_surj (length arr) 0 (a :: arr) target [])
      as [rand Hr]; [reflexivity | exact Hperm | exact Hbound |].
    exists rand. by rewrite !app_nil_r in Hr.
Qed.

Lemma shuffle_reaches_every_order_witness :
  exists rand, shuffle rand [1; 2; 3] = [3; 1; 2].
Proof.
  apply shuffle_reaches_every_order.
  - apply (bool_decide_unpack _). vm_compute. exact I.
  - unfold capacity. cbn [length]. lia.
Defined.

(** ** The order of [Object.keys] *)

Lemma insert_key_comm a b l :
  insert_key a (insert_key b l) = insert_key b (insert_key a l).
Proof.
  induction l as [|h t IH]; cbn [insert_key];
    repeat (match goal with
            | |- context [(?x <=? ?y)%Z] => destruct (Z.leb_spec x y)
            end; cbn [insert_key]);
    try lia; try done.
  - by replace b with a by lia.
  - by replace b with a by lia.
  - by rewrite IH.
Qed.

Lemma sort_keys_order l l' : l ≡ₚ l' -> sort_keys l = sort_keys l'.
Proof.
  unfold sort_keys. induction 1 as [|x l l' _ IH|x y l|l l' l'' _ IH1 _ IH2];
    cbn [fold_right].
  - done.
  - by rewrite IH.
  - apply insert_key_comm.
  - by rewrite IH1.
Qed.

Lemma filter_all_true {A} (f : A -> bool) l :
  List.Forall (fun x => f x = true) l -> List.filter f l = l.
Proof.
  induction 1 as [|x l Hx _ IH]; cbn [List.filter]; [done|].
  by rewrite Hx, IH.
Qed.

Lemma filter_all_false {A} (f : A -> bool) l :
  List.Forall (fun x => f x = true) l ->
  List.filter (fun x => negb (f x)) l = [].
Proof.
  induction 1 as [|x l Hx _ IH]; cbn [List.filter]; [done|].
  by rewrite Hx.
Qed.

Lemma Object_keys_index_order {V} (o o' : Obj V) :
  List.Forall (fun k => isArrayIndex k = true) (List.map fst o) ->
  List.map fst o ≡ₚ List.map fst o' ->
  Object_keys o = Object_keys o'.
Proof.
  intros Hidx Hperm.
  assert (Hidx' : List.Forall (fun k => isArrayIndex k = true) (List.map fst o')).
  { apply Forall_forall. intros k Hk. rewrite <- Hperm in Hk.
    by apply (proj1 (Forall_forall _ _) Hidx). }
  unfold Object_keys.
  rewrite (filter_all_true _ _ Hidx), (filter_all_true _ _ Hidx').
  rewrite (filter_all_false _ _ Hidx), (filter_all_false _ _ Hidx').
  by rewrite (sort_keys_order _ _ Hperm).
Qed.

(** X22. The winner of choose mode does not depend on the order in which the
    fingers were put down: when the identifiers are array indices, two
    registries holding the same identifiers give the same list of keys, so
    the same value of [Math.random()] picks the same identifier. *)
Theorem choose_ignores_touch_order rand (s1 s2 : State) :
  List.Forall (fun k => isArrayIndex k = true) (List.map fst (touchesData s1)) ->
  List.map fst (touchesData s1) ≡ₚ List.map fst (touchesData s2) ->
  snapshot s1 = snapshot s2
  /\ at_index (snapshot s1) (random_index rand 0 (length (snapshot s1)))
     = at_index (snapshot s2) (random_index rand 0 (length (snapshot s2))).
Proof.
  intros Hidx Hperm.
  assert (Hs : snapshot s1 = snapshot s2)
    by (unfold snapshot; by apply Object_keys_index_order).
  by rewrite Hs.
Qed.

Lemma choose_ignores_touch_order_witness :
  let s1 := run [touchstart [touch 0 10 10] 1000; touchstart [touch 1 20 20] 1001]
              (initial page_radios (Int 2)) in
  let s2 := run [touchstart [touch 1 20 20] 1000; touchstart [touch 0 10 10] 1001]
              (initial page_radios (Int 2)) in
  snapshot s1 = snapshot s2
  /\ at_index (snapshot s1) (random_index sample_rand 0 (length (snapshot s1)))
     = at_index (snapshot s2) (random_index sample_rand 0 (length (snapshot s2))).
Proof.
  apply (choose_ignores_touch_order sample_rand
           (run [touchstart [touch 0 10 10] 1000; touchstart [touch 1 20 20] 1001]
              (initial page_radios (Int 2)))
           (run [touchstart [touch 1 20 20] 1000; touchstart [touch 0 10 10] 1001]
              (initial page_radios (Int 2)))).
  - apply (bool_decide_unpack _). vm_compute. exact I.
  - apply (bool_decide_unpack _). vm_compute. exact I.
Defined.
